(** * torch/distributions/multivariate_normal.py

    A shallow embedding of the batched multivariate normal distribution:
    the batch-shape resolver, the batched linear-algebra helpers and the
    [MultivariateNormal] class, with the properties of its specification
    (C1 to C10) and further properties read off the code (X1 to X18): what
    the helpers compute, how sampling and scoring compose, and how the
    module fails.

    Tensors are contiguous row-major arrays: a shape and the flat list of
    entries.  Entries are real numbers, so every value-level statement
    below is about exact arithmetic; rounding is not part of the model.
    Python exceptions are values of [exn]; a computation that may raise
    returns a [result]. *)

From Stdlib Require Import String Ascii Decimal DecimalString.
From Stdlib Require Import List Arith PeanoNat Lia ZArith Bool.
From Stdlib Require Import Reals Lra.
From Stdlib Require Import ClassicalEpsilon.
Import ListNotations.

Set Implicit Arguments.

(* ================================================================== *)
(** ** Exceptions and results *)

Inductive exn : Type :=
| ValueError (msg : string)
| RuntimeError
| IndexError
| RecursionError.

Definition result (A : Type) : Type := (exn + A)%type.

Definition ok {A : Type} (a : A) : result A := inr a.
Definition raise {A : Type} (e : exn) : result A := inl e.

Definition bind {A B : Type} (m : result A) (k : A -> result B) : result B :=
  match m with
  | inl e => inl e
  | inr a => k a
  end.

Notation "x <- m ;; k" := (bind m (fun x => k))
  (at level 61, m at next level, right associativity).
Notation "' pat <- m ;; k" := (bind m (fun x => match x with pat => k end))
  (at level 61, pat pattern, m at next level, right associativity).

(** [mapM f l]: a list comprehension whose body may raise. *)
Fixpoint mapM {A B : Type} (f : A -> result B) (l : list A) : result (list B) :=
  match l with
  | [] => ok []
  | a :: l' => b <- f a ;; bs <- mapM f l' ;; ok (b :: bs)
  end.

(* ================================================================== *)
(** ** Shapes ([torch.Size]) *)

Definition Size : Type := list nat.

(** Number of entries of a tensor of shape [s]. *)
Definition numel (s : Size) : nat := fold_right Nat.mul 1 s.

(** Python's [s[:-1]], [s[:-2]], [s[-1:]] and [s[-2:]]: slices never raise. *)
Definition drop_last (s : Size) : Size := removelast s.
Definition drop_last2 (s : Size) : Size := removelast (removelast s).
Definition take_last (s : Size) : Size := skipn (length s - 1) s.
Definition take_last2 (s : Size) : Size := skipn (length s - 2) s.

(** One pair of aligned dimensions: equal, or one of them is 1. *)
Definition bdim (a b : nat) : option nat :=
  if a =? b then Some a
  else if a =? 1 then Some b
  else if b =? 1 then Some a
  else None.

(** The loop of [infer_size], which walks both shapes from the last
    dimension; the lists here are the reversed shapes.  A dimension missing
    on one side counts as 1, so the other side's dimension is kept. *)
Fixpoint infer_rev (a b : list nat) : option (list nat) :=
  match a, b with
  | [], _ => Some b
  | _, [] => Some a
  | x :: a', y :: b' =>
      match bdim x y, infer_rev a' b' with
      | Some d, Some r => Some (d :: r)
      | _, _ => None
      end
  end.

(** Modelled from the spec: [torch._C._infer_size] is a native helper that
    is not among the sources.  The spec gives its rule: standard
    right-aligned broadcasting, where two aligned dimensions are compatible
    when they are equal or one of them is 1, and incompatible otherwise.
    [None] stands for the [RuntimeError] the helper raises. *)
Definition infer_size (a b : Size) : option Size :=
  option_map (@rev nat) (infer_rev (rev a) (rev b)).

(** [str] of a [torch.Size], as [str.format] prints it. *)
Definition str_nat (n : nat) : string := NilEmpty.string_of_uint (Nat.to_uint n).

Fixpoint str_dims (s : list nat) : string :=
  match s with
  | [] => ""%string
  | [d] => str_nat d
  | d :: s' => (str_nat d ++ ", " ++ str_dims s')%string
  end.

Definition str_size (s : Size) : string :=
  ("torch.Size([" ++ str_dims s ++ "])")%string.

(** The spec's wording of the resolver, kept apart from the code's: pad the
    shorter shape with leading 1s, then combine position by position. *)
Definition pad_left (n : nat) (s : Size) : Size := repeat 1 (n - length s) ++ s.

Fixpoint zip_dims (a b : list nat) : option (list nat) :=
  match a, b with
  | [], [] => Some []
  | x :: a', y :: b' =>
      match bdim x y, zip_dims a' b' with
      | Some d, Some r => Some (d :: r)
      | _, _ => None
      end
  | _, _ => None
  end.

Definition broadcast_shapes (a b : Size) : option Size :=
  let n := Nat.max (length a) (length b) in
  zip_dims (pad_left n a) (pad_left n b).

Definition resolve_spec (matrix_shape vector_shape : Size) : option Size :=
  option_map drop_last (broadcast_shapes (drop_last matrix_shape) vector_shape).

(** An aligned pair of dimensions that cannot broadcast: position [i] counted
    from the last dimension of both shapes. *)
Definition clash (a b : Size) : Prop :=
  exists i x y,
    nth_error (rev a) i = Some x /\ nth_error (rev b) i = Some y /\
    x <> y /\ x <> 1 /\ y <> 1.

(** [msg] contains [s] as a contiguous piece. *)
Definition includes (msg s : string) : Prop :=
  exists p q, msg = (p ++ s ++ q)%string.

(* ================================================================== *)
(** ** Tensors and the array operations the module calls *)

Record Tensor : Type := mkT { shape : Size; data : list R }.

(** The storage holds exactly one entry per index. *)
Definition wf (t : Tensor) : Prop := length (data t) = numel (shape t).

Definition dim (t : Tensor) : nat := length (shape t).

(** Entry at flat (row-major) offset [k]. *)
Definition get (t : Tensor) (k : nat) : R := nth k (data t) 0%R.

(** The list [f 0, ..., f (n-1)]. *)
Definition tab (n : nat) (f : nat -> R) : list R := map f (seq 0 n).

Definition sumR (l : list R) : R := fold_right Rplus 0%R l.

(** [f 0 + ... + f (n-1)]. *)
Definition sumn (n : nat) (f : nat -> R) : R := sumR (tab n f).

Definition zs (s : Size) : list Z := map Z.of_nat s.

Fixpoint size_eqb (a b : Size) : bool :=
  match a, b with
  | [], [] => true
  | x :: a', y :: b' => (x =? y) && size_eqb a' b'
  | _, _ => false
  end.

(** A possibly negative dimension argument, wrapped into [0, rank). *)
Definition wrap_dim (d : Z) (rank : nat) : option nat :=
  let r := Z.of_nat rank in
  if ((0 <=? d) && (d <? r))%Z then Some (Z.to_nat d)
  else if ((d <? 0) && (- r <=? d))%Z then Some (Z.to_nat (d + r))
  else None.

(** [t.size(d)]. *)
Definition size (t : Tensor) (d : Z) : result nat :=
  match wrap_dim d (dim t) with
  | Some a =>
      match nth_error (shape t) a with
      | Some n => ok n
      | None => raise RuntimeError
      end
  | None => raise RuntimeError
  end.

(** [t.contiguous()]: storage is always contiguous here. *)
Definition contiguous (t : Tensor) : Tensor := t.

(** [t.unsqueeze(d)]: a dimension of size 1 inserted at [d]. *)
Definition unsqueeze (d : Z) (t : Tensor) : result Tensor :=
  match wrap_dim d (dim t + 1) with
  | Some p => ok (mkT (firstn p (shape t) ++ 1 :: skipn p (shape t)) (data t))
  | None => raise RuntimeError
  end.

(** [t.squeeze(d)]: dimension [d] dropped when its size is 1. *)
Definition squeeze (d : Z) (t : Tensor) : result Tensor :=
  match wrap_dim d (dim t) with
  | Some p =>
      if nth p (shape t) 0 =? 1
      then ok (mkT (firstn p (shape t) ++ skipn (S p) (shape t)) (data t))
      else ok t
  | None => raise RuntimeError
  end.

(** The shape a [view] argument denotes for [n] entries; one entry may be
    [-1] and is then inferred. *)
Definition infer_view (n : nat) (sizes : list Z) : option Size :=
  if existsb (fun z => (z <? -1)%Z) sizes then None
  else
    let p := numel (map Z.to_nat (filter (fun z => (0 <=? z)%Z) sizes)) in
    match count_occ Z.eq_dec sizes (-1)%Z with
    | 0 => if p =? n then Some (map Z.to_nat sizes) else None
    | 1 =>
        if p =? 0 then None
        else if n mod p =? 0
        then Some (map (fun z => if (z =? -1)%Z then n / p else Z.to_nat z) sizes)
        else None
    | _ => None
    end.

(** [t.view(sizes)]: same storage, new shape. *)
Definition view (sizes : list Z) (t : Tensor) : result Tensor :=
  match infer_view (numel (shape t)) sizes with
  | Some s => ok (mkT s (data t))
  | None => raise RuntimeError
  end.

(** Offset, in a tensor of (reversed) shape [src], of the entry that is
    broadcast to offset [k] of (reversed) shape [dst]: a dimension of size 1
    is read with stride 0, a missing leading dimension likewise. *)
Fixpoint bidx_rev (src dst : list nat) (k : nat) : nat :=
  match src, dst with
  | c :: src', d :: dst' =>
      (if c =? 1 then 0 else k mod d) + c * bidx_rev src' dst' (k / d)
  | _, _ => 0
  end.

Definition bidx (src dst : Size) (k : nat) : nat :=
  bidx_rev (rev src) (rev dst) k.

Fixpoint expandable_rev (src dst : list nat) : bool :=
  match src, dst with
  | [], _ => true
  | _ :: _, [] => false
  | c :: src', d :: dst' => ((c =? d) || (c =? 1)) && expandable_rev src' dst'
  end.

(** [t.expand(sizes)], materialised. *)
Definition expand (sizes : Size) (t : Tensor) : result Tensor :=
  if expandable_rev (rev (shape t)) (rev sizes)
  then ok (mkT sizes (tab (numel sizes) (fun k => get t (bidx (shape t) sizes k))))
  else raise RuntimeError.

(** An elementwise binary operation with broadcasting. *)
Definition bop (f : R -> R -> R) (a b : Tensor) : result Tensor :=
  match infer_size (shape a) (shape b) with
  | Some s =>
      ok (mkT s (tab (numel s) (fun k =>
            f (get a (bidx (shape a) s k)) (get b (bidx (shape b) s k)))))
  | None => raise RuntimeError
  end.

Definition add : Tensor -> Tensor -> result Tensor := bop Rplus.
Definition sub : Tensor -> Tensor -> result Tensor := bop Rminus.
Definition mul : Tensor -> Tensor -> result Tensor := bop Rmult.

(** Elementwise functions and operations with a Python number. *)
Definition tmap (f : R -> R) (t : Tensor) : Tensor := mkT (shape t) (map f (data t)).

Definition abs : Tensor -> Tensor := tmap Rabs.
Definition log : Tensor -> Tensor := tmap ln.
Definition pow2 : Tensor -> Tensor := tmap (fun x => (x ^ 2)%R).
Definition add_scalar (t : Tensor) (c : R) : Tensor := tmap (fun x => (x + c)%R) t.
Definition radd_scalar (c : R) (t : Tensor) : Tensor := tmap (fun x => (c + x)%R) t.
Definition rmul_scalar (c : R) (t : Tensor) : Tensor := tmap (fun x => (c * x)%R) t.

(** [t.sum(d)]: the entries along dimension [d] added up. *)
Definition sum (d : Z) (t : Tensor) : result Tensor :=
  match wrap_dim d (dim t) with
  | Some a =>
      let outer := numel (firstn a (shape t)) in
      let m := nth a (shape t) 0 in
      let inner := numel (skipn (S a) (shape t)) in
      ok (mkT (firstn a (shape t) ++ skipn (S a) (shape t))
              (tab (outer * inner) (fun q =>
                 sumn m (fun i => get t ((q / inner * m + i) * inner + q mod inner)))))
  | None => raise RuntimeError
  end.

(** [t[..., ::step]]: every [step]-th entry of the last dimension. *)
Definition slice_last_step (step : nat) (t : Tensor) : result Tensor :=
  match shape t with
  | [] => raise IndexError
  | _ :: _ =>
      let pre := drop_last (shape t) in
      let m := last (shape t) 0 in
      let cnt := (m + step - 1) / step in
      ok (mkT (pre ++ [cnt])
              (tab (numel pre * cnt) (fun q => get t (q / cnt * m + q mod cnt * step))))
  end.

(** [t.transpose(-1, -2)], materialised. *)
Definition transpose_last2 (t : Tensor) : result Tensor :=
  if dim t <? 2 then raise RuntimeError
  else
    let pre := drop_last2 (shape t) in
    let n := nth (dim t - 2) (shape t) 0 in
    let m := nth (dim t - 1) (shape t) 0 in
    ok (mkT (pre ++ [m; n])
            (tab (numel pre * m * n) (fun q =>
               get t ((q / (m * n) * n + q mod n) * m + q / n mod m)))).

(** [t.t()]: the transpose of a matrix. *)
Definition t (a : Tensor) : result Tensor :=
  if dim a =? 2 then transpose_last2 a else raise RuntimeError.

(** [torch.bmm(a, b)]: one matrix product per item of two 3-d batches. *)
Definition bmm (a b : Tensor) : result Tensor :=
  match shape a, shape b with
  | [ba; n; m], [bb; m'; p] =>
      if (ba =? bb) && (m =? m')
      then ok (mkT [ba; n; p]
                 (tab (ba * n * p) (fun q =>
                    sumn m (fun l =>
                      (get a ((q / (n * p) * n + q / p mod n) * m + l) *
                       get b ((q / (n * p) * m + l) * p + q mod p))%R))))
      else raise RuntimeError
  | _, _ => raise RuntimeError
  end.

(** Iteration over a tensor: its slices along the first dimension. *)
Definition unbind (a : Tensor) : result (list Tensor) :=
  match shape a with
  | [] => raise RuntimeError
  | b :: s =>
      ok (map (fun k => mkT s (firstn (numel s) (skipn (k * numel s) (data a))))
              (seq 0 b))
  end.

(** [torch.stack(ts)] along a new first dimension. *)
Definition stack (ts : list Tensor) : result Tensor :=
  match ts with
  | [] => raise RuntimeError
  | t0 :: _ =>
      if forallb (fun x => size_eqb (shape x) (shape t0)) ts
      then ok (mkT (length ts :: shape t0) (concat (map data ts)))
      else raise RuntimeError
  end.

(* ================================================================== *)
(** ** The module *)

(** An instance of the class.  [covariance_matrix_] and [scale_tril_] are
    the two instance attributes: the one given to the constructor is set
    from the start, the other is set by its lazy property on first use. *)
Record MultivariateNormal : Type := mkMVN {
  loc : Tensor;
  covariance_matrix_ : option Tensor;
  scale_tril_ : option Tensor;
  _batch_shape : Size;
  _event_shape : Size;
  _validate_args : bool
}.

Definition set_scale_tril (self : MultivariateNormal) (v : Tensor) : MultivariateNormal :=
  mkMVN (loc self) (covariance_matrix_ self) (Some v)
        (_batch_shape self) (_event_shape self) (_validate_args self).

Definition set_covariance_matrix (self : MultivariateNormal) (v : Tensor) : MultivariateNormal :=
  mkMVN (loc self) (Some v) (scale_tril_ self)
        (_batch_shape self) (_event_shape self) (_validate_args self).

Section Model.

(** The library routines the module relies on: [torch.inverse],
    [Tensor.potrf(upper=False)], the in-place standard-normal sampler
    [normal_] drawing from a generator state, and the sample validator of
    the base class. *)
Variable inverse : Tensor -> result Tensor.
Variable potrf : Tensor -> result Tensor.
Variable generator : Type.
Variable normal_ : Size -> generator -> Tensor * generator.
Variable _validate_sample : MultivariateNormal -> Tensor -> result unit.

Definition _get_batch_shape (bmat bvec : Tensor) : result Size :=
  match infer_size (shape bvec) (drop_last (shape bmat)) with
  | None =>
      raise (ValueError ("Incompatible batch shapes: vector " ++ str_size (shape bvec)
                         ++ ", matrix " ++ str_size (shape bmat)))
  | Some vec_shape => ok (drop_last vec_shape)
  end.

Definition _batch_mv (bmat bvec : Tensor) : result Tensor :=
  n <- size bvec (-1) ;;
  batch_shape <- _get_batch_shape bmat bvec ;;
  e <- expand (batch_shape ++ [n; n]) bmat ;;
  bmat' <- view [(-1)%Z; Z.of_nat n; Z.of_nat n] (contiguous e) ;;
  u <- unsqueeze (-1) bvec ;;
  e' <- expand (batch_shape ++ [n; 1]) u ;;
  bvec' <- view [(-1)%Z; Z.of_nat n; 1%Z] (contiguous e') ;;
  p <- bmm bmat' bvec' ;;
  q <- squeeze (-1) p ;;
  view (zs (batch_shape ++ [n])) q.

Definition _batch_potrf_lower (bmat : Tensor) : result Tensor :=
  n <- size bmat (-1) ;;
  u <- unsqueeze 0 bmat ;;
  flat <- view [(-1)%Z; Z.of_nat n; Z.of_nat n] (contiguous u) ;;
  items <- unbind flat ;;
  cs <- mapM potrf items ;;
  cholesky <- stack cs ;;
  view (zs (shape bmat)) cholesky.

Definition _batch_diag (bmat : Tensor) : result Tensor :=
  v <- view (zs (drop_last2 (shape bmat)) ++ [(-1)%Z]) (contiguous bmat) ;;
  n <- size bmat (-1) ;;
  slice_last_step (n + 1) v.

Definition _batch_mahalanobis (L x : Tensor) : result Tensor :=
  u <- unsqueeze 0 L ;;
  flat_L <- view ((-1)%Z :: zs (take_last2 (shape L))) (contiguous u) ;;
  items <- unbind flat_L ;;
  invs <- mapM (fun Li => Lt <- t Li ;; inverse Lt) items ;;
  st <- stack invs ;;
  L_inv <- view (zs (shape L)) st ;;
  xu <- unsqueeze (-1) x ;;
  p <- mul xu L_inv ;;
  s <- sum (-2) p ;;
  sum (-1) (pow2 s).

(** Modelled from the spec: [Distribution.__init__] belongs to the generic
    base class, which is not among the sources.  It records the batch and
    event shapes and the validation flag; checking the parameters against
    their constraints is the work of an external collaborator and is left
    out.  A flag that is not given stays at the class default, off. *)
Definition Distribution__init__ (self : MultivariateNormal)
    (batch_shape event_shape : Size) (validate_args : option bool) : MultivariateNormal :=
  mkMVN (loc self) (covariance_matrix_ self) (scale_tril_ self)
        batch_shape event_shape
        (match validate_args with Some b => b | None => false end).

(** The constructor.  The first test of the source,
    [(covariance_matrix is None) == (scale_tril is None)], is the first
    branch: both given, or neither. *)
Definition __init__ (loc : Tensor) (covariance_matrix scale_tril : option Tensor)
    (validate_args : option bool) : result MultivariateNormal :=
  let event_shape := take_last (shape loc) in
  match covariance_matrix, scale_tril with
  | Some _, Some _ | None, None =>
      raise (ValueError
        "Exactly one of covariance_matrix or scale_tril may be specified (but not both).")
  | Some cov, None =>
      if dim cov <? 2
      then raise (ValueError
        "covariance_matrix must be two-dimensional, with optional leading batch dimensions")
      else
        batch_shape <- _get_batch_shape cov loc ;;
        ok (Distribution__init__ (mkMVN loc (Some cov) None [] [] false)
              batch_shape event_shape validate_args)
  | None, Some st =>
      if dim st <? 2
      then raise (ValueError
        "scale_tril matrix must be two-dimensional, with optional leading batch dimensions")
      else
        batch_shape <- _get_batch_shape st loc ;;
        ok (Distribution__init__ (mkMVN loc None (Some st) [] [] false)
              batch_shape event_shape validate_args)
  end.

(** The lazy property [scale_tril]: the attribute when it is set, else the
    Cholesky factor of the covariance, stored on the instance.  With
    neither attribute set the two properties would call each other
    without end. *)
Definition scale_tril (self : MultivariateNormal) : result (Tensor * MultivariateNormal) :=
  match scale_tril_ self with
  | Some v => ok (v, self)
  | None =>
      match covariance_matrix_ self with
      | Some cov =>
          v <- _batch_potrf_lower cov ;;
          ok (v, set_scale_tril self v)
      | None => raise RecursionError
      end
  end.

(** The lazy property [covariance_matrix]. *)
Definition covariance_matrix (self : MultivariateNormal)
    : result (Tensor * MultivariateNormal) :=
  match covariance_matrix_ self with
  | Some v => ok (v, self)
  | None =>
      '(st, self) <- scale_tril self ;;
      u <- unsqueeze 0 st ;;
      flat_scale_tril <-
        view ((-1)%Z :: zs (_event_shape self ++ _event_shape self)) (contiguous u) ;;
      tr <- transpose_last2 flat_scale_tril ;;
      p <- bmm flat_scale_tril tr ;;
      '(st', self) <- scale_tril self ;;
      v <- view (zs (shape st')) p ;;
      ok (v, set_covariance_matrix self v)
  end.

(** Modelled from the spec: [_extended_shape] belongs to the base class;
    the spec gives the shape of a draw as
    [sample_shape + batch_shape + event_shape]. *)
Definition _extended_shape (self : MultivariateNormal) (sample_shape : Size) : Size :=
  sample_shape ++ _batch_shape self ++ _event_shape self.

Definition rsample (self : MultivariateNormal) (sample_shape : Size) (g : generator)
    : result (Tensor * MultivariateNormal * generator) :=
  let shape := _extended_shape self sample_shape in
  let '(eps, g) := normal_ shape g in
  '(st, self) <- scale_tril self ;;
  mv <- _batch_mv st eps ;;
  out <- add (loc self) mv ;;
  ok (out, self, g).

(** [_batch_diag(self.scale_tril).abs().log().sum(-1)]. *)
Definition log_det_of (st : Tensor) : result Tensor :=
  d <- _batch_diag st ;;
  sum (-1) (log (abs d)).

Definition log_prob (self : MultivariateNormal) (value : Tensor)
    : result (Tensor * MultivariateNormal) :=
  _ <- (if _validate_args self then _validate_sample self value else ok tt) ;;
  diff <- sub value (loc self) ;;
  '(st, self) <- scale_tril self ;;
  M <- _batch_mahalanobis st diff ;;
  '(st', self) <- scale_tril self ;;
  log_det <- log_det_of st' ;;
  n <- size (loc self) (-1) ;;
  out <- sub (rmul_scalar (-0.5) (add_scalar M (INR n * ln (2 * PI)))) log_det ;;
  ok (out, self).

Definition entropy (self : MultivariateNormal) : result (Tensor * MultivariateNormal) :=
  '(st, self) <- scale_tril self ;;
  log_det <- log_det_of st ;;
  n <- match _event_shape self with
       | n :: _ => ok n
       | [] => raise IndexError
       end ;;
  let H := radd_scalar (0.5 * (1.0 + ln (2 * PI)) * INR n) log_det in
  if length (_batch_shape self) =? 0
  then ok (H, self)
  else
    e <- expand (_batch_shape self) H ;;
    ok (e, self).

End Model.

(* ================================================================== *)
(** ** Notions used to state the properties *)

(** The three messages with which the constructor rejects its parameters:
    the spec's [ParameterError]. *)
Definition ParameterError (e : exn) : Prop :=
  e = ValueError
        "Exactly one of covariance_matrix or scale_tril may be specified (but not both)."
  \/ e = ValueError
        "covariance_matrix must be two-dimensional, with optional leading batch dimensions"
  \/ e = ValueError
        "scale_tril matrix must be two-dimensional, with optional leading batch dimensions".

(** The resolver's failure: the spec's [ShapeError]. *)
Definition ShapeError (e : exn) (bmat bvec : Tensor) : Prop :=
  e = ValueError ("Incompatible batch shapes: vector " ++ str_size (shape bvec)
                  ++ ", matrix " ++ str_size (shape bmat)).

(** Both matrix parameters given, or neither, or the one given has fewer
    than two dimensions. *)
Definition bad_parameters (covariance_matrix scale_tril : option Tensor) : Prop :=
  match covariance_matrix, scale_tril with
  | Some _, Some _ => True
  | None, None => True
  | Some m, None => dim m < 2
  | None, Some m => dim m < 2
  end.

(** The matrix parameter the caller supplied, when exactly one is. *)
Definition supplied (covariance_matrix scale_tril : option Tensor) : option Tensor :=
  match covariance_matrix, scale_tril with
  | Some m, None => Some m
  | None, Some m => Some m
  | _, _ => None
  end.

(** Entry [(i, j)] of item [k] of a batch of n-by-n matrices, and entry [i]
    of item [k] of a batch of length-n vectors; [k] is the row-major offset
    of the item in the batch. *)
Definition mat (n : nat) (a : Tensor) (k i j : nat) : R := get a ((k * n + i) * n + j).
Definition vec (n : nat) (a : Tensor) (k i : nat) : R := get a (k * n + i).

(** Item [k] of a batch of n-by-n matrices, as a matrix of its own. *)
Definition item (n k : nat) (a : Tensor) : Tensor :=
  mkT [n; n] (firstn (numel [n; n]) (skipn (k * numel [n; n]) (data a))).

Definition delta (i j : nat) : R := if i =? j then 1%R else 0%R.

Definition is_matrix (n : nat) (a : Tensor) : Prop := shape a = [n; n] /\ wf a.

(** [b] is the inverse of the matrix [a]. *)
Definition is_inverse (a b : Tensor) : Prop :=
  exists n,
    is_matrix n a /\ is_matrix n b /\
    (forall i j, i < n -> j < n ->
       sumn n (fun p => (mat n a 0 i p * mat n b 0 p j)%R) = delta i j) /\
    (forall i j, i < n -> j < n ->
       sumn n (fun p => (mat n b 0 i p * mat n a 0 p j)%R) = delta i j).

Definition invertible (a : Tensor) : Prop := exists b, is_inverse a b.

(** Lower-triangular with a positive diagonal. *)
Definition lower_pos (n : nat) (l : Tensor) : Prop :=
  (forall i j, i < j -> j < n -> mat n l 0 i j = 0%R) /\
  (forall i, i < n -> (0 < mat n l 0 i i)%R).

(** [l] is the Cholesky factor of [a]: lower-triangular with a positive
    diagonal, and [l @ l^T = a]. *)
Definition is_cholesky (a l : Tensor) : Prop :=
  exists n,
    is_matrix n a /\ is_matrix n l /\ lower_pos n l /\
    (forall i j, i < n -> j < n ->
       sumn n (fun p => (mat n l 0 i p * mat n l 0 j p)%R) = mat n a 0 i j).

(** [l_k @ l_k^T] for item [k] of a batch [l] of n-by-n matrices. *)
Definition gram (n : nat) (l : Tensor) (k : nat) : Tensor :=
  mkT [n; n]
      (tab (n * n) (fun q =>
         sumn n (fun p => (mat n l k (q / n) p * mat n l k (q mod n) p)%R))).

(** The quadratic form [x_k^T s x_k] of the matrix [s] at item [k] of a
    batch [x] of length-n vectors. *)
Definition quad (n : nat) (s x : Tensor) (k : nat) : R :=
  sumn n (fun i => sumn n (fun j => (vec n x k i * mat n s 0 i j * vec n x k j)%R)).

(** Products and transposes of n-by-n matrices given by their entries. *)
Definition mmul (n : nat) (A B : nat -> nat -> R) : nat -> nat -> R :=
  fun i j => sumn n (fun p => (A i p * B p j)%R).

Definition mT (A : nat -> nat -> R) : nat -> nat -> R := fun i j => A j i.

(** The entries of a matrix, and the matrix with given entries. *)
Definition entries (n : nat) (a : Tensor) : nat -> nat -> R := mat n a 0.

Definition of_entries (n : nat) (A : nat -> nat -> R) : Tensor :=
  mkT [n; n] (tab (n * n) (fun q => A (q / n) (q mod n))).

(** [A] and [B] are inverse to each other on the index range. *)
Definition inverse_pair (n : nat) (A B : nat -> nat -> R) : Prop :=
  (forall i j, i < n -> j < n -> mmul n A B i j = delta i j) /\
  (forall i j, i < n -> j < n -> mmul n B A i j = delta i j).

(** What the comprehension [torch.inverse(Li.t()) for Li in flat_L] yields
    for an invertible item [a]: the transpose of its inverse. *)
Definition transposed_inverse (n : nat) (a c : Tensor) : Prop :=
  is_matrix n c /\
  exists b, is_inverse a b /\
            forall i j, i < n -> j < n -> entries n c i j = entries n b j i.

(** [L] with the sign of entry [(i, i)] of item [k] flipped. *)
Definition flip_diagonal (n k i : nat) (L : Tensor) : Tensor :=
  mkT (shape L)
      (tab (length (data L)) (fun q =>
         if q =? (k * n + i) * n + i then (- get L q)%R else get L q)).

(** The positive-definite matrices: those with a Cholesky factor. *)
Definition positive_definite (a : Tensor) : Prop := exists l, is_cholesky a l.

(** The batch [L @ L^T] of a batch [L] of n-by-n matrices of batch shape
    [mb], entry by entry. *)
Definition batch_gram (mb : Size) (n : nat) (L : Tensor) : Tensor :=
  mkT (mb ++ [n; n])
      (tab (numel mb * n * n) (fun q =>
         sumn n (fun l =>
           (get L ((q / (n * n) * n + q / n mod n) * n + l) *
            get L ((q / (n * n) * n + q mod n) * n + l))%R))).

(** The 2-by-2 identity matrix and the zero vector of length 2. *)
Definition eye2 : Tensor := mkT [2; 2] [1; 0; 0; 1]%R.
Definition zeros2 : Tensor := mkT [2] [0; 0]%R.

(** The value a method returns, without the instance it leaves behind. *)
Definition value_of {A S : Type} (r : result (A * S)) : result A :=
  match r with
  | inl e => inl e
  | inr (a, _) => inr a
  end.

(** Rows [0 .. i-1] of the inverse of a lower-triangular matrix with a
    nonzero diagonal, by forward substitution; used to show that a factor
    meeting its constraint can be inverted. *)
Fixpoint tri_rows (L : nat -> nat -> R) (i : nat) : list (nat -> R) :=
  match i with
  | 0 => []
  | S i' =>
      let prev := tri_rows L i' in
      prev ++ [fun j =>
                 ((delta i' j - sumn i' (fun p => L i' p * nth p prev (fun _ => 0) j))
                  / L i' i')%R]
  end.

Definition tri_inverse (L : nat -> nat -> R) (i j : nat) : R :=
  nth i (tri_rows L (S i)) (fun _ => 0%R) j.

(** ** Instances of the library routines, and concrete data *)

(** The inverse of a matrix that has one, by description. *)
Definition the_inverse (a : Tensor) : result Tensor :=
  match excluded_middle_informative (invertible a) with
  | left H => ok (proj1_sig (constructive_indefinite_description _ H))
  | right _ => raise RuntimeError
  end.

(** The Cholesky factor of a positive-definite matrix, by description. *)
Definition the_potrf (a : Tensor) : result Tensor :=
  match excluded_middle_informative (positive_definite a) with
  | left H => ok (proj1_sig (constructive_indefinite_description _ H))
  | right _ => raise RuntimeError
  end.

(** A sampler that fills with zeros and steps a counter. *)
Definition zero_normal (s : Size) (g : nat) : Tensor * nat :=
  (mkT s (repeat 0%R (numel s)), S g).

(** A validator that accepts every sample. *)
Definition accept_sample (self : MultivariateNormal) (value : Tensor) : result unit := ok tt.

(** A lower-triangular matrix with a positive diagonal, its inverse, the
    covariance it factors, a mean and a value, and the instances built
    from them. *)
Definition L1 : Tensor := mkT [2; 2] [2; 0; 1; 1]%R.
Definition B1 : Tensor := mkT [2; 2] [1 / 2; 0; - (1 / 2); 1]%R.
Definition C1 : Tensor := mkT [2; 2] [4; 2; 2; 2]%R.
Definition loc1 : Tensor := mkT [2] [1; 2]%R.
Definition value1 : Tensor := mkT [2] [3; 5]%R.
Definition self1 : MultivariateNormal := mkMVN loc1 None (Some L1) [] [2] false.
Definition selfC : MultivariateNormal := mkMVN loc1 (Some C1) None [] [2] false.
Definition selfF : MultivariateNormal :=
  mkMVN loc1 None (Some (flip_diagonal 2 0 0 L1)) [] [2] false.

(** A mean whose only dimension has size 1, the zero matrix, a value of
    length 3, the inverse of [C1], a shift with the shifted mean and value,
    and further instances. *)
Definition locU : Tensor := mkT [1] [7]%R.
Definition Z2 : Tensor := mkT [2; 2] [0; 0; 0; 0]%R.
Definition value3 : Tensor := mkT [3] [1; 2; 3]%R.
Definition S1 : Tensor := mkT [2; 2] [1 / 2; - (1 / 2); - (1 / 2); 1]%R.
Definition shift1 : Tensor := mkT [2] [10; 20]%R.
Definition loc1s : Tensor := mkT [2] [1 + 10; 2 + 20]%R.
Definition value1s : Tensor := mkT [2] [3 + 10; 5 + 20]%R.
Definition selfU : MultivariateNormal := mkMVN locU None (Some L1) [] [1] false.
Definition selfZ : MultivariateNormal := mkMVN loc1 (Some Z2) None [] [2] false.
Definition self0 : MultivariateNormal := mkMVN zeros2 None (Some L1) [] [2] false.
Definition self3 : MultivariateNormal :=
  mkMVN loc1 None (Some (rmul_scalar 3 L1)) [] [2] false.
Definition self1s : MultivariateNormal := mkMVN loc1s None (Some L1) [] [2] false.

(* ================================================================== *)
(** ** Shapes: broadcasting *)

Lemma bdim_comm (a b : nat) : bdim a b = bdim b a.
Proof.
  unfold bdim.
  destruct (Nat.eqb_spec a b), (Nat.eqb_spec b a), (Nat.eqb_spec a 1), (Nat.eqb_spec b 1);
    subst; congruence.
Qed.

Lemma bdim_1_l (b : nat) : bdim 1 b = Some b.
Proof.
  unfold bdim. destruct (Nat.eqb_spec 1 b); subst; reflexivity.
Qed.

Lemma bdim_1_r (a : nat) : bdim a 1 = Some a.
Proof. rewrite bdim_comm. apply bdim_1_l. Qed.

Lemma bdim_refl (a : nat) : bdim a a = Some a.
Proof. unfold bdim. now rewrite Nat.eqb_refl. Qed.

Lemma bdim_none (a b : nat) : bdim a b = None <-> a <> b /\ a <> 1 /\ b <> 1.
Proof.
  unfold bdim.
  destruct (Nat.eqb_spec a b), (Nat.eqb_spec a 1), (Nat.eqb_spec b 1);
    split; intros H; try discriminate; try tauto; try reflexivity.
Qed.

(** For sizes that are at least 1 the combined dimension is the larger of
    the two. *)
Lemma bdim_max (a b d : nat) : 1 <= a -> 1 <= b -> bdim a b = Some d -> d = Nat.max a b.
Proof.
  unfold bdim. intros Ha Hb.
  destruct (Nat.eqb_spec a b), (Nat.eqb_spec a 1), (Nat.eqb_spec b 1);
    intros [= <-]; lia.
Qed.

Lemma infer_rev_comm (a b : list nat) : infer_rev a b = infer_rev b a.
Proof.
  revert b. induction a as [|x a IH]; intros [|y b]; simpl; try reflexivity.
  now rewrite bdim_comm, IH.
Qed.

Lemma infer_size_comm (a b : Size) : infer_size a b = infer_size b a.
Proof. unfold infer_size. now rewrite infer_rev_comm. Qed.

Lemma infer_rev_nil_r (a : list nat) : infer_rev a [] = Some a.
Proof. now destruct a. Qed.

Lemma infer_size_snoc (a b : Size) (x y : nat) :
  infer_size (a ++ [x]) (b ++ [y]) =
  match bdim x y, infer_size a b with
  | Some d, Some r => Some (r ++ [d])
  | _, _ => None
  end.
Proof.
  unfold infer_size. rewrite !rev_app_distr. simpl.
  destruct (bdim x y); [|reflexivity].
  destruct (infer_rev (rev a) (rev b)); reflexivity.
Qed.

Lemma infer_rev_none (a b : list nat) :
  infer_rev a b = None <->
  exists i x y, nth_error a i = Some x /\ nth_error b i = Some y /\
                x <> y /\ x <> 1 /\ y <> 1.
Proof.
  revert b. induction a as [|x a IH]; intros [|y b]; simpl.
  - split; [discriminate|]. intros (i & u & v & H & _). now destruct i.
  - split; [discriminate|]. intros (i & u & v & H & _). now destruct i.
  - split; [discriminate|]. intros (i & u & v & _ & H & _). now destruct i.
  - destruct (bdim x y) as [d|] eqn:Hd.
    + destruct (infer_rev a b) as [r|] eqn:Hr.
      * split; [discriminate|]. intros (i & u & v & Hu & Hv & Hne).
        destruct i as [|i]; simpl in *.
        -- inversion Hu; inversion Hv; subst.
           apply (proj2 (bdim_none _ _)) in Hne. congruence.
        -- assert (infer_rev a b = None) by (apply IH; eauto 8). congruence.
      * split; [|reflexivity]. intros _.
        destruct (proj1 (IH b) Hr) as (i & u & v & Hu & Hv & Hne).
        exists (S i), u, v. auto.
    + split; [|reflexivity]. intros _.
      exists 0, x, y. simpl. apply bdim_none in Hd. auto.
Qed.

Lemma infer_size_none (a b : Size) : infer_size a b = None <-> clash a b.
Proof.
  unfold infer_size, clash. rewrite <- infer_rev_none.
  destruct (infer_rev (rev a) (rev b)); simpl; split; intros H;
    try discriminate; reflexivity.
Qed.

Lemma zip_dims_ones_l (b : list nat) : zip_dims (repeat 1 (length b)) b = Some b.
Proof.
  induction b as [|y b IH]; simpl; [reflexivity|].
  now rewrite bdim_1_l, IH.
Qed.

Lemma zip_dims_ones_r (a : list nat) : zip_dims a (repeat 1 (length a)) = Some a.
Proof.
  induction a as [|x a IH]; simpl; [reflexivity|].
  now rewrite bdim_1_r, IH.
Qed.

Lemma infer_rev_zip (a b : list nat) :
  infer_rev a b =
  zip_dims (a ++ repeat 1 (Nat.max (length a) (length b) - length a))
           (b ++ repeat 1 (Nat.max (length a) (length b) - length b)).
Proof.
  revert b. induction a as [|x a IH]; intros [|y b].
  - reflexivity.
  - cbn [length Nat.max infer_rev app]. rewrite Nat.sub_0_r, Nat.sub_diag, app_nil_r.
    symmetry. apply (zip_dims_ones_l (y :: b)).
  - cbn [length Nat.max infer_rev app]. rewrite Nat.sub_0_r, Nat.sub_diag, app_nil_r.
    symmetry. apply (zip_dims_ones_r (x :: a)).
  - cbn [length Nat.max infer_rev app Nat.sub zip_dims]. now rewrite IH.
Qed.

Lemma zip_dims_app (a1 a2 b1 b2 : list nat) :
  length a1 = length b1 ->
  zip_dims (a1 ++ a2) (b1 ++ b2) =
  match zip_dims a1 b1, zip_dims a2 b2 with
  | Some r1, Some r2 => Some (r1 ++ r2)
  | _, _ => None
  end.
Proof.
  revert b1. induction a1 as [|x a1 IH]; intros [|y b1] Hlen; try discriminate; simpl.
  - now destruct (zip_dims a2 b2).
  - destruct (bdim x y); [|reflexivity].
    rewrite IH by (simpl in Hlen; lia).
    destruct (zip_dims a1 b1), (zip_dims a2 b2); reflexivity.
Qed.

Lemma zip_dims_rev (a b : list nat) :
  length a = length b ->
  zip_dims (rev a) (rev b) = option_map (@rev nat) (zip_dims a b).
Proof.
  revert b. induction a as [|x a IH]; intros [|y b] Hlen; try discriminate; simpl.
  - reflexivity.
  - rewrite zip_dims_app by (rewrite !length_rev; simpl in Hlen; lia).
    rewrite IH by (simpl in Hlen; lia). simpl.
    destruct (bdim x y), (zip_dims a b); reflexivity.
Qed.

Lemma rev_pad_left (n : nat) (s : Size) :
  rev (pad_left n s) = rev s ++ repeat 1 (n - length s).
Proof.
  unfold pad_left. rewrite rev_app_distr. f_equal.
  induction (n - length s) as [|k IH]; [reflexivity|].
  simpl. rewrite IH. now rewrite <- repeat_cons.
Qed.

Lemma length_pad_left (n : nat) (s : Size) : length s <= n -> length (pad_left n s) = n.
Proof. intros H. unfold pad_left. rewrite length_app, repeat_length. lia. Qed.

(** The spec's broadcast and the helper's loop compute the same shape. *)
Lemma broadcast_shapes_infer_size (a b : Size) : broadcast_shapes a b = infer_size a b.
Proof.
  unfold broadcast_shapes, infer_size.
  rewrite infer_rev_zip, !length_rev, <- !rev_pad_left.
  rewrite zip_dims_rev by (rewrite !length_pad_left; lia).
  destruct (zip_dims _ _); simpl; [now rewrite rev_involutive | reflexivity].
Qed.

(** ** Strings *)

Lemma append_assoc (a b c : string) : ((a ++ b) ++ c = a ++ (b ++ c))%string.
Proof. induction a as [|ch a IH]; simpl; [reflexivity | now rewrite IH]. Qed.

Lemma append_nil_r (a : string) : (a ++ "" = a)%string.
Proof. induction a as [|ch a IH]; simpl; [reflexivity | now rewrite IH]. Qed.

Lemma includes_mid (p s q : string) : includes (p ++ s ++ q) s.
Proof. now exists p, q. Qed.

Lemma includes_end (p s : string) : includes (p ++ s) s.
Proof. exists p, ""%string. now rewrite append_nil_r. Qed.

(* ================================================================== *)
(** ** The batch-shape resolver *)

Lemma get_batch_shape_ok (bmat bvec : Tensor) (vs : Size) :
  infer_size (shape bvec) (drop_last (shape bmat)) = Some vs ->
  _get_batch_shape bmat bvec = ok (drop_last vs).
Proof. intros H. unfold _get_batch_shape. now rewrite H. Qed.

Lemma get_batch_shape_raise (bmat bvec : Tensor) :
  infer_size (shape bvec) (drop_last (shape bmat)) = None ->
  _get_batch_shape bmat bvec =
  raise (ValueError ("Incompatible batch shapes: vector " ++ str_size (shape bvec)
                     ++ ", matrix " ++ str_size (shape bmat))).
Proof. intros H. unfold _get_batch_shape. now rewrite H. Qed.

(** C3: for compatible shapes the resolver returns the broadcast of
    [matrix_shape[:-1]] with [vector_shape], in the spec's right-aligned
    reading, without its last element; the three shapes of the spec's
    examples resolve to (5,), (4,) and (2,5). *)
Theorem get_batch_shape_resolves :
  (forall (bmat bvec : Tensor) (bs : Size),
      broadcast_shapes (drop_last (shape bmat)) (shape bvec) = Some bs ->
      _get_batch_shape bmat bvec = ok (drop_last bs) /\
      resolve_spec (shape bmat) (shape bvec) = Some (drop_last bs)) /\
  (forall dm dv, _get_batch_shape (mkT [5; 3; 3] dm) (mkT [3] dv) = ok [5]) /\
  (forall dm dv, _get_batch_shape (mkT [3; 3] dm) (mkT [4; 3] dv) = ok [4]) /\
  (forall dm dv, _get_batch_shape (mkT [2; 1; 3; 3] dm) (mkT [5; 3] dv) = ok [2; 5]).
Proof.
  split; [|repeat split; intros; reflexivity].
  intros bmat bvec bs H. split.
  - apply get_batch_shape_ok.
    now rewrite infer_size_comm, <- broadcast_shapes_infer_size.
  - unfold resolve_spec. now rewrite H.
Qed.

(** C4: when some aligned pair of dimensions of [matrix_shape[:-1]] and
    [vector_shape] is unequal with neither equal to 1, the resolver raises
    the incompatible-shapes error, and its message contains the printed
    form of both original shapes; (4,3,3) against (5,3) is such a pair. *)
Theorem get_batch_shape_incompatible :
  (forall bmat bvec : Tensor,
      clash (drop_last (shape bmat)) (shape bvec) ->
      broadcast_shapes (drop_last (shape bmat)) (shape bvec) = None /\
      exists msg,
        _get_batch_shape bmat bvec = raise (ValueError msg) /\
        ShapeError (ValueError msg) bmat bvec /\
        includes msg (str_size (shape bvec)) /\
        includes msg (str_size (shape bmat))) /\
  (forall dm dv,
      clash (drop_last [4; 3; 3]) [5; 3] /\
      _get_batch_shape (mkT [4; 3; 3] dm) (mkT [5; 3] dv) =
      raise (ValueError
        "Incompatible batch shapes: vector torch.Size([5, 3]), matrix torch.Size([4, 3, 3])")).
Proof.
  split.
  - intros bmat bvec Hc.
    assert (Hn : infer_size (shape bvec) (drop_last (shape bmat)) = None).
    { rewrite infer_size_comm. now apply infer_size_none. }
    split.
    + now rewrite broadcast_shapes_infer_size, infer_size_comm.
    + eexists. split; [now apply get_batch_shape_raise|].
      split; [reflexivity|]. split.
      * apply includes_mid.
      * rewrite <- !append_assoc. apply includes_end.
  - intros dm dv. split; [|reflexivity].
    exists 1, 4, 5. simpl. repeat split; try reflexivity; lia.
Qed.

Lemma drop_last_snoc (s : Size) (x : nat) : drop_last (s ++ [x]) = s.
Proof. apply removelast_last. Qed.

Lemma drop_last_snoc2 (s : Size) (x y : nat) : drop_last (s ++ [x; y]) = s ++ [x].
Proof.
  change (s ++ [x; y]) with (s ++ [x] ++ [y]). rewrite app_assoc.
  apply removelast_last.
Qed.

Lemma take_last_snoc (s : Size) (x : nat) : take_last (s ++ [x]) = [x].
Proof.
  unfold take_last. rewrite length_app. simpl.
  replace (length s + 1 - 1) with (length s + 0) by lia.
  now rewrite skipn_app, Nat.add_0_r, skipn_all, Nat.sub_diag.
Qed.


(* ================================================================== *)
(** ** The constructor *)

Lemma shape_error_not_parameter_error (e : exn) (bmat bvec : Tensor) :
  ShapeError e bmat bvec -> ~ ParameterError e.
Proof.
  unfold ShapeError, ParameterError. intros -> [H | [H | H]]; simpl in H; discriminate.
Qed.

Lemma get_batch_shape_cases (bmat bvec : Tensor) :
  (exists bs, _get_batch_shape bmat bvec = ok bs) \/
  (exists e, _get_batch_shape bmat bvec = raise e /\ ShapeError e bmat bvec).
Proof.
  unfold _get_batch_shape.
  destruct (infer_size _ _); [left | right]; eexists; [|split]; reflexivity.
Qed.

(** C7: the constructor raises one of its three parameter errors exactly
    when both matrix parameters are given, or neither, or the one given has
    fewer than two dimensions.  In every other case it does what the
    resolver does on the supplied matrix and [loc]: it fails with the
    resolver's shape error, or it returns an instance that holds [loc] and
    the supplied matrix unchanged. *)
Theorem init_parameter_error
    (loc0 : Tensor) (covariance_matrix0 scale_tril0 : option Tensor)
    (validate_args : option bool) :
  ((exists e, __init__ loc0 covariance_matrix0 scale_tril0 validate_args = raise e /\
              ParameterError e)
   <-> bad_parameters covariance_matrix0 scale_tril0) /\
  (forall m, supplied covariance_matrix0 scale_tril0 = Some m -> 2 <= dim m ->
     (forall e, _get_batch_shape m loc0 = raise e ->
        __init__ loc0 covariance_matrix0 scale_tril0 validate_args = raise e /\
        ShapeError e m loc0) /\
     (forall bs, _get_batch_shape m loc0 = ok bs ->
        exists self,
          __init__ loc0 covariance_matrix0 scale_tril0 validate_args = ok self /\
          loc self = loc0 /\
          covariance_matrix_ self = covariance_matrix0 /\
          scale_tril_ self = scale_tril0 /\
          _batch_shape self = bs /\
          _event_shape self = take_last (shape loc0))).
Proof.
  split.
  - destruct covariance_matrix0 as [cov|], scale_tril0 as [st|]; simpl.
    + split; [auto|]. intros _. eexists; split; [reflexivity | left; reflexivity].
    + destruct (Nat.ltb_spec (dim cov) 2) as [Hd|Hd].
      * split; [auto|]. intros _.
        eexists; split; [reflexivity | right; left; reflexivity].
      * split; [|lia]. intros (e & He & Hp). exfalso.
        destruct (get_batch_shape_cases cov loc0) as [(bs & Hb) | (e' & Hb & Hs)];
          rewrite Hb in He; simpl in He; [discriminate|].
        inversion He; subst. eapply shape_error_not_parameter_error; eauto.
    + destruct (Nat.ltb_spec (dim st) 2) as [Hd|Hd].
      * split; [auto|]. intros _.
        eexists; split; [reflexivity | right; right; reflexivity].
      * split; [|lia]. intros (e & He & Hp). exfalso.
        destruct (get_batch_shape_cases st loc0) as [(bs & Hb) | (e' & Hb & Hs)];
          rewrite Hb in He; simpl in He; [discriminate|].
        inversion He; subst. eapply shape_error_not_parameter_error; eauto.
    + split; [auto|]. intros _. eexists; split; [reflexivity | left; reflexivity].
  - intros m Hm Hd.
    assert (Hlt : (dim m <? 2) = false) by (apply Nat.ltb_ge; lia).
    destruct covariance_matrix0 as [cov|], scale_tril0 as [st|];
      simpl in Hm; try discriminate; injection Hm as ->; simpl; rewrite Hlt.
    + split.
      * intros e He. rewrite He. split; [reflexivity|].
        destruct (get_batch_shape_cases m loc0) as [(bs & Hb) | (e' & Hb & Hs)];
          rewrite Hb in He; [discriminate | now inversion He; subst].
      * intros bs Hb. rewrite Hb. simpl. eexists. split; [reflexivity|].
        simpl. auto.
    + split.
      * intros e He. rewrite He. split; [reflexivity|].
        destruct (get_batch_shape_cases m loc0) as [(bs & Hb) | (e' & Hb & Hs)];
          rewrite Hb in He; [discriminate | now inversion He; subst].
      * intros bs Hb. rewrite Hb. simpl. eexists. split; [reflexivity|].
        simpl. auto.
Qed.



(* ================================================================== *)
(** ** Tables, sums and offsets *)

Lemma length_tab (n : nat) (f : nat -> R) : length (tab n f) = n.
Proof. unfold tab. now rewrite length_map, length_seq. Qed.

Lemma nth_tab (n : nat) (f : nat -> R) (k : nat) :
  k < n -> nth k (tab n f) 0%R = f k.
Proof.
  intros Hk. unfold tab.
  rewrite nth_indep with (d' := f 0) by (now rewrite length_map, length_seq).
  now rewrite map_nth, seq_nth.
Qed.

Lemma tab_ext (n : nat) (f g : nat -> R) :
  (forall k, k < n -> f k = g k) -> tab n f = tab n g.
Proof.
  intros H. unfold tab. apply map_ext_in. intros k Hk.
  apply in_seq in Hk. apply H. lia.
Qed.

Lemma map_tab (h : R -> R) (n : nat) (f : nat -> R) :
  map h (tab n f) = tab n (fun k => h (f k)).
Proof. unfold tab. now rewrite map_map. Qed.

Lemma sumR_app (l1 l2 : list R) : sumR (l1 ++ l2) = (sumR l1 + sumR l2)%R.
Proof. induction l1 as [|x l1 IH]; simpl; [lra | rewrite IH; lra]. Qed.

Lemma sumn_0 (f : nat -> R) : sumn 0 f = 0%R.
Proof. reflexivity. Qed.

Lemma sumn_S (n : nat) (f : nat -> R) : sumn (S n) f = (sumn n f + f n)%R.
Proof.
  unfold sumn, tab. rewrite seq_S, map_app, sumR_app. simpl. lra.
Qed.

Lemma sumn_ext (n : nat) (f g : nat -> R) :
  (forall i, i < n -> f i = g i) -> sumn n f = sumn n g.
Proof. intros H. unfold sumn. now rewrite (tab_ext f g H). Qed.

Lemma sumn_zero (n : nat) : sumn n (fun _ => 0%R) = 0%R.
Proof. induction n as [|n IH]; [reflexivity | rewrite sumn_S, IH; lra]. Qed.

Lemma sumn_plus (n : nat) (f g : nat -> R) :
  sumn n (fun i => (f i + g i)%R) = (sumn n f + sumn n g)%R.
Proof.
  induction n as [|n IH]; [rewrite !sumn_0; lra | rewrite !sumn_S, IH; lra].
Qed.

Lemma sumn_mult_l (n : nat) (c : R) (f : nat -> R) :
  sumn n (fun i => (c * f i)%R) = (c * sumn n f)%R.
Proof.
  induction n as [|n IH]; [rewrite !sumn_0; lra | rewrite !sumn_S, IH; lra].
Qed.

Lemma sumn_mult_r (n : nat) (c : R) (f : nat -> R) :
  sumn n (fun i => (f i * c)%R) = (sumn n f * c)%R.
Proof.
  induction n as [|n IH]; [rewrite !sumn_0; lra | rewrite !sumn_S, IH; lra].
Qed.

Lemma sumn_swap (n m : nat) (f : nat -> nat -> R) :
  sumn n (fun i => sumn m (fun j => f i j)) = sumn m (fun j => sumn n (fun i => f i j)).
Proof.
  induction n as [|n IH].
  - rewrite sumn_0. symmetry. apply sumn_zero.
  - rewrite sumn_S, IH, <- sumn_plus. apply sumn_ext. intros j _.
    now rewrite sumn_S.
Qed.

Lemma sumn_delta_r (n j : nat) (f : nat -> R) :
  j < n -> sumn n (fun p => (f p * delta p j)%R) = f j.
Proof.
  induction n as [|n IH]; intros Hj; [lia|].
  rewrite sumn_S. unfold delta at 2.
  destruct (Nat.eqb_spec n j) as [->|Hne].
  - rewrite (sumn_ext _ (fun _ => 0%R)), sumn_zero; [lra|].
    intros i Hi. unfold delta. destruct (Nat.eqb_spec i j); [lia | lra].
  - rewrite IH by lia. lra.
Qed.

Lemma sumn_delta_l (n i : nat) (f : nat -> R) :
  i < n -> sumn n (fun p => (delta i p * f p)%R) = f i.
Proof.
  intros Hi. rewrite <- (sumn_delta_r f Hi). apply sumn_ext. intros p _.
  unfold delta. rewrite (Nat.eqb_sym i p). lra.
Qed.

(** Row-major offsets of two and three indices. *)
Lemma offset2 (k j p : nat) : j < p -> (k * p + j) / p = k /\ (k * p + j) mod p = j.
Proof.
  intros Hj. split.
  - symmetry. apply Nat.div_unique with (r := j); [lia|]. lia.
  - symmetry. apply Nat.mod_unique with (q := k); [lia|]. lia.
Qed.

Lemma offset3 (k i j n p : nat) :
  i < n -> j < p ->
  ((k * n + i) * p + j) / (n * p) = k /\
  ((k * n + i) * p + j) / p mod n = i /\
  ((k * n + i) * p + j) mod p = j.
Proof.
  intros Hi Hj.
  destruct (offset2 (k * n + i) Hj) as [Hd Hm].
  destruct (offset2 k Hi) as [Hd' Hm'].
  repeat split.
  - rewrite (Nat.mul_comm n p), <- Nat.Div0.div_div, Hd. exact Hd'.
  - now rewrite Hd.
  - exact Hm.
Qed.

Lemma offset2_lt (b n k i : nat) : k < b -> i < n -> k * n + i < b * n.
Proof. intros Hk Hi. nia. Qed.

Lemma offset3_lt (b n p k i j : nat) :
  k < b -> i < n -> j < p -> (k * n + i) * p + j < b * n * p.
Proof.
  intros Hk Hi Hj.
  pose proof (offset2_lt Hk Hi) as H1.
  apply (offset2_lt (b := b * n) H1 Hj).
Qed.

Lemma numel_app (a b : Size) : numel (a ++ b) = numel a * numel b.
Proof.
  induction a as [|x a IH]; simpl; [lia | rewrite IH; lia].
Qed.

Lemma numel_snoc (a : Size) (x : nat) : numel (a ++ [x]) = numel a * x.
Proof. rewrite numel_app. simpl. lia. Qed.

Lemma numel_snoc2 (a : Size) (x y : nat) : numel (a ++ [x; y]) = numel a * x * y.
Proof. rewrite numel_app. simpl. lia. Qed.

Lemma numel_rev (s : Size) : numel (rev s) = numel s.
Proof.
  induction s as [|x s IH]; [reflexivity|].
  simpl. rewrite numel_snoc, IH. lia.
Qed.

(* ================================================================== *)
(** ** Broadcast offsets *)

Lemma bidx_snoc (src dst : Size) (c d k j : nat) :
  j < d ->
  bidx (src ++ [c]) (dst ++ [d]) (k * d + j) =
  (if c =? 1 then 0 else j) + c * bidx src dst k.
Proof.
  intros Hj. unfold bidx. rewrite !rev_app_distr. cbn [rev app bidx_rev].
  destruct (offset2 k Hj) as [-> ->]. reflexivity.
Qed.

Lemma bidx_snoc_same (src dst : Size) (d k j : nat) :
  j < d -> bidx (src ++ [d]) (dst ++ [d]) (k * d + j) = bidx src dst k * d + j.
Proof.
  intros Hj. rewrite bidx_snoc by exact Hj.
  destruct (Nat.eqb_spec d 1); lia.
Qed.

Lemma bidx_snoc_one (src dst : Size) (d k j : nat) :
  j < d -> bidx (src ++ [1]) (dst ++ [d]) (k * d + j) = bidx src dst k.
Proof. intros Hj. rewrite bidx_snoc by exact Hj. simpl. lia. Qed.

Lemma bidx_snoc2_same (src dst : Size) (n m k i j : nat) :
  i < n -> j < m ->
  bidx (src ++ [n; m]) (dst ++ [n; m]) ((k * n + i) * m + j) =
  (bidx src dst k * n + i) * m + j.
Proof.
  intros Hi Hj.
  change (src ++ [n; m]) with (src ++ [n] ++ [m]).
  change (dst ++ [n; m]) with (dst ++ [n] ++ [m]).
  rewrite !app_assoc.
  now rewrite bidx_snoc_same, bidx_snoc_same.
Qed.

Lemma bidx_rev_refl (r : list nat) (k : nat) : k < numel r -> bidx_rev r r k = k.
Proof.
  revert k. induction r as [|d r IH]; intros k Hk; simpl in *.
  - lia.
  - assert (Hd : d <> 0) by (intros ->; simpl in Hk; lia).
    assert (Hq : k / d < numel r).
    { apply Nat.Div0.div_lt_upper_bound. lia. }
    rewrite IH by exact Hq.
    pose proof (Nat.div_mod_eq k d) as He.
    destruct (Nat.eqb_spec d 1) as [->|Hne]; [|lia].
    rewrite Nat.mod_1_r in He. lia.
Qed.

Lemma bidx_refl (s : Size) (k : nat) : k < numel s -> bidx s s k = k.
Proof. intros Hk. apply bidx_rev_refl. now rewrite numel_rev. Qed.

Lemma bidx_rev_bound (a b r : list nat) (k : nat) :
  infer_rev a b = Some r -> k < numel r -> bidx_rev a r k < numel a.
Proof.
  revert b r k. induction a as [|c a IH]; intros b r k Hr Hk.
  - simpl. lia.
  - destruct b as [|y b].
    + simpl in Hr. injection Hr as <-. now rewrite bidx_rev_refl.
    + simpl in Hr.
      destruct (bdim c y) as [d|] eqn:Hd; [|discriminate].
      destruct (infer_rev a b) as [r'|] eqn:Hr'; [|discriminate].
      injection Hr as <-. cbn [bidx_rev]. simpl in Hk |- *.
      assert (Hd0 : d <> 0) by (intros ->; simpl in Hk; lia).
      assert (Hq : k / d < numel r').
      { apply Nat.Div0.div_lt_upper_bound. lia. }
      pose proof (IH _ _ _ Hr' Hq) as Hb.
      destruct (Nat.eqb_spec c 1) as [->|Hc]; [lia|].
      assert (d = c).
      { unfold bdim in Hd.
        destruct (Nat.eqb_spec c y), (Nat.eqb_spec c 1), (Nat.eqb_spec y 1);
          congruence. }
      subst d. pose proof (Nat.mod_upper_bound k c Hd0). nia.
Qed.

Lemma bidx_bound_l (a b r : Size) (k : nat) :
  infer_size a b = Some r -> k < numel r -> bidx a r k < numel a.
Proof.
  unfold infer_size, bidx. intros H Hk.
  destruct (infer_rev (rev a) (rev b)) as [r'|] eqn:Hr; [|discriminate].
  injection H as <-. rewrite rev_involutive.
  rewrite <- (numel_rev a). eapply bidx_rev_bound; [eassumption|].
  now rewrite numel_rev in Hk.
Qed.

Lemma bidx_bound_r (a b r : Size) (k : nat) :
  infer_size a b = Some r -> k < numel r -> bidx b r k < numel b.
Proof. rewrite infer_size_comm. apply bidx_bound_l. Qed.

Lemma infer_rev_expandable (a b r : list nat) :
  infer_rev a b = Some r -> expandable_rev a r = true.
Proof.
  revert b r. induction a as [|c a IH]; intros b r Hr; [reflexivity|].
  destruct b as [|y b].
  - simpl in Hr. injection Hr as <-. clear IH.
    induction (c :: a) as [|x l IHl]; [reflexivity|].
    simpl. now rewrite Nat.eqb_refl, IHl.
  - simpl in Hr.
    destruct (bdim c y) as [d|] eqn:Hd; [|discriminate].
    destruct (infer_rev a b) as [r'|] eqn:Hr'; [|discriminate].
    injection Hr as <-. simpl. rewrite (IH _ _ Hr'), andb_true_r.
    unfold bdim in Hd.
    destruct (Nat.eqb_spec c y), (Nat.eqb_spec c 1), (Nat.eqb_spec y 1),
      (Nat.eqb_spec c d); try reflexivity; congruence.
Qed.

Lemma infer_size_expandable_l (a b r : Size) :
  infer_size a b = Some r -> expandable_rev (rev a) (rev r) = true.
Proof.
  unfold infer_size. intros H.
  destruct (infer_rev (rev a) (rev b)) as [r'|] eqn:Hr; [|discriminate].
  injection H as <-. rewrite rev_involutive. eapply infer_rev_expandable; eassumption.
Qed.

Lemma infer_size_expandable_r (a b r : Size) :
  infer_size a b = Some r -> expandable_rev (rev b) (rev r) = true.
Proof. rewrite infer_size_comm. apply infer_size_expandable_l. Qed.

(** Broadcasting a result once more against one of its operands changes
    nothing. *)
Lemma infer_rev_absorb (a b r : list nat) :
  infer_rev a b = Some r -> infer_rev r b = Some r.
Proof.
  revert b r. induction a as [|c a IH]; intros b r Hr.
  - simpl in Hr. injection Hr as <-.
    induction b as [|y b IHb]; [reflexivity|].
    simpl. now rewrite bdim_refl, IHb.
  - destruct b as [|y b].
    + simpl in Hr. injection Hr as <-. reflexivity.
    + simpl in Hr.
      destruct (bdim c y) as [d|] eqn:Hd; [|discriminate].
      destruct (infer_rev a b) as [r'|] eqn:Hr'; [|discriminate].
      injection Hr as <-. simpl. rewrite (IH _ _ Hr').
      replace (bdim d y) with (Some d); [reflexivity|].
      unfold bdim in *.
      destruct (Nat.eqb_spec c y), (Nat.eqb_spec c 1), (Nat.eqb_spec y 1),
        (Nat.eqb_spec d y), (Nat.eqb_spec d 1); congruence.
Qed.

Lemma infer_size_absorb_r (a b r : Size) :
  infer_size a b = Some r -> infer_size r b = Some r.
Proof.
  unfold infer_size. intros H.
  destruct (infer_rev (rev a) (rev b)) as [r'|] eqn:Hr; [|discriminate].
  injection H as <-. rewrite rev_involutive.
  now rewrite (infer_rev_absorb _ _ Hr).
Qed.

Lemma infer_size_absorb_l (a b r : Size) :
  infer_size a b = Some r -> infer_size r a = Some r.
Proof. rewrite infer_size_comm. apply infer_size_absorb_r. Qed.

Lemma infer_rev_length (a b r : list nat) :
  infer_rev a b = Some r -> length r = Nat.max (length a) (length b).
Proof.
  revert b r. induction a as [|c a IH]; intros b r Hr.
  - simpl in Hr. now injection Hr as <-.
  - destruct b as [|y b].
    + simpl in Hr. injection Hr as <-. simpl. lia.
    + simpl in Hr.
      destruct (bdim c y) as [d|]; [|discriminate].
      destruct (infer_rev a b) as [r'|] eqn:Hr'; [|discriminate].
      injection Hr as <-. simpl. now rewrite (IH _ _ Hr').
Qed.

Lemma infer_size_length (a b r : Size) :
  infer_size a b = Some r -> length r = Nat.max (length a) (length b).
Proof.
  unfold infer_size. intros H.
  destruct (infer_rev (rev a) (rev b)) as [r'|] eqn:Hr; [|discriminate].
  injection H as <-. rewrite length_rev, (infer_rev_length _ _ Hr), !length_rev.
  reflexivity.
Qed.

(* ================================================================== *)
(** ** The array operations on the shapes the module uses *)

Lemma get_tab (s : Size) (n : nat) (f : nat -> R) (k : nat) :
  k < n -> get (mkT s (tab n f)) k = f k.
Proof. intros Hk. unfold get. simpl. now apply nth_tab. Qed.

Lemma wrap_dim_m1 (r : nat) : 0 < r -> wrap_dim (-1) r = Some (r - 1).
Proof.
  intros Hr. unfold wrap_dim.
  destruct (Z.leb_spec 0 (-1)); [lia|]. cbn [andb].
  destruct (Z.ltb_spec (-1) 0); [|lia].
  destruct (Z.leb_spec (- Z.of_nat r) (-1)); [|lia].
  cbn [andb]. f_equal. lia.
Qed.

Lemma wrap_dim_m2 (r : nat) : 1 < r -> wrap_dim (-2) r = Some (r - 2).
Proof.
  intros Hr. unfold wrap_dim.
  destruct (Z.leb_spec 0 (-2)); [lia|]. cbn [andb].
  destruct (Z.ltb_spec (-2) 0); [|lia].
  destruct (Z.leb_spec (- Z.of_nat r) (-2)); [|lia].
  cbn [andb]. f_equal. lia.
Qed.

Lemma wrap_dim_0 (r : nat) : 0 < r -> wrap_dim 0 r = Some 0.
Proof.
  intros Hr. unfold wrap_dim.
  destruct (Z.leb_spec 0 0); [|lia].
  destruct (Z.ltb_spec 0 (Z.of_nat r)); [|lia]. reflexivity.
Qed.

Lemma firstn_len_app (A : Type) (s l : list A) : firstn (length s) (s ++ l) = s.
Proof.
  rewrite firstn_app, Nat.sub_diag, firstn_all. simpl. apply app_nil_r.
Qed.

Lemma skipn_len_app (A : Type) (s l : list A) : skipn (length s) (s ++ l) = l.
Proof. rewrite skipn_app, Nat.sub_diag, skipn_all. reflexivity. Qed.

Lemma skipn_S_len_app (A : Type) (s l : list A) (x : A) :
  skipn (S (length s)) (s ++ x :: l) = l.
Proof.
  change (s ++ x :: l) with (s ++ [x] ++ l). rewrite app_assoc.
  replace (S (length s)) with (length (s ++ [x])) by (rewrite length_app; simpl; lia).
  apply skipn_len_app.
Qed.

Lemma nth_len_app (A : Type) (s l : list A) (x d : A) : nth (length s) (s ++ x :: l) d = x.
Proof. rewrite app_nth2, Nat.sub_diag by lia. reflexivity. Qed.

Lemma unsqueeze_m1 (a : Tensor) : unsqueeze (-1) a = ok (mkT (shape a ++ [1]) (data a)).
Proof.
  unfold unsqueeze, dim. rewrite wrap_dim_m1 by lia.
  replace (length (shape a) + 1 - 1) with (length (shape a)) by lia.
  now rewrite firstn_all, skipn_all.
Qed.

Lemma unsqueeze_0 (a : Tensor) : unsqueeze 0 a = ok (mkT (1 :: shape a) (data a)).
Proof. unfold unsqueeze. rewrite wrap_dim_0 by lia. reflexivity. Qed.

Lemma size_m1 (a : Tensor) (s : Size) (n : nat) : shape a = s ++ [n] -> size a (-1) = ok n.
Proof.
  intros Hs. unfold size, dim. rewrite Hs, length_app. simpl.
  rewrite wrap_dim_m1 by lia.
  replace (length s + 1 - 1) with (length s + 0) by lia.
  now rewrite nth_error_app2, Nat.add_0_r, Nat.sub_diag by lia.
Qed.

Lemma squeeze_m1_one (a : Tensor) (s : Size) :
  shape a = s ++ [1] -> squeeze (-1) a = ok (mkT s (data a)).
Proof.
  intros Hs. unfold squeeze, dim. rewrite Hs, length_app. cbn [length].
  rewrite wrap_dim_m1 by lia.
  replace (length s + 1 - 1) with (length s) by lia.
  rewrite nth_len_app, Nat.eqb_refl.
  now rewrite firstn_len_app, skipn_S_len_app, app_nil_r.
Qed.

(** ** [view] *)

Lemma zs_no_negative (s : Size) : existsb (fun z => (z <? -1)%Z) (zs s) = false.
Proof.
  induction s as [|x s IH]; [reflexivity|]. simpl. rewrite IH, orb_false_r.
  apply Z.ltb_ge. lia.
Qed.

Lemma zs_filter (s : Size) : filter (fun z => (0 <=? z)%Z) (zs s) = zs s.
Proof.
  induction s as [|x s IH]; [reflexivity|]. simpl.
  destruct (Z.leb_spec 0 (Z.of_nat x)); [now rewrite IH | lia].
Qed.

Lemma zs_to_nat (s : Size) : map Z.to_nat (zs s) = s.
Proof.
  induction s as [|x s IH]; [reflexivity|]. simpl. now rewrite Nat2Z.id, IH.
Qed.

Lemma zs_count (s : Size) : count_occ Z.eq_dec (zs s) (-1)%Z = 0.
Proof.
  induction s as [|x s IH]; [reflexivity|]. simpl.
  destruct (Z.eq_dec (Z.of_nat x) (-1)); [lia | exact IH].
Qed.

Lemma zs_fill (s : Size) (v : nat) :
  map (fun z => if (z =? -1)%Z then v else Z.to_nat z) (zs s) = s.
Proof.
  induction s as [|x s IH]; [reflexivity|]. simpl.
  destruct (Z.eqb_spec (Z.of_nat x) (-1)); [lia|]. now rewrite Nat2Z.id, IH.
Qed.

Lemma view_same (s : Size) (a : Tensor) :
  numel s = numel (shape a) -> view (zs s) a = ok (mkT s (data a)).
Proof.
  intros Hn. unfold view, infer_view.
  rewrite zs_no_negative, zs_filter, zs_to_nat, zs_count, Hn, Nat.eqb_refl.
  reflexivity.
Qed.

(** [view((-1,) + tail)]: the leading dimensions flattened into one. *)
Lemma view_flat (a : Tensor) (bs tail : Size) :
  shape a = bs ++ tail -> 0 < numel tail ->
  view ((-1)%Z :: zs tail) a = ok (mkT (numel bs :: tail) (data a)).
Proof.
  intros Hs Hp. unfold view, infer_view.
  cbn [existsb filter count_occ map].
  destruct (Z.eq_dec (-1) (-1)) as [_|Hne]; [|contradiction].
  destruct (Z.ltb_spec (-1) (-1)); [lia|]. cbn [orb].
  destruct (Z.leb_spec 0 (-1)); [lia|].
  rewrite zs_no_negative, zs_filter, zs_to_nat, zs_count, zs_fill.
  destruct (Nat.eqb_spec (numel tail) 0); [lia|].
  rewrite Hs, numel_app, Nat.Div0.mod_mul, Nat.eqb_refl.
  cbn [Z.eqb]. rewrite Nat.div_mul by lia. reflexivity.
Qed.

(** [view(pre + (-1,))]: the trailing dimensions flattened into one. *)
Lemma view_tail (a : Tensor) (pre tail : Size) :
  shape a = pre ++ tail -> 0 < numel pre ->
  view (zs pre ++ [(-1)%Z]) a = ok (mkT (pre ++ [numel tail]) (data a)).
Proof.
  intros Hs Hp. unfold view, infer_view.
  rewrite existsb_app, zs_no_negative, filter_app, zs_filter, count_occ_app, zs_count.
  cbn [existsb filter count_occ orb Nat.add].
  destruct (Z.eq_dec (-1) (-1)) as [_|Hne]; [|contradiction].
  destruct (Z.ltb_spec (-1) (-1)); [lia|]. cbn [orb].
  destruct (Z.leb_spec 0 (-1)); [lia|].
  rewrite app_nil_r, zs_to_nat.
  destruct (Nat.eqb_spec (numel pre) 0); [lia|].
  rewrite Hs, numel_app, (Nat.mul_comm (numel pre)), Nat.Div0.mod_mul, Nat.eqb_refl.
  rewrite map_app, zs_fill. cbn [map Z.eqb].
  rewrite Nat.div_mul by lia. reflexivity.
Qed.

(** ** Reductions, elementwise operations, slices *)

Lemma sum_m1 (a : Tensor) (s : Size) (m : nat) :
  shape a = s ++ [m] ->
  sum (-1) a = ok (mkT s (tab (numel s) (fun k => sumn m (fun i => get a (k * m + i))))).
Proof.
  intros Hs. unfold sum, dim. rewrite Hs, length_app. cbn [length].
  rewrite wrap_dim_m1 by lia.
  replace (length s + 1 - 1) with (length s) by lia.
  rewrite firstn_len_app, skipn_S_len_app, nth_len_app, app_nil_r.
  cbn [numel fold_right]. rewrite Nat.mul_1_r. do 2 f_equal.
  apply tab_ext. intros k _. apply sumn_ext. intros i _.
  now rewrite Nat.div_1_r, Nat.mod_1_r, Nat.mul_1_r, Nat.add_0_r.
Qed.

Lemma sum_m2 (a : Tensor) (s : Size) (n m : nat) :
  shape a = s ++ [n; m] ->
  sum (-2) a =
  ok (mkT (s ++ [m])
          (tab (numel s * m) (fun q =>
             sumn n (fun i => get a ((q / m * n + i) * m + q mod m))))).
Proof.
  intros Hs. unfold sum, dim. rewrite Hs, length_app. cbn [length].
  rewrite wrap_dim_m2 by lia.
  replace (length s + 2 - 2) with (length s) by lia.
  rewrite firstn_len_app, skipn_S_len_app, nth_len_app.
  cbn [numel fold_right]. now rewrite Nat.mul_1_r.
Qed.

Lemma bop_ok (f : R -> R -> R) (a b : Tensor) (s : Size) :
  infer_size (shape a) (shape b) = Some s ->
  bop f a b =
  ok (mkT s (tab (numel s) (fun k =>
        f (get a (bidx (shape a) s k)) (get b (bidx (shape b) s k))))).
Proof. intros H. unfold bop. now rewrite H. Qed.

Lemma get_tmap (f : R -> R) (a : Tensor) (k : nat) :
  k < length (data a) -> get (tmap f a) k = f (get a k).
Proof.
  intros Hk. unfold get, tmap. cbn [data].
  rewrite nth_indep with (d' := f 0%R) by (now rewrite length_map).
  apply map_nth.
Qed.

Lemma tmap_tab (f : R -> R) (s : Size) (n : nat) (g : nat -> R) :
  tmap f (mkT s (tab n g)) = mkT s (tab n (fun k => f (g k))).
Proof. unfold tmap. cbn [shape data]. now rewrite map_tab. Qed.

Lemma last_snoc (s : Size) (x d : nat) : last (s ++ [x]) d = x.
Proof. apply last_last. Qed.

Lemma slice_last_step_ok (step : nat) (a : Tensor) (s : Size) (m : nat) :
  shape a = s ++ [m] ->
  slice_last_step step a =
  ok (mkT (s ++ [(m + step - 1) / step])
          (tab (numel s * ((m + step - 1) / step)) (fun q =>
             get a (q / ((m + step - 1) / step) * m
                    + q mod ((m + step - 1) / step) * step)))).
Proof.
  intros Hs. unfold slice_last_step. rewrite Hs.
  destruct (s ++ [m]) eqn:E; [now destruct s|]. rewrite <- E.
  now rewrite drop_last_snoc, last_snoc.
Qed.

Lemma diag_count (n : nat) : (n * n + (n + 1) - 1) / (n + 1) = n.
Proof.
  replace (n * n + (n + 1) - 1) with (n * (n + 1)) by nia.
  apply Nat.div_mul. lia.
Qed.

(** ** Transposes and batched products *)

Lemma drop_last2_snoc2 (s : Size) (x y : nat) : drop_last2 (s ++ [x; y]) = s.
Proof.
  unfold drop_last2. fold (drop_last (s ++ [x; y])).
  rewrite drop_last_snoc2. apply removelast_last.
Qed.

Lemma take_last2_snoc2 (s : Size) (x y : nat) : take_last2 (s ++ [x; y]) = [x; y].
Proof.
  unfold take_last2. rewrite length_app. cbn [length].
  replace (length s + 2 - 2) with (length s) by lia.
  apply skipn_len_app.
Qed.

Lemma transpose_last2_ok (a : Tensor) (s : Size) (n m : nat) :
  shape a = s ++ [n; m] ->
  transpose_last2 a =
  ok (mkT (s ++ [m; n])
          (tab (numel s * m * n) (fun q =>
             get a ((q / (m * n) * n + q mod n) * m + q / n mod m)))).
Proof.
  intros Hs. unfold transpose_last2, dim. rewrite Hs, length_app. cbn [length].
  destruct (Nat.ltb_spec (length s + 2) 2); [lia|].
  rewrite drop_last2_snoc2.
  replace (length s + 2 - 2) with (length s) by lia.
  replace (length s + 2 - 1) with (length (s ++ [n])) by (rewrite length_app; simpl; lia).
  rewrite nth_len_app.
  change (s ++ [n; m]) with (s ++ [n] ++ [m]). rewrite app_assoc, nth_len_app.
  reflexivity.
Qed.

Lemma get_transpose (a : Tensor) (s : Size) (n m k i j : nat) :
  k < numel s -> i < m -> j < n ->
  get (mkT (s ++ [m; n])
          (tab (numel s * m * n) (fun q =>
             get a ((q / (m * n) * n + q mod n) * m + q / n mod m))))
      ((k * m + i) * n + j)
  = get a ((k * n + j) * m + i).
Proof.
  intros Hk Hi Hj. rewrite get_tab by (now apply offset3_lt).
  destruct (offset3 k Hi Hj) as (-> & -> & ->). reflexivity.
Qed.

Lemma bmm_ok (a b : Tensor) (ba n m p : nat) :
  shape a = [ba; n; m] -> shape b = [ba; m; p] ->
  bmm a b =
  ok (mkT [ba; n; p]
        (tab (ba * n * p) (fun q =>
           sumn m (fun l =>
             (get a ((q / (n * p) * n + q / p mod n) * m + l) *
              get b ((q / (n * p) * m + l) * p + q mod p))%R)))).
Proof.
  intros Ha Hb. unfold bmm. now rewrite Ha, Hb, !Nat.eqb_refl.
Qed.

(** ** Iteration, list comprehensions and [stack] *)

Lemma unbind_ok (a : Tensor) (b n : nat) :
  shape a = [b; n; n] -> unbind a = ok (map (fun k => item n k a) (seq 0 b)).
Proof. intros Hs. unfold unbind. now rewrite Hs. Qed.

Lemma mapM_ok (A B : Type) (f : A -> result B) (Q : A -> B -> Prop) (l : list A) :
  Forall (fun a => exists b, f a = ok b /\ Q a b) l ->
  exists l', mapM f l = ok l' /\ Forall2 Q l l'.
Proof.
  induction 1 as [|a l (b & Hb & HQ) _ (l' & Hl' & HF)].
  - exists []. split; [reflexivity | constructor].
  - exists (b :: l'). simpl. rewrite Hb. simpl. rewrite Hl'. simpl.
    split; [reflexivity | now constructor].
Qed.

Lemma size_eqb_refl (s : Size) : size_eqb s s = true.
Proof. induction s as [|x s IH]; [reflexivity|]. simpl. now rewrite Nat.eqb_refl. Qed.

Lemma stack_ok (ts : list Tensor) (s : Size) :
  ts <> [] -> Forall (fun x => shape x = s) ts ->
  stack ts = ok (mkT (length ts :: s) (concat (map data ts))).
Proof.
  intros Hne Hall. unfold stack. destruct ts as [|t0 ts']; [contradiction|].
  assert (H0 : shape t0 = s) by (now inversion Hall).
  replace (forallb (fun x => size_eqb (shape x) (shape t0)) (t0 :: ts')) with true.
  - now rewrite H0.
  - symmetry. apply forallb_forall. intros x Hx.
    rewrite Forall_forall in Hall. rewrite (Hall x Hx), H0. apply size_eqb_refl.
Qed.

(** An entry of the concatenation of [m]-entry blocks. *)
Lemma nth_concat_block (ls : list (list R)) (m k q : nat) :
  Forall (fun l => length l = m) ls -> q < m ->
  nth (k * m + q) (concat ls) 0%R = nth q (nth k ls []) 0%R.
Proof.
  intros Hall Hq. revert k. induction Hall as [|l ls Hl _ IH]; intros k.
  - replace (nth k [] []) with (@nil R) by (now destruct k).
    now destruct (k * m + q), q.
  - destruct k as [|k]; simpl.
    + rewrite app_nth1 by lia. reflexivity.
    + rewrite app_nth2 by lia. rewrite Hl.
      replace (m + k * m + q - m) with (k * m + q) by lia. apply IH.
Qed.

Lemma length_concat_block (ls : list (list R)) (m : nat) :
  Forall (fun l => length l = m) ls -> length (concat ls) = length ls * m.
Proof.
  induction 1 as [|l ls Hl _ IH]; [reflexivity|].
  simpl. rewrite length_app, Hl, IH. lia.
Qed.

(** An entry of an item taken out of a batch. *)
Lemma get_item (n k : nat) (a : Tensor) (q : nat) :
  q < n * n -> get (item n k a) q = get a (k * (n * n) + q).
Proof.
  intros Hq. unfold get, item. cbn [data numel fold_right].
  rewrite Nat.mul_1_r.
  destruct (Nat.lt_ge_cases (k * (n * n) + q) (length (data a))) as [Hin|Hout].
  - rewrite nth_firstn.
    destruct (Nat.ltb_spec q (n * n)); [|lia].
    now rewrite nth_skipn.
  - rewrite (nth_overflow (data a)) by lia.
    apply nth_overflow. rewrite length_firstn, length_skipn. lia.
Qed.

Lemma mat_item (n k : nat) (a : Tensor) (i j : nat) :
  i < n -> j < n -> mat n (item n k a) 0 i j = mat n a k i j.
Proof.
  intros Hi Hj. unfold mat. rewrite get_item by (apply (offset2_lt Hi Hj)).
  f_equal. lia.
Qed.

Lemma wf_item (n k : nat) (a : Tensor) :
  (k + 1) * (n * n) <= length (data a) -> wf (item n k a).
Proof.
  intros H. unfold wf, item. cbn [shape data numel fold_right].
  rewrite length_firstn, length_skipn. nia.
Qed.

(* ================================================================== *)
(** ** Matrix algebra on entries *)

Section MatrixAlgebra.

Variable n : nat.

Lemma mmul_assoc (A B C : nat -> nat -> R) (i j : nat) :
  mmul n (mmul n A B) C i j = mmul n A (mmul n B C) i j.
Proof.
  unfold mmul.
  rewrite (sumn_ext _ (fun p => sumn n (fun q => (A i q * B q p * C p j)%R)))
    by (intros p _; now rewrite <- sumn_mult_r).
  rewrite sumn_swap. apply sumn_ext. intros q _.
  rewrite <- sumn_mult_l. apply sumn_ext. intros p _. lra.
Qed.

Lemma mmul_ext (A A' B B' : nat -> nat -> R) (i j : nat) :
  (forall p, p < n -> A i p = A' i p) ->
  (forall p, p < n -> B p j = B' p j) ->
  mmul n A B i j = mmul n A' B' i j.
Proof.
  intros HA HB. unfold mmul. apply sumn_ext. intros p Hp.
  now rewrite HA, HB.
Qed.

Lemma mmul_ext_l (A A' B : nat -> nat -> R) (i j : nat) :
  (forall p, p < n -> A i p = A' i p) -> mmul n A B i j = mmul n A' B i j.
Proof. intros H. now apply mmul_ext. Qed.

Lemma mmul_ext_r (A B B' : nat -> nat -> R) (i j : nat) :
  (forall p, p < n -> B p j = B' p j) -> mmul n A B i j = mmul n A B' i j.
Proof. intros H. now apply mmul_ext. Qed.

Lemma mmul_delta_r (A : nat -> nat -> R) (i j : nat) :
  j < n -> mmul n A delta i j = A i j.
Proof. intros Hj. unfold mmul. now apply (sumn_delta_r (fun p => A i p)). Qed.

Lemma mmul_delta_l (A : nat -> nat -> R) (i j : nat) :
  i < n -> mmul n delta A i j = A i j.
Proof. intros Hi. unfold mmul. now apply (sumn_delta_l (fun p => A p j)). Qed.

Lemma mmul_T (A B : nat -> nat -> R) (i j : nat) :
  mmul n (mT B) (mT A) i j = mmul n A B j i.
Proof. unfold mmul, mT. apply sumn_ext. intros p _. lra. Qed.

Lemma delta_sym (i j : nat) : delta i j = delta j i.
Proof. unfold delta. now rewrite Nat.eqb_sym. Qed.

Lemma inverse_pair_T (A B : nat -> nat -> R) :
  inverse_pair n A B -> inverse_pair n (mT A) (mT B).
Proof.
  intros [H1 H2]. split; intros i j Hi Hj.
  - rewrite mmul_T, H2 by assumption. apply delta_sym.
  - rewrite mmul_T, H1 by assumption. apply delta_sym.
Qed.

(** A two-sided inverse is unique. *)
Lemma inverse_pair_unique (A B B' : nat -> nat -> R) (i j : nat) :
  inverse_pair n A B -> inverse_pair n A B' -> i < n -> j < n -> B i j = B' i j.
Proof.
  intros [HAB HBA] [HAB' HB'A] Hi Hj.
  rewrite <- (mmul_delta_r B i Hj).
  rewrite (mmul_ext_r B delta (mmul n A B') i j)
    by (intros p Hp; symmetry; now apply HAB').
  rewrite <- mmul_assoc.
  rewrite (mmul_ext_l (mmul n B A) delta B' i j)
    by (intros p Hp; now apply HBA).
  now apply mmul_delta_l.
Qed.

(** With [B] the inverse of [L], the inverse of [L L^T] is [B^T B]. *)
Lemma gram_inverse (L B : nat -> nat -> R) :
  inverse_pair n L B -> inverse_pair n (mmul n L (mT L)) (mmul n (mT B) B).
Proof.
  intros HLB.
  destruct HLB as [HLB HBL].
  destruct (inverse_pair_T (conj HLB HBL)) as [HLtBt HBtLt].
  split; intros i j Hi Hj.
  - rewrite mmul_assoc.
    rewrite (mmul_ext_r L (mmul n (mT L) (mmul n (mT B) B)) B i j);
      [now apply HLB |].
    intros p Hp. rewrite <- mmul_assoc.
    rewrite (mmul_ext_l (mmul n (mT L) (mT B)) delta B p j)
      by (intros q Hq; now apply HLtBt).
    now apply mmul_delta_l.
  - rewrite mmul_assoc.
    rewrite (mmul_ext_r (mT B) (mmul n B (mmul n L (mT L))) (mT L) i j);
      [now apply HBtLt |].
    intros p Hp. rewrite <- mmul_assoc.
    rewrite (mmul_ext_l (mmul n B L) delta (mT L) p j)
      by (intros q Hq; now apply HBL).
    now apply mmul_delta_l.
Qed.

(** The squared length of [B x] is the quadratic form of [B^T B]. *)
Lemma quad_gram (B : nat -> nat -> R) (x : nat -> R) :
  sumn n (fun i => sumn n (fun j => (x i * mmul n (mT B) B i j * x j)%R)) =
  sumn n (fun p => (sumn n (fun i => (x i * B p i)%R) ^ 2)%R).
Proof.
  rewrite (sumn_ext _
    (fun i => sumn n (fun p => sumn n (fun j => (x i * B p i * (B p j * x j))%R)))).
  - rewrite sumn_swap. apply sumn_ext. intros p _.
    rewrite (sumn_ext _
      (fun i => (x i * B p i * sumn n (fun j => (x j * B p j)%R))%R)).
    + rewrite sumn_mult_r. simpl. lra.
    + intros i _. rewrite <- sumn_mult_l. apply sumn_ext. intros j _. lra.
  - intros i _. rewrite sumn_swap. apply sumn_ext. intros j _.
    unfold mmul, mT. rewrite <- sumn_mult_l, <- sumn_mult_r.
    apply sumn_ext. intros p _. lra.
Qed.

End MatrixAlgebra.

(* ================================================================== *)
(** ** Matrices as tensors *)

Unset Implicit Arguments.

Lemma numel_square (n : nat) : numel [n; n] = n * n.
Proof. simpl. lia. Qed.

Lemma entries_of_entries (n : nat) (A : nat -> nat -> R) (i j : nat) :
  i < n -> j < n -> entries n (of_entries n A) i j = A i j.
Proof.
  intros Hi Hj. unfold entries, mat, of_entries. simpl (0 * n + i).
  rewrite get_tab by (now apply offset2_lt).
  now destruct (offset2 i Hj) as [-> ->].
Qed.

Lemma is_matrix_of_entries (n : nat) (A : nat -> nat -> R) : is_matrix n (of_entries n A).
Proof.
  split; [reflexivity|]. unfold wf, of_entries. cbn [shape data].
  now rewrite length_tab, numel_square.
Qed.

Lemma is_matrix_gram (n : nat) (l : Tensor) (k : nat) : is_matrix n (gram n l k).
Proof.
  split; [reflexivity|]. unfold wf, gram. cbn [shape data].
  now rewrite length_tab, numel_square.
Qed.

Lemma entries_gram (n : nat) (l : Tensor) (k i j : nat) :
  i < n -> j < n ->
  entries n (gram n l k) i j = mmul n (mat n l k) (mT (mat n l k)) i j.
Proof.
  intros Hi Hj. unfold entries, mat at 1, gram. simpl (0 * n + i).
  rewrite get_tab by (now apply offset2_lt).
  now destruct (offset2 i Hj) as [-> ->].
Qed.

(** A matrix is determined by its entries. *)
Lemma matrix_ext (n : nat) (a b : Tensor) :
  is_matrix n a -> is_matrix n b ->
  (forall i j, i < n -> j < n -> entries n a i j = entries n b i j) -> a = b.
Proof.
  intros [Hsa Hwa] [Hsb Hwb] H. destruct a as [sa da], b as [sb db].
  unfold wf in *. cbn [shape data] in *. subst sa sb. f_equal.
  rewrite numel_square in Hwa, Hwb.
  apply nth_ext with (d := 0%R) (d' := 0%R); [congruence|].
  intros q Hq. rewrite Hwa in Hq.
  assert (Hn : n <> 0) by (intros ->; simpl in Hq; lia).
  assert (Hi : q / n < n) by (apply Nat.Div0.div_lt_upper_bound; lia).
  assert (Hj : q mod n < n) by (now apply Nat.mod_upper_bound).
  specialize (H _ _ Hi Hj). unfold entries, mat, get in H. cbn [data] in H.
  replace ((0 * n + q / n) * n + q mod n) with q in H; [exact H|].
  pose proof (Nat.div_mod_eq q n). lia.
Qed.

Lemma is_inverse_unique (a b b' : Tensor) : is_inverse a b -> is_inverse a b' -> b = b'.
Proof.
  intros (n & Ha & Hb & Hp) (n' & Ha' & Hb' & Hp').
  assert (n' = n) by (destruct Ha as [Hs _], Ha' as [Hs' _]; congruence).
  subst n'. apply (matrix_ext n b b' Hb Hb'). intros i j Hi Hj.
  now apply (@inverse_pair_unique n _ _ _ i j Hp Hp').
Qed.

Lemma t_matrix (n : nat) (a : Tensor) :
  shape a = [n; n] ->
  exists b, t a = ok b /\ is_matrix n b /\
            forall i j, i < n -> j < n -> entries n b i j = entries n a j i.
Proof.
  intros Hs. unfold t, dim. rewrite Hs. cbn [length Nat.eqb].
  rewrite (@transpose_last2_ok a [] n n Hs).
  eexists. split; [reflexivity|]. split.
  - split; [reflexivity|]. unfold wf. cbn [shape data app].
    rewrite length_tab, numel_square. simpl. lia.
  - intros i j Hi Hj. unfold entries, mat.
    rewrite (@get_transpose a [] n n 0 i j) by (simpl; lia). reflexivity.
Qed.

Lemma is_inverse_t (a b ta tb : Tensor) :
  is_inverse a b -> t a = ok ta -> t b = ok tb -> is_inverse ta tb.
Proof.
  intros (n & Ha & Hb & Hp) Hta Htb.
  destruct (t_matrix n a (proj1 Ha)) as (ta' & Hta' & Hma & Hea).
  destruct (t_matrix n b (proj1 Hb)) as (tb' & Htb' & Hmb & Heb).
  assert (ta' = ta) by (unfold ok in *; congruence).
  assert (tb' = tb) by (unfold ok in *; congruence). subst ta' tb'.
  exists n. split; [exact Hma|]. split; [exact Hmb|].
  destruct (@inverse_pair_T n _ _ Hp) as [H1 H2].
  split; intros i j Hi Hj.
  - rewrite <- (H1 i j Hi Hj). apply mmul_ext; intros p Hp'; unfold mT.
    + now apply Hea.
    + now apply Heb.
  - rewrite <- (H2 i j Hi Hj). apply mmul_ext; intros p Hp'; unfold mT.
    + now apply Heb.
    + now apply Hea.
Qed.

(** With [b] the inverse of item [k] of [l], the inverse of
    [l_k @ l_k^T] is [b^T b]. *)
Lemma gram_is_inverse (n k : nat) (l b : Tensor) :
  is_inverse (item n k l) b ->
  is_inverse (gram n l k) (of_entries n (mmul n (mT (entries n b)) (entries n b))).
Proof.
  intros (n' & Ha & Hb & Hp).
  assert (n' = n) by (destruct Ha as [Hs _]; cbn in Hs; congruence). subst n'.
  exists n. split; [apply is_matrix_gram|]. split; [apply is_matrix_of_entries|].
  assert (Hp' : inverse_pair n (mat n l k) (entries n b)).
  { destruct Hp as [H1 H2]. split; intros i j Hi Hj.
    - rewrite <- (H1 i j Hi Hj). apply mmul_ext_l. intros p Hp.
      symmetry. now apply mat_item.
    - rewrite <- (H2 i j Hi Hj). apply mmul_ext_r. intros p Hp.
      symmetry. now apply mat_item. }
  destruct (@gram_inverse n _ _ Hp') as [H1 H2].
  split; intros i j Hi Hj.
  - rewrite <- (H1 i j Hi Hj). apply mmul_ext; intros p Hp''.
    + now apply entries_gram.
    + now apply entries_of_entries.
  - rewrite <- (H2 i j Hi Hj). apply mmul_ext; intros p Hp''.
    + now apply entries_of_entries.
    + now apply entries_gram.
Qed.

(* ================================================================== *)
(** ** Running the monadic code *)

Lemma bind_ok (A B : Type) (a : A) (k : A -> result B) : bind (ok a) k = k a.
Proof. reflexivity. Qed.

Lemma ok_inj (A : Type) (a b : A) : ok a = ok b -> a = b.
Proof. unfold ok. congruence. Qed.

Lemma Forall2_nth_both (A B : Type) (Q : A -> B -> Prop) (l : list A) (l' : list B)
    (d : A) (d' : B) :
  Forall2 Q l l' ->
  length l = length l' /\ forall k, k < length l -> Q (nth k l d) (nth k l' d').
Proof.
  induction 1 as [|a b l l' Hab _ [IHlen IH]]; simpl.
  - split; [reflexivity|]. intros k Hk. lia.
  - split; [now rewrite IHlen|]. intros [|k] Hk; [exact Hab|]. apply IH. lia.
Qed.

Lemma infer_size_snoc2 (a b r : Size) (n : nat) :
  infer_size a b = Some r ->
  infer_size (a ++ [n; 1]) (b ++ [n; n]) = Some (r ++ [n; n]).
Proof.
  intros H.
  change (a ++ [n; 1]) with (a ++ [n] ++ [1]).
  change (b ++ [n; n]) with (b ++ [n] ++ [n]).
  rewrite !app_assoc, infer_size_snoc, bdim_1_l, infer_size_snoc, bdim_refl, H.
  now rewrite <- app_assoc.
Qed.

Lemma bidx_vec (src dst : Size) (n k i j : nat) :
  i < n -> j < n ->
  bidx (src ++ [n; 1]) (dst ++ [n; n]) ((k * n + i) * n + j) = bidx src dst k * n + i.
Proof.
  intros Hi Hj.
  change (src ++ [n; 1]) with (src ++ [n] ++ [1]).
  change (dst ++ [n; n]) with (dst ++ [n] ++ [n]).
  rewrite !app_assoc.
  now rewrite bidx_snoc_one, bidx_snoc_same.
Qed.

(** The last line of [_batch_mahalanobis], for a batch of vectors against
    a batch of matrices. *)
Lemma mahalanobis_tail (Linv x : Tensor) (Lb xb rb : Size) (n : nat) :
  shape Linv = Lb ++ [n; n] ->
  shape x = xb ++ [n] ->
  infer_size xb Lb = Some rb ->
  (xu <- unsqueeze (-1) x ;;
   p <- mul xu Linv ;;
   s <- sum (-2) p ;;
   sum (-1) (pow2 s)) =
  ok (mkT rb (tab (numel rb) (fun k =>
        sumn n (fun j =>
          (sumn n (fun i =>
             vec n x (bidx xb rb k) i * mat n Linv (bidx Lb rb k) i j) ^ 2)%R)))).
Proof.
  intros HL Hx Hrb.
  rewrite unsqueeze_m1, bind_ok. unfold mul.
  erewrite bop_ok;
    [|cbn [shape]; rewrite Hx, HL, <- app_assoc; apply infer_size_snoc2; eassumption].
  rewrite bind_ok.
  erewrite sum_m2 by reflexivity. rewrite bind_ok.
  unfold pow2. rewrite tmap_tab.
  erewrite sum_m1 by reflexivity.
  do 2 f_equal. apply tab_ext. intros k Hk. apply sumn_ext. intros j Hj.
  rewrite get_tab by (now apply offset2_lt).
  destruct (offset2 k Hj) as [-> ->].
  f_equal. apply sumn_ext. intros i Hi.
  rewrite get_tab by (rewrite numel_snoc2; now apply offset3_lt).
  cbn [shape]. rewrite Hx, HL, <- app_assoc. cbn [app].
  rewrite bidx_vec, bidx_snoc2_same by assumption.
  reflexivity.
Qed.

(** The same line for operands of any shapes that broadcast: it returns,
    and the two reduced dimensions are gone from the result. *)
Lemma mahalanobis_tail_shape (Linv x : Tensor) (rb : Size) (d n : nat) :
  infer_size (shape x ++ [1]) (shape Linv) = Some (rb ++ [d; n]) ->
  exists M,
    (xu <- unsqueeze (-1) x ;;
     p <- mul xu Linv ;;
     s <- sum (-2) p ;;
     sum (-1) (pow2 s)) = ok M /\
    shape M = rb /\ wf M.
Proof.
  intros H.
  rewrite unsqueeze_m1, bind_ok. unfold mul.
  erewrite bop_ok by (cbn [shape]; exact H).
  rewrite bind_ok.
  erewrite sum_m2 by reflexivity. rewrite bind_ok.
  unfold pow2. rewrite tmap_tab.
  erewrite sum_m1 by reflexivity.
  eexists. split; [reflexivity|]. split; [reflexivity|].
  unfold wf. cbn [shape data]. apply length_tab.
Qed.

Lemma mat_stacked (invs : list Tensor) (s : Size) (n k i j : nat) :
  Forall (fun c => is_matrix n c) invs ->
  i < n -> j < n ->
  mat n (mkT s (concat (map data invs))) k i j = entries n (nth k invs (mkT [] [])) i j.
Proof.
  intros Hall Hi Hj. unfold entries, mat, get. cbn [data].
  replace ((k * n + i) * n + j) with (k * (n * n) + (i * n + j)) by lia.
  rewrite nth_concat_block.
  - change (@nil R) with (data (mkT [] [])). rewrite map_nth. f_equal.
  - apply Forall_map. eapply Forall_impl; [|exact Hall].
    intros c [Hs Hw]. unfold wf in Hw. now rewrite Hw, Hs, numel_square.
  - now apply offset2_lt.
Qed.

(** The flattening [a.unsqueeze(0).contiguous().view((-1, n, n))] of a batch
    of n-by-n matrices, followed by iteration: the items, in order. *)
Lemma flat_items (B : Type) (a : Tensor) (bs : Size) (n : nat)
    (K : list Tensor -> result B) :
  shape a = bs ++ [n; n] -> 0 < n ->
  (u <- unsqueeze 0 a ;;
   flat <- view [(-1)%Z; Z.of_nat n; Z.of_nat n] (contiguous u) ;;
   items <- unbind flat ;;
   K items) = K (map (fun k => item n k a) (seq 0 (numel bs))).
Proof.
  intros Hs Hn.
  rewrite unsqueeze_0, bind_ok. unfold contiguous.
  change [(-1)%Z; Z.of_nat n; Z.of_nat n] with ((-1)%Z :: zs [n; n]).
  rewrite (@view_flat (mkT (1 :: shape a) (data a)) (1 :: bs) [n; n])
    by (cbn [shape]; try (now rewrite Hs); rewrite numel_square; nia).
  rewrite bind_ok.
  replace (numel (1 :: bs)) with (numel bs) by (simpl; lia).
  erewrite unbind_ok by reflexivity. reflexivity.
Qed.

(** Stacking one n-by-n matrix per item and viewing the stack in the
    batch's own shape. *)
Lemma stack_view (B : Type) (ms : list Tensor) (bs : Size) (n : nat)
    (K : Tensor -> result B) :
  length ms = numel bs -> 0 < numel bs ->
  Forall (fun c => is_matrix n c) ms ->
  (st <- stack ms ;;
   v <- view (zs (bs ++ [n; n])) st ;;
   K v) = K (mkT (bs ++ [n; n]) (concat (map data ms))).
Proof.
  intros Hlen Hb Hall.
  rewrite (@stack_ok ms [n; n]);
    [ | intros ->; simpl in Hlen; lia
      | eapply Forall_impl; [|exact Hall]; now intros c [Hs _] ].
  rewrite bind_ok.
  rewrite view_same by (cbn [shape]; rewrite numel_snoc2, Hlen; simpl; lia).
  now rewrite bind_ok.
Qed.

(* ================================================================== *)
(** ** Properties that rest on the library routines *)

(** The matrix routines of the library enter by their contracts, stated
    over exact arithmetic.  Every dimension of a tensor that this version
    of the library can build is at least 1; where the code relies on it
    (an empty batch would hand [torch.stack] an empty list, and [view]
    could not infer a [-1]), the statements carry [0 < n] and
    [0 < numel mb]. *)

Section Properties.

(** [torch.inverse] returns the inverse of an invertible matrix and
    raises on any other argument. *)
Variable inverse : Tensor -> result Tensor.
Hypothesis inverse_spec : forall a b, inverse a = ok b <-> is_inverse a b.

Lemma inverse_t_item (n : nat) (a : Tensor) :
  shape a = [n; n] -> invertible a ->
  exists c, (Lt <- t a ;; inverse Lt) = ok c /\ transposed_inverse n a c.
Proof.
  intros Hs [b Hb].
  destruct (t_matrix n a Hs) as (ta & Hta & Hma & Hea).
  assert (Hsb : shape b = [n; n]).
  { destruct Hb as (n' & [Hsa _] & [Hsb _] & _). congruence. }
  destruct (t_matrix n b Hsb) as (tb & Htb & Hmb & Heb).
  exists tb. rewrite Hta, bind_ok. split.
  - apply inverse_spec. now apply (is_inverse_t a b).
  - split; [exact Hmb|]. exists b. split; [exact Hb | exact Heb].
Qed.

Lemma batch_inverse (L : Tensor) (b n : nat) :
  (forall k, k < b -> invertible (item n k L)) ->
  exists invs,
    mapM (fun Li => Lt <- t Li ;; inverse Lt) (map (fun k => item n k L) (seq 0 b))
      = ok invs /\
    length invs = b /\
    forall k, k < b -> transposed_inverse n (item n k L) (nth k invs (mkT [] [])).
Proof.
  intros Hinv.
  destruct (@mapM_ok _ _ (fun Li => Lt <- t Li ;; inverse Lt) (transposed_inverse n)
              (map (fun k => item n k L) (seq 0 b))) as (invs & Hm & HF).
  { apply Forall_forall. intros a Ha. apply in_map_iff in Ha as (k & <- & Hk).
    apply in_seq in Hk. apply inverse_t_item; [reflexivity|]. apply Hinv. lia. }
  exists invs. split; [exact Hm|].
  destruct (Forall2_nth_both _ _ _ _ _ (item n 0 L) (mkT [] []) HF) as [Hlen Hnth].
  rewrite length_map, length_seq in Hlen, Hnth.
  split; [now symmetry|]. intros k Hk.
  specialize (Hnth k Hk).
  rewrite (nth_indep _ _ (item n k L)) in Hnth by (now rewrite length_map, length_seq).
  rewrite (map_nth (fun k => item n k L) (seq 0 b) k k) in Hnth.
  now rewrite seq_nth in Hnth.
Qed.

(** The first two lines of [_batch_mahalanobis]: the batch of the
    transposed inverses, in the shape of [L]. *)
Lemma mahalanobis_head (L : Tensor) (Lb : Size) (n : nat) :
  shape L = Lb ++ [n; n] -> 0 < n -> 0 < numel Lb ->
  (forall k, k < numel Lb -> invertible (item n k L)) ->
  exists Linv,
    shape Linv = Lb ++ [n; n] /\
    (forall x,
       _batch_mahalanobis inverse L x =
       (xu <- unsqueeze (-1) x ;;
        p <- mul xu Linv ;;
        s <- sum (-2) p ;;
        sum (-1) (pow2 s))) /\
    (forall k, k < numel Lb ->
       exists b, is_inverse (item n k L) b /\
                 forall i j, i < n -> j < n -> mat n Linv k i j = entries n b j i).
Proof.
  intros HL Hn HB Hinv.
  destruct (batch_inverse L (numel Lb) n Hinv) as (invs & Hm & Hlen & Hti).
  assert (Hall : Forall (fun c => is_matrix n c) invs).
  { apply Forall_forall. intros c Hc.
    destruct (In_nth _ _ (mkT [] []) Hc) as (k & Hk & <-).
    rewrite Hlen in Hk. now destruct (Hti k Hk). }
  exists (mkT (Lb ++ [n; n]) (concat (map data invs))).
  split; [reflexivity|]. split.
  - intros x. unfold _batch_mahalanobis.
    rewrite HL, take_last2_snoc2.
    change ((-1)%Z :: zs [n; n]) with [(-1)%Z; Z.of_nat n; Z.of_nat n].
    rewrite (flat_items _ L Lb n) by assumption.
    rewrite Hm, bind_ok.
    now rewrite (stack_view _ invs Lb n) by assumption.
  - intros k Hk. destruct (Hti k Hk) as (_ & b & Hb & Hcb).
    exists b. split; [exact Hb|]. intros i j Hi Hj.
    rewrite mat_stacked by assumption. now apply Hcb.
Qed.

(** What [_batch_mahalanobis] computes: with [b] the inverse of the item of
    [L] broadcast to position [k], the squared length of [b x]. *)
Lemma mahalanobis_values (L x : Tensor) (Lb xb rb : Size) (n : nat) :
  shape L = Lb ++ [n; n] ->
  shape x = xb ++ [n] ->
  0 < n -> 0 < numel Lb ->
  infer_size xb Lb = Some rb ->
  (forall k, k < numel Lb -> invertible (item n k L)) ->
  exists out,
    _batch_mahalanobis inverse L x = ok out /\
    shape out = rb /\ wf out /\
    forall k, k < numel rb ->
      exists b,
        is_inverse (item n (bidx Lb rb k) L) b /\
        get out k =
        sumn n (fun j =>
          (sumn n (fun i => vec n x (bidx xb rb k) i * entries n b j i) ^ 2)%R).
Proof.
  intros HL Hx Hn HB Hrb Hinv.
  destruct (mahalanobis_head L Lb n HL Hn HB Hinv) as (Linv & HsL & Hrun & Hent).
  eexists. split; [|split; [|split]].
  - rewrite Hrun. apply (mahalanobis_tail Linv x Lb xb rb n HsL Hx Hrb).
  - reflexivity.
  - unfold wf. cbn [shape data]. apply length_tab.
  - intros k Hk.
    assert (Hk' : bidx Lb rb k < numel Lb) by (now apply (@bidx_bound_r xb Lb rb k)).
    destruct (Hent _ Hk') as (b & Hb & Hcb).
    exists b. split; [exact Hb|].
    rewrite get_tab by exact Hk.
    apply sumn_ext. intros j Hj. f_equal.
    apply sumn_ext. intros i Hi. f_equal. now apply Hcb.
Qed.

(** C2: for a batch [L] of invertible n-by-n matrices and a batch [x] of
    length-n vectors whose batch shapes broadcast, [_batch_mahalanobis]
    returns one number per item of the broadcast batch shape: the
    quadratic form [x^T (L L^T)^{-1} x] of the items of [x] and [L] that
    are broadcast to that position. *)
Theorem batch_mahalanobis_correct (L x : Tensor) (Lb xb rb : Size) (n : nat) :
  shape L = Lb ++ [n; n] ->
  shape x = xb ++ [n] ->
  0 < n -> 0 < numel Lb ->
  infer_size xb Lb = Some rb ->
  (forall k, k < numel Lb -> invertible (item n k L)) ->
  exists out,
    _batch_mahalanobis inverse L x = ok out /\
    shape out = rb /\ wf out /\
    forall k, k < numel rb ->
      (exists s, is_inverse (gram n L (bidx Lb rb k)) s) /\
      (forall s, is_inverse (gram n L (bidx Lb rb k)) s ->
         get out k = quad n s x (bidx xb rb k)).
Proof.
  intros HL Hx Hn HB Hrb Hinv.
  destruct (mahalanobis_values L x Lb xb rb n HL Hx Hn HB Hrb Hinv)
    as (out & Hrun & Hso & Hwo & Hval).
  exists out. split; [exact Hrun|]. split; [exact Hso|]. split; [exact Hwo|].
  intros k Hk. destruct (Hval k Hk) as (b & Hb & Hget).
  pose proof (gram_is_inverse n _ L b Hb) as Hg.
  split; [eexists; exact Hg|].
  intros s Hs.
  rewrite (is_inverse_unique _ _ _ Hs Hg), Hget.
  unfold quad.
  transitivity
    (sumn n (fun i => sumn n (fun j =>
       (vec n x (bidx xb rb k) i * mmul n (mT (entries n b)) (entries n b) i j
        * vec n x (bidx xb rb k) j)%R))).
  - now rewrite quad_gram.
  - apply sumn_ext. intros i Hi. apply sumn_ext. intros j Hj.
    fold (entries n (of_entries n (mmul n (mT (entries n b)) (entries n b))) i j).
    now rewrite entries_of_entries.
Qed.

(** ** The log-determinant term *)

Lemma batch_diag_ok (L : Tensor) (mb : Size) (n : nat) :
  shape L = mb ++ [n; n] -> 0 < numel mb ->
  _batch_diag L =
  ok (mkT (mb ++ [n])
          (tab (numel mb * n) (fun q => get L (q / n * (n * n) + q mod n * (n + 1))))).
Proof.
  intros HL Hb. unfold _batch_diag, contiguous.
  rewrite HL, drop_last2_snoc2.
  rewrite (@view_tail L mb [n; n] HL Hb), bind_ok.
  rewrite (@size_m1 L (mb ++ [n]) n) by (now rewrite HL, <- app_assoc).
  rewrite bind_ok.
  erewrite slice_last_step_ok by reflexivity.
  rewrite numel_square, diag_count. reflexivity.
Qed.

Lemma log_det_ok (L : Tensor) (mb : Size) (n : nat) :
  shape L = mb ++ [n; n] -> 0 < numel mb ->
  log_det_of L =
  ok (mkT mb (tab (numel mb) (fun k => sumn n (fun i => ln (Rabs (mat n L k i i)))))).
Proof.
  intros HL Hb. unfold log_det_of.
  rewrite (batch_diag_ok L mb n HL Hb), bind_ok.
  unfold abs, log. rewrite !tmap_tab.
  erewrite sum_m1 by reflexivity.
  do 2 f_equal. apply tab_ext. intros k Hk. apply sumn_ext. intros i Hi.
  rewrite get_tab by (now apply offset2_lt).
  destruct (offset2 k Hi) as [-> ->]. unfold mat. do 3 f_equal. ring.
Qed.

(** The term reads the matrix only through the absolute values of its
    entries. *)
Lemma log_det_abs (L L' : Tensor) :
  shape L' = shape L ->
  (forall q, Rabs (get L' q) = Rabs (get L q)) ->
  log_det_of L' = log_det_of L.
Proof.
  intros Hs Habs. unfold log_det_of, _batch_diag, contiguous, view, size, dim.
  rewrite Hs.
  destruct (infer_view _ _) as [s|]; [|reflexivity]. rewrite !bind_ok.
  destruct (wrap_dim _ _) as [a|]; [|reflexivity].
  destruct (nth_error _ _) as [n|]; [|reflexivity]. rewrite !bind_ok.
  unfold slice_last_step. cbn [shape].
  destruct s as [|d s]; [reflexivity|]. rewrite !bind_ok.
  f_equal. unfold abs, log. rewrite !tmap_tab. f_equal. apply tab_ext.
  intros q _. f_equal. apply Habs.
Qed.

Lemma get_flip_diagonal (n k i : nat) (L : Tensor) (q : nat) :
  Rabs (get (flip_diagonal n k i L) q) = Rabs (get L q).
Proof.
  unfold flip_diagonal.
  destruct (Nat.lt_ge_cases q (length (data L))) as [Hq|Hq].
  - rewrite get_tab by exact Hq.
    destruct (q =? (k * n + i) * n + i); [apply Rabs_Ropp | reflexivity].
  - unfold get. cbn [data]. rewrite !nth_overflow; [reflexivity | lia |].
    now rewrite length_tab.
Qed.

(** [Tensor.potrf(upper=False)] returns the Cholesky factor of a matrix
    that has one: the positive-definite matrices. *)
Variable potrf : Tensor -> result Tensor.
Hypothesis potrf_spec : forall a l, is_cholesky a l -> potrf a = ok l.

Lemma init_scale_tril (loc0 L : Tensor) (va : option bool) (self : MultivariateNormal) :
  __init__ loc0 None (Some L) va = ok self ->
  exists bs,
    _get_batch_shape L loc0 = ok bs /\
    2 <= dim L /\
    self = mkMVN loc0 None (Some L) bs (take_last (shape loc0))
                 (match va with Some b => b | None => false end).
Proof.
  unfold __init__. destruct (Nat.ltb_spec (dim L) 2); [discriminate|].
  destruct (_get_batch_shape L loc0) as [e|bs]; [discriminate|].
  rewrite bind_ok. intros H'. apply ok_inj in H'. subst self.
  now exists bs.
Qed.

Lemma init_covariance (loc0 C : Tensor) (va : option bool) (self : MultivariateNormal) :
  __init__ loc0 (Some C) None va = ok self ->
  exists bs,
    _get_batch_shape C loc0 = ok bs /\
    2 <= dim C /\
    self = mkMVN loc0 (Some C) None bs (take_last (shape loc0))
                 (match va with Some b => b | None => false end).
Proof.
  unfold __init__. destruct (Nat.ltb_spec (dim C) 2); [discriminate|].
  destruct (_get_batch_shape C loc0) as [e|bs]; [discriminate|].
  rewrite bind_ok. intros H'. apply ok_inj in H'. subst self.
  now exists bs.
Qed.

(** C9: flipping the sign of a diagonal entry of [scale_tril] changes
    neither the log-determinant term of [log_prob] nor what [entropy]
    returns: both read the diagonal through its absolute value. *)
Theorem log_det_sign_invariant (n k i : nat) (loc0 L : Tensor) (va : option bool)
    (self self' : MultivariateNormal) :
  __init__ loc0 None (Some L) va = ok self ->
  __init__ loc0 None (Some (flip_diagonal n k i L)) va = ok self' ->
  log_det_of (flip_diagonal n k i L) = log_det_of L /\
  value_of (entropy potrf self') = value_of (entropy potrf self).
Proof.
  intros H H'.
  assert (Hld : log_det_of (flip_diagonal n k i L) = log_det_of L).
  { apply log_det_abs; [reflexivity | apply get_flip_diagonal]. }
  split; [exact Hld|].
  destruct (init_scale_tril _ _ _ _ H) as (bs & Hbs & _ & ->).
  destruct (init_scale_tril _ _ _ _ H') as (bs' & Hbs' & _ & ->).
  assert (bs' = bs).
  { unfold _get_batch_shape in Hbs, Hbs'. cbn [shape flip_diagonal] in Hbs'.
    destruct (infer_size _ _); [|discriminate].
    apply ok_inj in Hbs, Hbs'. congruence. }
  subst bs'.
  unfold entropy, scale_tril.
  cbn [scale_tril_ _event_shape _batch_shape bind ok]. rewrite Hld.
  destruct (log_det_of L) as [e|ld]; [reflexivity|].
  destruct (take_last (shape loc0)) as [|m ms]; [reflexivity|].
  cbn [scale_tril_ _event_shape _batch_shape bind ok].
  destruct (length bs =? 0); [reflexivity|].
  destruct (expand bs _); reflexivity.
Qed.

(** ** The two parameterizations *)

Lemma is_matrix_item (n k : nat) (a : Tensor) (bs : Size) :
  shape a = bs ++ [n; n] -> wf a -> k < numel bs -> is_matrix n (item n k a).
Proof.
  intros Hs Hw Hk. split; [reflexivity|]. apply wf_item.
  unfold wf in Hw. rewrite Hw, Hs, numel_snoc2. nia.
Qed.

Lemma item_stacked (ms : list Tensor) (s : Size) (n k : nat) :
  Forall (fun c => is_matrix n c) ms -> k < length ms ->
  item n k (mkT s (concat (map data ms))) = nth k ms (mkT [] []).
Proof.
  intros Hall Hk.
  assert (Hlen : length (concat (map data ms)) = length ms * (n * n)).
  { rewrite (@length_concat_block (map data ms) (n * n)), length_map; [reflexivity|].
    apply Forall_map. eapply Forall_impl; [|exact Hall].
    intros c [Hs Hw]. unfold wf in Hw. now rewrite Hw, Hs, numel_square. }
  apply (matrix_ext n).
  - split; [reflexivity|]. apply wf_item. cbn [data]. rewrite Hlen. nia.
  - rewrite Forall_forall in Hall. apply Hall. now apply nth_In.
  - intros i j Hi Hj. unfold entries. rewrite mat_item by assumption.
    now apply mat_stacked.
Qed.

(** A batch is determined by its items. *)
Lemma batch_ext (a b : Tensor) (bs : Size) (n : nat) :
  shape a = bs ++ [n; n] -> shape b = bs ++ [n; n] -> wf a -> wf b ->
  (forall k, k < numel bs -> item n k a = item n k b) -> a = b.
Proof.
  intros Hsa Hsb Hwa Hwb H. destruct a as [sa da], b as [sb db].
  unfold wf in *. cbn [shape data] in *. subst sa sb. f_equal.
  rewrite numel_snoc2 in Hwa, Hwb.
  apply nth_ext with (d := 0%R) (d' := 0%R); [congruence|].
  intros q Hq. rewrite Hwa in Hq.
  assert (Hnn : n * n <> 0) by (intros E; rewrite <- Nat.mul_assoc, E in Hq; lia).
  assert (Hk : q / (n * n) < numel bs).
  { apply Nat.Div0.div_lt_upper_bound. lia. }
  assert (Hr : q mod (n * n) < n * n) by (now apply Nat.mod_upper_bound).
  pose proof (f_equal (fun x => get x (q mod (n * n))) (H _ Hk)) as E.
  cbn beta in E. rewrite !get_item in E by exact Hr.
  unfold get in E. cbn [data] in E.
  replace (q / (n * n) * (n * n) + q mod (n * n)) with q in E; [exact E|].
  pose proof (Nat.div_mod_eq q (n * n)). lia.
Qed.

Lemma is_cholesky_gram (n k : nat) (C L : Tensor) :
  is_cholesky (item n k C) (item n k L) -> item n k C = gram n L k.
Proof.
  intros (n' & Ha & Hl & _ & Hp).
  assert (n' = n) by (destruct Ha as [Hs _]; cbn in Hs; congruence). subst n'.
  apply (matrix_ext n _ _ Ha (is_matrix_gram n L k)).
  intros i j Hi Hj. rewrite entries_gram by assumption.
  unfold entries. rewrite <- (Hp i j Hi Hj).
  unfold mmul, mT. apply sumn_ext. intros p Hp'. now rewrite !mat_item.
Qed.

Lemma stack_view_last (ms : list Tensor) (bs : Size) (n : nat) :
  length ms = numel bs -> 0 < numel bs ->
  Forall (fun c => is_matrix n c) ms ->
  (st <- stack ms ;; view (zs (bs ++ [n; n])) st) =
  ok (mkT (bs ++ [n; n]) (concat (map data ms))).
Proof.
  intros Hlen Hb Hall.
  rewrite (@stack_ok ms [n; n]);
    [ | intros ->; simpl in Hlen; lia
      | eapply Forall_impl; [|exact Hall]; now intros c [Hs _] ].
  rewrite bind_ok.
  now rewrite view_same by (cbn [shape]; rewrite numel_snoc2, Hlen; simpl; lia).
Qed.

Lemma batch_potrf_ok (C : Tensor) (mb : Size) (n : nat) :
  shape C = mb ++ [n; n] -> 0 < n -> 0 < numel mb ->
  (forall k, k < numel mb -> positive_definite (item n k C)) ->
  exists L,
    _batch_potrf_lower potrf C = ok L /\
    shape L = shape C /\ wf L /\
    forall k, k < numel mb -> is_cholesky (item n k C) (item n k L).
Proof.
  intros HC Hn Hb Hpd.
  destruct (@mapM_ok _ _ potrf is_cholesky (map (fun k => item n k C) (seq 0 (numel mb))))
    as (ls & Hm & HF).
  { apply Forall_forall. intros a Ha. apply in_map_iff in Ha as (k & <- & Hk).
    apply in_seq in Hk. destruct (Hpd k ltac:(lia)) as [l Hl].
    exists l. split; [now apply potrf_spec | exact Hl]. }
  destruct (Forall2_nth_both _ _ _ _ _ (item n 0 C) (mkT [] []) HF) as [Hlen Hnth].
  rewrite length_map, length_seq in Hlen, Hnth.
  assert (Hk : forall k, k < numel mb -> is_cholesky (item n k C) (nth k ls (mkT [] []))).
  { intros k Hk. specialize (Hnth k Hk).
    rewrite (nth_indep _ _ (item n k C)) in Hnth by (now rewrite length_map, length_seq).
    rewrite (map_nth (fun k => item n k C) (seq 0 (numel mb)) k k) in Hnth.
    now rewrite seq_nth in Hnth. }
  assert (Hall : Forall (fun c => is_matrix n c) ls).
  { apply Forall_forall. intros c Hc.
    destruct (In_nth _ _ (mkT [] []) Hc) as (k & Hk' & <-).
    rewrite <- Hlen in Hk'. destruct (Hk k Hk') as (n' & Ha & Hl & _).
    assert (n' = n) by (destruct Ha as [Hs _]; cbn in Hs; congruence).
    now subst n'. }
  exists (mkT (mb ++ [n; n]) (concat (map data ls))).
  split; [|split; [|split]].
  - unfold _batch_potrf_lower.
    rewrite (@size_m1 C (mb ++ [n]) n) by (now rewrite HC, <- app_assoc).
    rewrite bind_ok, (flat_items _ C mb n) by assumption.
    rewrite Hm, bind_ok, HC.
    now rewrite (stack_view_last ls mb n) by (try assumption; now symmetry).
  - now rewrite HC.
  - unfold wf. cbn [shape data].
    rewrite (@length_concat_block (map data ls) (n * n)), length_map, numel_snoc2.
    + rewrite <- Hlen. lia.
    + apply Forall_map. eapply Forall_impl; [|exact Hall].
      intros c [Hs Hw]. unfold wf in Hw. now rewrite Hw, Hs, numel_square.
  - intros k Hk'. rewrite item_stacked by (try assumption; lia). now apply Hk.
Qed.
Lemma mat_batch_gram (mb : Size) (n : nat) (L : Tensor) (k i j : nat) :
  k < numel mb -> i < n -> j < n ->
  mat n (batch_gram mb n L) k i j = sumn n (fun p => (mat n L k i p * mat n L k j p)%R).
Proof.
  intros Hk Hi Hj. unfold mat at 1, batch_gram.
  rewrite get_tab by (now apply offset3_lt).
  destruct (offset3 k Hi Hj) as (-> & -> & ->). reflexivity.
Qed.



Lemma covariance_matrix_ok (self : MultivariateNormal) (L : Tensor) (mb : Size) (n : nat) :
  scale_tril_ self = Some L -> covariance_matrix_ self = None ->
  _event_shape self = [n] -> shape L = mb ++ [n; n] -> 0 < n ->
  covariance_matrix potrf self =
  ok (batch_gram mb n L, set_covariance_matrix self (batch_gram mb n L)).
Proof.
  intros Hst Hcov Hev HL Hn.
  unfold covariance_matrix, scale_tril. rewrite Hcov, Hst, !bind_ok.
  rewrite Hst, Hev. cbn [app]. rewrite unsqueeze_0, bind_ok. unfold contiguous.
  rewrite (@view_flat (mkT (1 :: shape L) (data L)) (1 :: mb) [n; n])
    by (cbn [shape]; try (now rewrite HL); rewrite numel_square; nia).
  rewrite bind_ok.
  replace (numel (1 :: mb)) with (numel mb) by (simpl; lia).
  cbn [data].
  rewrite (@transpose_last2_ok (mkT [numel mb; n; n] (data L)) [numel mb] n n eq_refl), bind_ok.
  erewrite bmm_ok by reflexivity. rewrite !bind_ok.
  rewrite view_same by (cbn [shape]; rewrite HL, numel_snoc2; simpl; lia).
  rewrite bind_ok.
  match goal with
  | |- ok (?v, _) = _ => assert (E : v = batch_gram mb n L); [|now rewrite E]
  end.
  unfold batch_gram. rewrite HL. f_equal.
  apply tab_ext. intros q Hq. apply sumn_ext. intros l Hl. f_equal.
  assert (Hn0 : n <> 0) by lia.
  rewrite (@get_transpose _ [numel mb] n n (q / (n * n)) l (q mod n)).
  - reflexivity.
  - simpl. rewrite Nat.mul_1_r. apply Nat.Div0.div_lt_upper_bound. lia.
  - exact Hl.
  - now apply Nat.mod_upper_bound.
Qed.


(** ** Entropy *)

Lemma expand_ok (sizes : Size) (a : Tensor) :
  expandable_rev (rev (shape a)) (rev sizes) = true ->
  expand sizes a =
  ok (mkT sizes (tab (numel sizes) (fun k => get a (bidx (shape a) sizes k)))).
Proof. intros H. unfold expand. now rewrite H. Qed.

Lemma infer_size_nil_inv (a b : Size) : infer_size a b = Some [] -> a = [] /\ b = [].
Proof.
  intros H. apply infer_size_length in H. simpl in H.
  split; apply length_zero_iff_nil; lia.
Qed.

Lemma scale_tril_frame (self self1 : MultivariateNormal) (L : Tensor) :
  scale_tril potrf self = ok (L, self1) ->
  loc self1 = loc self /\
  _batch_shape self1 = _batch_shape self /\
  _event_shape self1 = _event_shape self /\
  _validate_args self1 = _validate_args self /\
  scale_tril potrf self1 = ok (L, self1).
Proof.
  unfold scale_tril. destruct (scale_tril_ self) as [v|] eqn:Hst.
  - intros H. apply ok_inj in H. injection H as -> ->. now rewrite Hst.
  - destruct (covariance_matrix_ self) as [c|]; [|discriminate].
    destruct (_batch_potrf_lower potrf c) as [e|v]; [discriminate|].
    rewrite bind_ok. intros H. apply ok_inj in H. injection H as -> <-.
    cbn. auto.
Qed.

Lemma entropy_general (self self1 : MultivariateNormal) (L : Tensor)
    (lb mb bs : Size) (n : nat) :
  scale_tril potrf self = ok (L, self1) ->
  shape L = mb ++ [n; n] -> 0 < numel mb ->
  _event_shape self = [n] -> _batch_shape self = bs ->
  infer_size lb mb = Some bs ->
  exists log_det out,
    log_det_of L = ok log_det /\
    shape log_det = mb /\
    (forall k, k < numel mb ->
       get log_det k = sumn n (fun i => ln (Rabs (mat n L k i i)))) /\
    entropy potrf self = ok (out, self1) /\
    shape out = bs /\
    (forall k, k < numel bs ->
       get out k = (0.5 * (1 + ln (2 * PI)) * INR n + get log_det (bidx mb bs k))%R) /\
    (bs = [] -> out = radd_scalar (0.5 * (1 + ln (2 * PI)) * INR n) log_det).
Proof.
  intros Hst HL Hb Hev Hbs Hinf.
  destruct (scale_tril_frame _ _ _ Hst) as (_ & Hbs1 & Hev1 & _ & _).
  pose proof (log_det_ok L mb n HL Hb) as Hld.
  exists (mkT mb (tab (numel mb) (fun k => sumn n (fun i => ln (Rabs (mat n L k i i)))))).
  assert (Hc : (0.5 * (1.0 + ln (2 * PI)) * INR n = 0.5 * (1 + ln (2 * PI)) * INR n)%R) by lra.
  destruct bs as [|b0 bs'].
  - destruct (infer_size_nil_inv _ _ Hinf) as [-> ->].
    eexists. split; [exact Hld|]. split; [reflexivity|]. split.
    { intros k Hk. now rewrite get_tab. }
    split.
    { unfold entropy. rewrite Hst, bind_ok, Hld, bind_ok, Hev1, Hev, bind_ok, Hbs1, Hbs.
      cbn [length Nat.eqb]. reflexivity. }
    split; [reflexivity|]. split.
    + intros k Hk. unfold radd_scalar. rewrite tmap_tab, !get_tab by exact Hk.
      rewrite bidx_refl by exact Hk. rewrite get_tab by exact Hk. lra.
    + intros _. now rewrite Hc.
  - eexists. split; [exact Hld|]. split; [reflexivity|]. split.
    { intros k Hk. now rewrite get_tab. }
    split.
    { unfold entropy. rewrite Hst, bind_ok, Hld, bind_ok, Hev1, Hev, bind_ok, Hbs1, Hbs.
      cbn [length Nat.eqb]. unfold radd_scalar. rewrite tmap_tab.
      rewrite expand_ok by (cbn [shape]; now apply (infer_size_expandable_r lb mb)).
      rewrite bind_ok. reflexivity. }
    split; [reflexivity|]. split; [|discriminate].
    intros k Hk. rewrite get_tab by exact Hk. cbn [shape].
    assert (Hk' : bidx mb (b0 :: bs') k < numel mb) by (now apply (@bidx_bound_r lb mb)).
    rewrite !get_tab by exact Hk'. lra.
Qed.
Lemma lt_2_cases (i : nat) : i < 2 -> i = 0 \/ i = 1.
Proof. lia. Qed.

Lemma eye2_cholesky : is_cholesky (item 2 0 eye2) (item 2 0 eye2).
Proof.
  exists 2. split; [split; reflexivity|]. split; [split; reflexivity|]. split.
  - split.
    + intros i j Hij Hj. assert (i = 0 /\ j = 1) as [-> ->] by lia. reflexivity.
    + intros i Hi. destruct (lt_2_cases i Hi) as [-> | ->]; cbv [mat get item eye2 numel fold_right data]; simpl; lra.
  - intros i j Hi Hj.
    destruct (lt_2_cases i Hi) as [-> | ->], (lt_2_cases j Hj) as [-> | ->];
      cbv [sumn tab seq map sumR fold_right mat get item eye2 numel data]; simpl; lra.
Qed.

Lemma eye2_inverse : is_inverse (item 2 0 eye2) (item 2 0 eye2).
Proof.
  exists 2. split; [split; reflexivity|]. split; [split; reflexivity|].
  split; intros i j Hi Hj;
    destruct (lt_2_cases i Hi) as [-> | ->], (lt_2_cases j Hj) as [-> | ->];
    cbv [sumn tab seq map sumR fold_right mat get item eye2 numel data delta Nat.eqb];
    simpl; lra.
Qed.

Lemma batch_potrf_exact (C L : Tensor) (mb : Size) (n : nat) :
  shape C = mb ++ [n; n] -> shape L = mb ++ [n; n] -> wf L ->
  0 < n -> 0 < numel mb ->
  (forall k, k < numel mb -> is_cholesky (item n k C) (item n k L)) ->
  _batch_potrf_lower potrf C = ok L.
Proof.
  intros HC HL HwL Hn Hb Hch.
  destruct (batch_potrf_ok C mb n HC Hn Hb)
    as (L' & Hrun & HsL' & HwL' & Hch').
  { intros k Hk. exists (item n k L). now apply Hch. }
  rewrite Hrun. f_equal.
  apply (batch_ext L' L mb n); try assumption; [congruence|].
  intros k Hk. apply ok_inj.
  rewrite <- (potrf_spec _ _ (Hch' k Hk)). now apply potrf_spec, Hch.
Qed.

Lemma potrf_eye2 : _batch_potrf_lower potrf eye2 = ok eye2.
Proof.
  apply (batch_potrf_exact eye2 eye2 [] 2); try reflexivity; try (simpl; lia).
  intros k Hk. simpl in Hk. assert (k = 0) as -> by lia. apply eye2_cholesky.
Qed.

(** C5: [entropy] returns [0.5 * (1 + log(2 pi)) * n + log_det], where
    [log_det] adds [log(abs(.))] of the diagonal of each item of
    [scale_tril], broadcast to the batch shape; with an empty batch shape it
    is returned as it is, without [expand].  For [n = 2] and the identity
    covariance the value is [1 + log(2 pi)]. *)
Theorem entropy_formula :
  (forall (self self1 : MultivariateNormal) (L : Tensor) (lb mb bs : Size) (n : nat),
      scale_tril potrf self = ok (L, self1) ->
      shape L = mb ++ [n; n] -> 0 < numel mb ->
      _event_shape self = [n] -> _batch_shape self = bs ->
      infer_size lb mb = Some bs ->
      exists log_det out,
        log_det_of L = ok log_det /\
        shape log_det = mb /\
        (forall k, k < numel mb ->
           get log_det k = sumn n (fun i => ln (Rabs (mat n L k i i)))) /\
        entropy potrf self = ok (out, self1) /\
        shape out = bs /\
        (forall k, k < numel bs ->
           get out k = (0.5 * (1 + ln (2 * PI)) * INR n + get log_det (bidx mb bs k))%R) /\
        (bs = [] -> out = radd_scalar (0.5 * (1 + ln (2 * PI)) * INR n) log_det)) /\
  (forall (dl : list R) (va : option bool) (self : MultivariateNormal),
      __init__ (mkT [2] dl) (Some eye2) None va = ok self ->
      exists out self',
        entropy potrf self = ok (out, self') /\
        shape out = [] /\
        get out 0 = (1 + ln (2 * PI))%R).
Proof.
  split; [exact entropy_general|].
  intros dl va self0 Hinit.
  destruct (init_covariance _ _ _ _ Hinit) as (bs & Hbs & _ & ->).
  assert (bs = []) as -> by (apply ok_inj in Hbs; now rewrite <- Hbs).
  set (self := mkMVN _ _ _ _ _ _).
  assert (Hst : scale_tril potrf self = ok (eye2, set_scale_tril self eye2)).
  { unfold scale_tril. cbn [self scale_tril_ covariance_matrix_]. now rewrite potrf_eye2. }
  destruct (entropy_general self _ eye2 [] [] [] 2 Hst eq_refl)
    as (ld & out & Hld & Hsld & Hgld & Hrun & Hso & Hget & _);
    try reflexivity; try (simpl; lia).
  exists out, (set_scale_tril self eye2). split; [exact Hrun|]. split; [exact Hso|].
  rewrite Hget by (simpl; lia).
  rewrite (@bidx_refl [] 0) by (simpl; lia).
  rewrite Hgld by (simpl; lia).
  cbv [sumn tab seq map sumR fold_right mat get eye2 data]. simpl.
  rewrite Rabs_R1, ln_1. lra.
Qed.

(** ** The log-density *)

Lemma bdim_assoc (x y z c s : nat) :
  bdim y z = Some c -> bdim x c = Some s ->
  match bdim x y with
  | Some d => bdim d z = Some s
  | None => False
  end.
Proof.
  unfold bdim. intros H1 H2.
  repeat match goal with
         | H : context [?a =? ?b] |- _ => destruct (Nat.eqb_spec a b)
         | |- context [?a =? ?b] => destruct (Nat.eqb_spec a b)
         | H : Some _ = Some _ |- _ => injection H as H
         | H : None = Some _ |- _ => discriminate H
         end; subst; try congruence; try lia.
Qed.

Lemma infer_rev_assoc (v a b c s : list nat) :
  infer_rev a b = Some c -> infer_rev v c = Some s ->
  exists d, infer_rev v a = Some d /\ infer_rev d b = Some s.
Proof.
  revert a b c s. induction v as [|x v IH]; intros a b c s Hc Hs.
  - simpl in Hs. injection Hs as <-. exists a. split; [reflexivity | exact Hc].
  - destruct a as [|y a].
    + simpl in Hc. injection Hc as <-. exists (x :: v). split; [reflexivity | exact Hs].
    + destruct b as [|z b].
      * simpl in Hc. injection Hc as <-. exists s. split; [exact Hs | apply infer_rev_nil_r].
      * simpl in Hc.
        destruct (bdim y z) as [c0|] eqn:Hc0; [|discriminate].
        destruct (infer_rev a b) as [c'|] eqn:Hc'; [|discriminate].
        injection Hc as <-. simpl in Hs.
        destruct (bdim x c0) as [s0|] eqn:Hs0; [|discriminate].
        destruct (infer_rev v c') as [s'|] eqn:Hs'; [|discriminate].
        injection Hs as <-.
        destruct (IH _ _ _ _ Hc' Hs') as (d' & Hd' & Hd'b).
        pose proof (bdim_assoc x y z c0 s0 Hc0 Hs0) as Hd0.
        simpl. destruct (bdim x y) as [d0|]; [|contradiction].
        rewrite Hd'. exists (d0 :: d'). split; [reflexivity|].
        simpl. now rewrite Hd0, Hd'b.
Qed.

Lemma infer_size_some (a b r : Size) :
  infer_size a b = Some r <-> infer_rev (rev a) (rev b) = Some (rev r).
Proof.
  unfold infer_size. destruct (infer_rev (rev a) (rev b)) as [r'|]; simpl.
  - split; intros [= H].
    + now rewrite <- H, rev_involutive.
    + now rewrite H, rev_involutive.
  - split; discriminate.
Qed.

Lemma infer_size_assoc (v a b c s : Size) :
  infer_size a b = Some c -> infer_size v c = Some s ->
  exists d, infer_size v a = Some d /\ infer_size d b = Some s.
Proof.
  rewrite !infer_size_some. intros Hc Hs.
  destruct (infer_rev_assoc _ _ _ _ _ Hc Hs) as (d & Hd & Hdb).
  exists (rev d). rewrite !infer_size_some, rev_involutive. now split.
Qed.

Lemma snoc_cases (s : Size) : s = [] \/ exists s' x, s = s' ++ [x].
Proof. induction s as [|x s' _] using rev_ind; [now left | right; eauto]. Qed.

Lemma infer_size_snoc_inv (a b r : Size) (x y d : nat) :
  infer_size (a ++ [x]) (b ++ [y]) = Some (r ++ [d]) ->
  bdim x y = Some d /\ infer_size a b = Some r.
Proof.
  rewrite infer_size_snoc.
  destruct (bdim x y) as [d'|]; [|discriminate].
  destruct (infer_size a b) as [r'|]; [|discriminate].
  intros [= H]. apply app_inj_tail in H as [-> ->]. now split.
Qed.

Lemma infer_size_nonempty_r (a b r : Size) (y : nat) :
  infer_size a (b ++ [y]) = Some r -> exists r' d, r = r' ++ [d].
Proof.
  intros H. apply infer_size_length in H. rewrite length_app in H. simpl in H.
  destruct (snoc_cases r) as [-> | Hr]; [simpl in H; lia | exact Hr].
Qed.

(** The sample validator of the base class, called when validation is on. *)
Variable _validate_sample : MultivariateNormal -> Tensor -> result unit.

Lemma log_prob_general (self self1 : MultivariateNormal) (value L : Tensor)
    (lb mb bs s : Size) (n : nat) :
  scale_tril potrf self = ok (L, self1) ->
  shape (loc self) = lb ++ [n] -> shape L = mb ++ [n; n] ->
  0 < n -> 0 < numel mb ->
  _batch_shape self = bs -> _event_shape self = [n] ->
  infer_size lb mb = Some bs ->
  (forall k, k < numel mb -> invertible (item n k L)) ->
  (_validate_args self = true -> _validate_sample self value = ok tt) ->
  infer_size (shape value) (_batch_shape self ++ _event_shape self) = Some s ->
  exists diff M log_det out,
    sub value (loc self) = ok diff /\
    _batch_mahalanobis inverse L diff = ok M /\
    log_det_of L = ok log_det /\
    (forall k, k < numel mb ->
       get log_det k = sumn n (fun i => ln (Rabs (mat n L k i i)))) /\
    log_prob inverse potrf _validate_sample self value = ok (out, self1) /\
    shape M = drop_last s /\
    shape out = drop_last s /\
    forall k, k < numel (drop_last s) ->
      get out k =
      (-0.5 * (get M k + INR n * ln (2 * PI)) - get log_det (bidx mb (drop_last s) k))%R.
Proof.
  intros Hst Hloc HL Hn Hb Hbs Hev Hinf Hinv Hval Hs.
  rewrite Hbs, Hev in Hs.
  assert (Hc : infer_size (lb ++ [n]) (mb ++ [n]) = Some (bs ++ [n])).
  { now rewrite infer_size_snoc, bdim_refl, Hinf. }
  destruct (infer_size_assoc _ _ _ _ _ Hc Hs) as (ds & Hds & Hdsb).
  destruct (infer_size_nonempty_r _ _ _ _ Hs) as (rb & d & ->).
  destruct (infer_size_nonempty_r _ _ _ _ Hds) as (db & dn & ->).
  destruct (infer_size_snoc_inv _ _ _ _ _ _ Hdsb) as [Hd Hdb].
  rewrite drop_last_snoc.
  destruct (scale_tril_frame _ _ _ Hst) as (Hloc1 & _ & _ & _ & Hst1).
  (* diff *)
  assert (Hdiff : sub value (loc self) =
                  ok (mkT (db ++ [dn]) (tab (numel (db ++ [dn])) (fun k =>
                        (get value (bidx (shape value) (db ++ [dn]) k) -
                         get (loc self) (bidx (shape (loc self)) (db ++ [dn]) k))%R)))).
  { unfold sub. apply bop_ok. now rewrite Hloc. }
  set (diff := mkT (db ++ [dn]) _) in Hdiff.
  (* M *)
  destruct (mahalanobis_head L mb n HL Hn Hb Hinv) as (Linv & HsL & Hrun & _).
  destruct (mahalanobis_tail_shape Linv diff rb d n) as (M & HM & HsM & HwM).
  { cbn [shape diff]. rewrite HsL.
    change (mb ++ [n; n]) with (mb ++ [n] ++ [n]). rewrite app_assoc.
    rewrite infer_size_snoc, bdim_1_l, Hdsb. now rewrite <- app_assoc. }
  rewrite <- Hrun in HM.
  (* log_det *)
  pose proof (log_det_ok L mb n HL Hb) as Hld.
  set (ld := mkT mb _) in Hld.
  exists diff, M, ld. eexists.
  split; [exact Hdiff|]. split; [exact HM|]. split; [exact Hld|].
  split; [intros k Hk; unfold ld; now rewrite get_tab|].
  split.
  { unfold log_prob.
    replace (if _validate_args self then _validate_sample self value else ok tt)
      with (ok tt : result unit)
      by (destruct (_validate_args self); [symmetry; now apply Hval | reflexivity]).
    rewrite bind_ok, Hdiff, bind_ok, Hst, bind_ok, HM, bind_ok, Hst1, bind_ok, Hld, bind_ok.
    rewrite (@size_m1 (loc self1) lb n) by (now rewrite Hloc1).
    rewrite bind_ok. unfold sub.
    erewrite bop_ok; [rewrite bind_ok; reflexivity|].
    cbn [shape rmul_scalar add_scalar tmap ld]. rewrite HsM.
    now apply (infer_size_absorb_r db mb). }
  split; [exact HsM|]. split; [reflexivity|].
  intros k Hk. rewrite get_tab by exact Hk.
  unfold rmul_scalar, add_scalar.
  replace (shape (tmap (fun x => (-0.5 * x)%R) (tmap (fun x => (x + INR n * ln (2 * PI))%R) M)))
    with rb by (symmetry; exact HsM).
  rewrite bidx_refl by exact Hk.
  assert (HkM : k < length (data M)) by (unfold wf in HwM; now rewrite HwM, HsM).
  rewrite get_tmap by (cbn [tmap data]; now rewrite length_map).
  rewrite get_tmap by exact HkM. reflexivity.
Qed.
(** C1: for a value whose shape broadcasts against
    [batch_shape + event_shape], [log_prob] returns, entry by entry,
    [-0.5 * (M + n * log(2 pi)) - log_det], where [M] is what
    [_batch_mahalanobis] returns for [scale_tril] and [value - loc], and
    [log_det] adds [log(abs(.))] of the diagonal of each item of
    [scale_tril].  For [loc = [0, 0]], the 2-by-2 identity covariance and
    the value [[0, 0]] the result is [-log(2 pi)]. *)
Theorem log_prob_formula :
  (forall (self self1 : MultivariateNormal) (value L : Tensor)
          (lb mb bs s : Size) (n : nat),
      scale_tril potrf self = ok (L, self1) ->
      shape (loc self) = lb ++ [n] -> shape L = mb ++ [n; n] ->
      0 < n -> 0 < numel mb ->
      _batch_shape self = bs -> _event_shape self = [n] ->
      infer_size lb mb = Some bs ->
      (forall k, k < numel mb -> invertible (item n k L)) ->
      (_validate_args self = true -> _validate_sample self value = ok tt) ->
      infer_size (shape value) (_batch_shape self ++ _event_shape self) = Some s ->
      exists diff M log_det out,
        sub value (loc self) = ok diff /\
        _batch_mahalanobis inverse L diff = ok M /\
        log_det_of L = ok log_det /\
        (forall k, k < numel mb ->
           get log_det k = sumn n (fun i => ln (Rabs (mat n L k i i)))) /\
        log_prob inverse potrf _validate_sample self value = ok (out, self1) /\
        shape M = drop_last s /\
        shape out = drop_last s /\
        forall k, k < numel (drop_last s) ->
          get out k =
          (-0.5 * (get M k + INR n * ln (2 * PI))
           - get log_det (bidx mb (drop_last s) k))%R) /\
  (forall (va : option bool) (self : MultivariateNormal),
      __init__ zeros2 (Some eye2) None va = ok self ->
      (_validate_args self = true -> _validate_sample self zeros2 = ok tt) ->
      exists out self',
        log_prob inverse potrf _validate_sample self zeros2 = ok (out, self') /\
        shape out = [] /\
        get out 0 = (- ln (2 * PI))%R).
Proof.
  split; [exact log_prob_general|].
  intros va self.
  intros Hinit Hval.
  destruct (init_covariance _ _ _ _ Hinit) as (bs & Hbs & _ & E).
  assert (bs = []) as -> by (apply ok_inj in Hbs; now rewrite <- Hbs).
  assert (Hst : scale_tril potrf self = ok (eye2, set_scale_tril self eye2)).
  { unfold scale_tril. rewrite E. cbn [scale_tril_ covariance_matrix_].
    now rewrite (potrf_eye2). }
  assert (Hinv : forall k, k < numel [] -> invertible (item 2 k eye2)).
  { intros k Hk. simpl in Hk. assert (k = 0) as -> by lia.
    eexists. apply eye2_inverse. }
  destruct (log_prob_general
              self _ zeros2 eye2 [] [] [] [2] 2 Hst)
    as (diff & M & ld & out & Hdiff & HM & Hld & Hgld & Hrun & HsM & Hso & Hget);
    try (rewrite E; reflexivity); try reflexivity; try (simpl; lia); try assumption.
  exists out, (set_scale_tril self eye2).
  split; [exact Hrun|]. split; [exact Hso|].
  rewrite Hget by (simpl; lia).
  change (drop_last [2]) with (@nil nat).
  rewrite (@bidx_refl [] 0) by (simpl; lia).
  rewrite Hgld by (simpl; lia).
  (* the Mahalanobis term vanishes because [diff] does *)
  assert (Hd : diff = mkT [2] (tab 2 (fun k =>
                 Rminus (get zeros2 (bidx [2] [2] k)) (get zeros2 (bidx [2] [2] k))))).
  { rewrite E in Hdiff. cbn [loc] in Hdiff. unfold sub in Hdiff.
    rewrite (@bop_ok Rminus zeros2 zeros2 [2] eq_refl) in Hdiff.
    apply ok_inj in Hdiff. now rewrite <- Hdiff. }
  destruct (mahalanobis_values eye2 diff [] [] [] 2)
    as (M' & HM' & _ & _ & Hq); try reflexivity; try (simpl; lia); try assumption.
  { now rewrite Hd. }
  assert (M' = M) by (apply ok_inj; congruence). subst M'.
  destruct (Hq 0 ltac:(simpl; lia)) as (b & _ & Hqb).
  rewrite Hqb.
  rewrite (@sumn_ext 2 _ (fun _ => 0%R)), sumn_zero.
  - cbv [sumn tab seq map sumR fold_right mat get eye2 data]. simpl.
    rewrite Rabs_R1, ln_1. lra.
  - intros j Hj. rewrite (@sumn_ext 2 _ (fun _ => 0%R)), sumn_zero; [simpl; lra|].
    intros i Hi. rewrite (@bidx_refl [] 0) by (simpl; lia).
    unfold vec. rewrite Hd, get_tab by (simpl; lia). lra.
Qed.

(** ** Sampling *)

Lemma infer_rev_app_absorb (a b c : list nat) :
  infer_rev a b = Some a -> infer_rev (a ++ c) b = Some (a ++ c).
Proof.
  revert b. induction a as [|x a IH]; intros b H.
  - simpl in H. injection H as ->. simpl. apply infer_rev_nil_r.
  - destruct b as [|y b]; [reflexivity|]. simpl in H |- *.
    destruct (bdim x y) as [d|]; [|discriminate].
    destruct (infer_rev a b) as [r|] eqn:Hr; [|discriminate].
    injection H as -> ->. now rewrite (IH _ Hr).
Qed.

Lemma infer_size_prefix (s a b : Size) :
  infer_size a b = Some a -> infer_size (s ++ a) b = Some (s ++ a).
Proof.
  rewrite !infer_size_some, !rev_app_distr. apply infer_rev_app_absorb.
Qed.

(** [_batch_mv]: for every item of the broadcast batch shape, the ordinary
    matrix-vector product of the items broadcast to it. *)
Lemma batch_mv_ok (bmat bvec : Tensor) (mb vb rb : Size) (n : nat) :
  shape bmat = mb ++ [n; n] -> shape bvec = vb ++ [n] -> 0 < n ->
  infer_size vb mb = Some rb ->
  exists out,
    _batch_mv bmat bvec = ok out /\
    shape out = rb ++ [n] /\ wf out /\
    forall k i, k < numel rb -> i < n ->
      get out (k * n + i) =
      sumn n (fun l => (mat n bmat (bidx mb rb k) i l * vec n bvec (bidx vb rb k) l)%R).
Proof.
  intros Hm Hv Hn Hrb.
  eexists. split.
  { unfold _batch_mv.
    rewrite (@size_m1 bvec vb n Hv), bind_ok.
    unfold _get_batch_shape. rewrite Hm, Hv, drop_last_snoc2, infer_size_snoc, bdim_refl, Hrb.
    rewrite bind_ok, drop_last_snoc.
    rewrite expand_ok.
    2:{ rewrite Hm. apply (infer_size_expandable_r (vb ++ [n; n])).
        change (vb ++ [n; n]) with (vb ++ [n] ++ [n]).
        change (mb ++ [n; n]) with (mb ++ [n] ++ [n]).
        change (rb ++ [n; n]) with (rb ++ [n] ++ [n]).
        now rewrite !app_assoc, !infer_size_snoc, !bdim_refl, Hrb. }
    rewrite bind_ok. unfold contiguous.
    change [(-1)%Z; Z.of_nat n; Z.of_nat n] with ((-1)%Z :: zs [n; n]).
    erewrite (@view_flat _ rb [n; n]) by (try reflexivity; rewrite numel_square; nia).
    rewrite bind_ok, unsqueeze_m1, bind_ok.
    rewrite expand_ok.
    2:{ cbn [shape]. rewrite Hv. apply (infer_size_expandable_l _ (mb ++ [n; 1])).
        rewrite <- app_assoc. cbn [app].
        change (vb ++ [n; 1]) with (vb ++ [n] ++ [1]).
        change (mb ++ [n; 1]) with (mb ++ [n] ++ [1]).
        change (rb ++ [n; 1]) with (rb ++ [n] ++ [1]).
        now rewrite !app_assoc, !infer_size_snoc, !bdim_refl, Hrb. }
    rewrite bind_ok.
    change [(-1)%Z; Z.of_nat n; 1%Z] with ((-1)%Z :: zs [n; 1]).
    erewrite (@view_flat _ rb [n; 1]) by (try reflexivity; simpl; lia).
    rewrite bind_ok.
    erewrite bmm_ok by reflexivity. rewrite bind_ok.
    erewrite (squeeze_m1_one _ [numel rb; n]) by reflexivity. rewrite bind_ok.
    rewrite view_same by (cbn [shape]; rewrite numel_snoc; simpl; lia).
    reflexivity. }
  split; [reflexivity|]. split.
  { unfold wf. cbn [shape data]. rewrite length_tab, numel_snoc. lia. }
  intros k i Hk Hi.
  assert (H0 : 0 < 1) by lia.
  replace (k * n + i) with ((k * n + i) * 1 + 0) at 1 by lia.
  unfold get at 1. cbn [data]. rewrite nth_tab by (now apply offset3_lt).
  destruct (offset3 k Hi H0) as (-> & -> & ->).
  apply sumn_ext. intros l Hl. f_equal.
  - unfold get at 1. cbn [data].
    rewrite nth_tab by (rewrite numel_snoc2; now apply offset3_lt).
    rewrite Hm, bidx_snoc2_same by assumption. reflexivity.
  - unfold get at 1. cbn [data].
    rewrite nth_tab by (rewrite numel_snoc2; apply offset3_lt; assumption).
    cbn [shape]. rewrite Hv.
    change (rb ++ [n; 1]) with (rb ++ [n] ++ [1]). rewrite app_assoc.
    rewrite bidx_snoc_same by exact H0. rewrite bidx_snoc_same by exact Hl.
    unfold vec, get. cbn [data]. f_equal. lia.
Qed.

(** The sampler [normal_] fills a new tensor of the requested shape from a
    generator state. *)
Variable generator : Type.
Variable normal_ : Size -> generator -> Tensor * generator.
Hypothesis normal_shape : forall s g, shape (fst (normal_ s g)) = s.


End Properties.

(* ================================================================== *)
(** ** The library routines exist *)

Lemma the_inverse_spec (a b : Tensor) : the_inverse a = ok b <-> is_inverse a b.
Proof.
  unfold the_inverse.
  destruct (excluded_middle_informative (invertible a)) as [H|H].
  - destruct (constructive_indefinite_description _ H) as [b' Hb']. cbn [proj1_sig].
    split.
    + intros E. apply ok_inj in E. now subst b'.
    + intros Hb. f_equal. now apply (is_inverse_unique a).
  - split; [discriminate|]. intros Hb. exfalso. apply H. now exists b.
Qed.

Lemma sumn_truncate (m n : nat) (f : nat -> R) :
  m <= n -> (forall p, m <= p -> p < n -> f p = 0%R) -> sumn n f = sumn m f.
Proof.
  induction n as [|n IH]; intros Hmn Hz.
  - now replace m with 0 by lia.
  - destruct (Nat.eq_dec m (S n)) as [->|Hne]; [reflexivity|].
    rewrite sumn_S, Hz, IH by (try lia; intros; apply Hz; lia). lra.
Qed.

Section CholeskyUnique.

Variable n : nat.
Variables L M : nat -> nat -> R.
Hypothesis lowL : forall i j, i < j -> j < n -> L i j = 0%R.
Hypothesis lowM : forall i j, i < j -> j < n -> M i j = 0%R.
Hypothesis posL : forall i, i < n -> (0 < L i i)%R.
Hypothesis posM : forall i, i < n -> (0 < M i i)%R.
Hypothesis same : forall i j, i < n -> j < n ->
  sumn n (fun p => (L i p * L j p)%R) = sumn n (fun p => (M i p * M j p)%R).

Lemma lower_row_sum (F : nat -> nat -> R) (i j : nat) :
  (forall i j, i < j -> j < n -> F i j = 0%R) -> j < n ->
  sumn n (fun p => (F i p * F j p)%R) =
  (sumn j (fun p => (F i p * F j p)%R) + F i j * F j j)%R.
Proof.
  intros Hlow Hj.
  rewrite (sumn_truncate (S j) n) by (try lia; intros p Hp Hpn; rewrite (Hlow j p) by lia; lra).
  now rewrite sumn_S.
Qed.

Lemma cholesky_entries_unique (j : nat) :
  j < n -> forall i, i < n -> L i j = M i j.
Proof.
  induction j as [j IH] using lt_wf_ind. intros Hj.
  assert (Hsum : forall i, i < n ->
            sumn j (fun p => (L i p * L j p)%R) = sumn j (fun p => (M i p * M j p)%R)).
  { intros i Hi. apply sumn_ext. intros p Hp.
    now rewrite (IH p Hp ltac:(lia) i Hi), (IH p Hp ltac:(lia) j Hj). }
  assert (Hdiag : L j j = M j j).
  { pose proof (same j j Hj Hj) as E.
    rewrite (lower_row_sum L j j lowL Hj), (lower_row_sum M j j lowM Hj), (Hsum j Hj) in E.
    pose proof (posL j Hj). pose proof (posM j Hj). nra. }
  intros i Hi.
  destruct (Nat.lt_trichotomy i j) as [Hlt | [-> | Hgt]].
  - now rewrite lowL, lowM.
  - exact Hdiag.
  - pose proof (same i j Hi Hj) as E.
    rewrite (lower_row_sum L i j lowL Hj), (lower_row_sum M i j lowM Hj), (Hsum i Hi) in E.
    rewrite Hdiag in E. pose proof (posM j Hj).
    apply (Rmult_eq_reg_r (M j j)); [lra | lra].
Qed.

End CholeskyUnique.

Lemma is_cholesky_unique (a l l' : Tensor) : is_cholesky a l -> is_cholesky a l' -> l = l'.
Proof.
  intros (n & Ha & Hl & [Hlow Hpos] & Hp) (n' & Ha' & Hl' & [Hlow' Hpos'] & Hp').
  assert (n' = n) by (destruct Ha as [Hs _], Ha' as [Hs' _]; congruence). subst n'.
  apply (matrix_ext n l l' Hl Hl'). intros i j Hi Hj.
  apply (cholesky_entries_unique n (entries n l) (entries n l')); try assumption.
  intros i' j' Hi' Hj'. unfold entries. now rewrite Hp, Hp'.
Qed.

Lemma the_potrf_spec (a l : Tensor) : is_cholesky a l -> the_potrf a = ok l.
Proof.
  intros Hl. unfold the_potrf.
  destruct (excluded_middle_informative (positive_definite a)) as [H|H].
  - destruct (constructive_indefinite_description _ H) as [l' Hl']. cbn [proj1_sig].
    f_equal. now apply (is_cholesky_unique a).
  - exfalso. apply H. now exists l.
Qed.

Lemma zero_normal_shape (s : Size) (g : nat) : shape (fst (zero_normal s g)) = s.
Proof. reflexivity. Qed.


(* ================================================================== *)
(** ** The properties at concrete inputs *)

Ltac two_by_two :=
  match goal with
  | Hi : ?i < 2, Hj : ?j < 2 |- _ =>
      destruct (lt_2_cases i Hi) as [-> | ->], (lt_2_cases j Hj) as [-> | ->]
  | Hi : ?i < 2 |- _ => destruct (lt_2_cases i Hi) as [-> | ->]
  end;
  cbv [sumn tab seq map sumR fold_right mat get item L1 B1 C1 numel data delta Nat.eqb
       firstn skipn Nat.mul Nat.add nth];
  try lra.

Lemma L1_inverse : is_inverse (item 2 0 L1) B1.
Proof.
  exists 2. split; [split; reflexivity|]. split; [split; reflexivity|].
  split; intros i j Hi Hj; two_by_two.
Qed.

Lemma L1_invertible (k : nat) : k < numel [] -> invertible (item 2 k L1).
Proof.
  intros Hk. simpl in Hk. assert (k = 0) as -> by lia. exists B1. apply L1_inverse.
Qed.

Lemma L1_lower_pos (k : nat) : k < numel [] -> lower_pos 2 (item 2 k L1).
Proof.
  intros Hk. simpl in Hk. assert (k = 0) as -> by lia. split.
  - intros i j Hij Hj. assert (i = 0 /\ j = 1) as [-> ->] by lia. reflexivity.
  - intros i Hi. two_by_two.
Qed.

Lemma C1_positive_definite (k : nat) : k < numel [] -> positive_definite (item 2 k C1).
Proof.
  intros Hk. simpl in Hk. assert (k = 0) as -> by lia.
  exists (item 2 0 L1). exists 2.
  split; [split; reflexivity|]. split; [split; reflexivity|].
  split; [apply (L1_lower_pos 0); simpl; lia|].
  intros i j Hi Hj; two_by_two.
Qed.

Lemma ln_abs_L1 : sumn 2 (fun i => ln (Rabs (mat 2 L1 0 i i))) = ln 2.
Proof.
  cbv [sumn tab seq map sumR fold_right mat get L1 data Nat.mul Nat.add nth].
  rewrite (Rabs_pos_eq 2) by lra. rewrite Rabs_R1, ln_1. lra.
Qed.

(** The Mahalanobis distance of [value1] for the factor [L1]: the solve
    gives (3/2, 7/2), whose squared length is 29/2. *)
Lemma batch_mahalanobis_witness :
  exists out,
    _batch_mahalanobis the_inverse L1 value1 = ok out /\
    shape out = [] /\
    get out 0 = (29 / 2)%R.
Proof.
  destruct (batch_mahalanobis_correct the_inverse the_inverse_spec L1 value1 [] [] [] 2)
    as (out & Hrun & Hso & _ & Hq);
    [reflexivity | reflexivity | lia | simpl; lia | reflexivity | exact L1_invertible |].
  exists out. split; [exact Hrun|]. split; [exact Hso|].
  destruct (Hq 0) as [_ Hquad]; [simpl; lia|].
  rewrite (Hquad _ (gram_is_inverse 2 0 L1 B1 L1_inverse)).
  unfold quad. cbv [sumn tab seq map sumR fold_right].
  repeat match goal with
         | |- context [mat 2 (of_entries 2 ?A) 0 ?i ?j] =>
             change (mat 2 (of_entries 2 A) 0 i j) with (entries 2 (of_entries 2 A) i j);
             rewrite (entries_of_entries 2 A i j) by lia
         end.
  cbv [mmul mT entries mat vec get B1 value1 data sumn tab seq map sumR fold_right
       bidx bidx_rev rev app Nat.mul Nat.add nth].
  lra.
Defined.

(** The log-density of [value1] under the instance built from [loc1] and
    [L1]: the difference is (2, 3), its Mahalanobis distance 5, and the
    half log-determinant ln 2. *)
Lemma log_prob_formula_witness :
  exists out,
    log_prob the_inverse the_potrf accept_sample self1 value1 = ok (out, self1) /\
    shape out = [] /\
    get out 0 = (-0.5 * (5 + 2 * ln (2 * PI)) - ln 2)%R.
Proof.
  destruct (proj1 (log_prob_formula the_inverse the_inverse_spec the_potrf the_potrf_spec
                     accept_sample)
              self1 self1 value1 L1 [] [] [] [2] 2)
    as (diff & M & ld & out & Hsub & HM & _ & Hld & Hrun & _ & Hso & Hget);
    [reflexivity | reflexivity | reflexivity | lia | simpl; lia | reflexivity | reflexivity
    | reflexivity | exact L1_invertible | reflexivity | reflexivity |].
  exists out. split; [exact Hrun|]. split; [exact Hso|].
  rewrite (Hget 0) by (simpl; lia).
  change (bidx [] (drop_last [2]) 0) with 0.
  rewrite (Hld 0) by (simpl; lia).
  rewrite ln_abs_L1.
  assert (Hd : diff = mkT [2] [3 - 1; 5 - 2]%R).
  { apply ok_inj. rewrite <- Hsub. reflexivity. }
  subst diff.
  destruct (mahalanobis_values the_inverse the_inverse_spec L1 (mkT [2] [3 - 1; 5 - 2]%R)
              [] [] [] 2)
    as (M' & HM' & _ & _ & Hv);
    [reflexivity | reflexivity | lia | simpl; lia | reflexivity | exact L1_invertible |].
  rewrite HM in HM'. apply ok_inj in HM'. subst M'.
  destruct (Hv 0) as (b & Hb & ->); [simpl; lia|].
  change (bidx [] [] 0) with 0 in Hb.
  rewrite (is_inverse_unique _ _ _ Hb L1_inverse).
  cbv [sumn tab seq map sumR fold_right entries mat vec get B1 data bidx bidx_rev rev app
       Nat.mul Nat.add nth pow].
  simpl INR. lra.
Defined.

(** The entropy of the instance built from [loc1] and [L1]. *)
Lemma entropy_formula_witness :
  exists out,
    entropy the_potrf self1 = ok (out, self1) /\
    shape out = [] /\
    get out 0 = (1 + ln (2 * PI) + ln 2)%R.
Proof.
  destruct (proj1 (entropy_formula the_potrf the_potrf_spec) self1 self1 L1 [] [] [] 2)
    as (ld & out & _ & _ & Hld & Hrun & Hso & Hget & _);
    [reflexivity | reflexivity | simpl; lia | reflexivity | reflexivity | reflexivity |].
  exists out. split; [exact Hrun|]. split; [exact Hso|].
  rewrite (Hget 0) by (simpl; lia).
  change (bidx [] [] 0) with 0.
  rewrite (Hld 0) by (simpl; lia).
  rewrite ln_abs_L1. simpl INR. lra.
Defined.



(** [L1] with the sign of its first diagonal entry flipped. *)
Lemma log_det_sign_invariant_witness :
  log_det_of (flip_diagonal 2 0 0 L1) = log_det_of L1 /\
  value_of (entropy the_potrf selfF) = value_of (entropy the_potrf self1).
Proof.
  apply (log_det_sign_invariant the_potrf 2 0 0 loc1 L1 None self1 selfF); reflexivity.
Defined.

(** The shapes (2,1,3,3) and (5,3). *)
Lemma get_batch_shape_resolves_witness :
  broadcast_shapes (drop_last [2; 1; 3; 3]) [5; 3] = Some [2; 5; 3] /\
  _get_batch_shape (mkT [2; 1; 3; 3] []) (mkT [5; 3] []) = ok (drop_last [2; 5; 3]) /\
  resolve_spec [2; 1; 3; 3] [5; 3] = Some (drop_last [2; 5; 3]).
Proof.
  split; [reflexivity|].
  apply (proj1 get_batch_shape_resolves (mkT [2; 1; 3; 3] []) (mkT [5; 3] []) [2; 5; 3]).
  reflexivity.
Defined.

(** The shapes (4,3,3) and (5,3). *)
Lemma get_batch_shape_incompatible_witness :
  clash (drop_last [4; 3; 3]) [5; 3] /\
  exists msg,
    _get_batch_shape (mkT [4; 3; 3] []) (mkT [5; 3] []) = raise (ValueError msg) /\
    includes msg (str_size [5; 3]) /\ includes msg (str_size [4; 3; 3]).
Proof.
  assert (Hc : clash (drop_last [4; 3; 3]) [5; 3]).
  { exists 1, 4, 5. simpl. repeat split; try reflexivity; lia. }
  split; [exact Hc|].
  destruct (proj1 get_batch_shape_incompatible (mkT [4; 3; 3] []) (mkT [5; 3] []) Hc)
    as (_ & msg & Hrun & _ & Hv & Hm).
  exists msg. split; [exact Hrun|]. split; [exact Hv | exact Hm].
Defined.

(** The constructor on [loc1] and [L1]. *)
Lemma init_parameter_error_witness :
  2 <= dim L1 /\
  exists self,
    __init__ loc1 None (Some L1) None = ok self /\
    loc self = loc1 /\ scale_tril_ self = Some L1 /\ covariance_matrix_ self = None.
Proof.
  assert (Hd : 2 <= dim L1) by (unfold dim, L1; simpl; lia).
  split; [exact Hd|].
  destruct (proj2 (init_parameter_error loc1 None (Some L1) None) L1 eq_refl Hd) as [_ Hok].
  destruct (Hok [] eq_refl) as (self & Hrun & Hl & Hc & Hs & _).
  exists self. split; [exact Hrun|]. split; [exact Hl|]. split; [exact Hs | exact Hc].
Defined.


(* ================================================================== *)
(** * Further properties of the module

    Properties the code shows beyond its specification.  The library
    routines are taken as before: [torch.inverse] returns the inverse
    exactly when there is one, [potrf] returns the Cholesky factor of a
    matrix that has one, and the sampler fills the shape it is asked for.
    A factor "meets its constraint" when each of its items is
    lower-triangular with a positive diagonal ([lower_pos]); such a matrix
    is shown to have an inverse, so the statements about valid factors
    need no separate invertibility assumption. *)

(** ** Sums, shapes and offsets *)

Lemma sumn_nonneg (n : nat) (f : nat -> R) :
  (forall i, i < n -> (0 <= f i)%R) -> (0 <= sumn n f)%R.
Proof.
  induction n as [|n IH]; intros H; [rewrite sumn_0; lra|].
  rewrite sumn_S. pose proof (H n (Nat.lt_succ_diag_r n)).
  assert (0 <= sumn n f)%R by (apply IH; intros i Hi; apply H; lia). lra.
Qed.


Lemma sumn_const (n : nat) (a : R) : sumn n (fun _ => a) = (INR n * a)%R.
Proof.
  induction n as [|n IH]; [rewrite sumn_0; simpl; ring|].
  rewrite sumn_S, IH, S_INR. ring.
Qed.

Lemma delta_ne (i j : nat) : i <> j -> delta i j = 0%R.
Proof. intros H. unfold delta. now destruct (Nat.eqb_spec i j). Qed.

Lemma delta_same (i : nat) : delta i i = 1%R.
Proof. unfold delta. now rewrite Nat.eqb_refl. Qed.

Lemma infer_size_refl (s : Size) : infer_size s s = Some s.
Proof.
  induction s as [|x s IH] using rev_ind; [reflexivity|].
  now rewrite infer_size_snoc, bdim_refl, IH.
Qed.

Lemma infer_size_nil_r (a : Size) : infer_size a [] = Some a.
Proof.
  unfold infer_size. cbn [rev]. destruct (rev a) eqn:E; cbn [infer_rev option_map].
  - apply (f_equal (@rev nat)) in E. rewrite rev_involutive in E. now subst.
  - now rewrite <- E, rev_involutive.
Qed.

(** Broadcasting three shapes does not depend on the grouping. *)
Lemma infer_size_regroup (v a b d s c : Size) :
  infer_size v a = Some d -> infer_size d b = Some s -> infer_size a b = Some c ->
  infer_size v c = Some s.
Proof.
  intros Hva Hdb Hab.
  rewrite infer_size_comm in Hva. rewrite infer_size_comm in Hdb.
  destruct (infer_size_assoc b a v d s Hva Hdb) as (c' & Hba & Hcv).
  rewrite infer_size_comm, Hab in Hba.
  rewrite infer_size_comm. congruence.
Qed.

(** Reading through two broadcasts is reading through their composite. *)
Lemma bidx_rev_comp (a : list nat) :
  forall (b r : list nat) (k : nat),
    expandable_rev a b = true -> expandable_rev b r = true -> k < numel r ->
    bidx_rev a b (bidx_rev b r k) = bidx_rev a r k.
Proof.
  induction a as [|c a IH]; intros b r k Hab Hbr Hk; [reflexivity|].
  destruct b as [|y b]; [discriminate|].
  destruct r as [|d r]; [discriminate|].
  cbn [expandable_rev] in Hab, Hbr.
  apply andb_prop in Hab as [Hcy Hab]. apply andb_prop in Hbr as [Hyd Hbr].
  cbn [numel fold_right] in Hk. fold (numel r) in Hk.
  assert (Hd : 0 < d) by nia.
  assert (Hkd : k / d < numel r) by (apply Nat.Div0.div_lt_upper_bound; lia).
  cbn [bidx_rev].
  specialize (IH b r (k / d) Hab Hbr Hkd).
  destruct (Nat.eqb_spec y 1) as [->|Hy1].
  - assert (c = 1) as ->.
    { apply orb_prop in Hcy as [E|E]; apply Nat.eqb_eq in E; lia. }
    cbn [Nat.eqb]. rewrite !Nat.add_0_l, !Nat.mul_1_l, Nat.div_1_r. exact IH.
  - assert (y = d) as ->.
    { rewrite orb_false_r in Hyd. now apply Nat.eqb_eq in Hyd. }
    set (X := bidx_rev b r (k / d)) in *.
    assert (Hm : (k mod d + d * X) mod d = k mod d).
    { rewrite Nat.mul_comm, Nat.Div0.mod_add. apply Nat.Div0.mod_mod. }
    assert (Hq : (k mod d + d * X) / d = X).
    { rewrite Nat.mul_comm, Nat.div_add by lia.
      rewrite Nat.div_small by (apply Nat.mod_upper_bound; lia). reflexivity. }
    rewrite Hm, Hq, IH. reflexivity.
Qed.

Lemma bidx_comp (a b r : Size) (k : nat) :
  expandable_rev (rev a) (rev b) = true -> expandable_rev (rev b) (rev r) = true ->
  k < numel r -> bidx a b (bidx b r k) = bidx a r k.
Proof.
  intros Hab Hbr Hk. unfold bidx. apply bidx_rev_comp; try assumption.
  now rewrite numel_rev.
Qed.

(** The offsets of a shape that was broadcast twice are within it. *)
Lemma bidx_bound_twice (v a b d r : Size) (k : nat) :
  infer_size v a = Some d -> infer_size d b = Some r -> k < numel r ->
  bidx v r k < numel v /\ bidx a r k < numel a.
Proof.
  intros Hva Hdb Hk.
  pose proof (@infer_size_absorb_l d b r Hdb) as Hrd.
  split.
  - pose proof (@infer_size_absorb_l v a d Hva) as Hdv.
    destruct (infer_size_assoc r d v d r Hdv Hrd) as (x & Hx & Hxv).
    rewrite Hrd in Hx. injection Hx as <-.
    exact (@bidx_bound_r r v r k Hxv Hk).
  - pose proof (@infer_size_absorb_r v a d Hva) as Hda.
    destruct (infer_size_assoc r d a d r Hda Hrd) as (x & Hx & Hxa).
    rewrite Hrd in Hx. injection Hx as <-.
    exact (@bidx_bound_r r a r k Hxa Hk).
Qed.

(** What the resolver's success says about the batch shapes. *)
Lemma get_batch_shape_inv (bmat bvec : Tensor) (mb vb bs : Size) (n : nat) :
  shape bmat = mb ++ [n; n] -> shape bvec = vb ++ [n] ->
  _get_batch_shape bmat bvec = ok bs -> infer_size vb mb = Some bs.
Proof.
  intros Hm Hv. unfold _get_batch_shape.
  rewrite Hm, Hv, drop_last_snoc2, infer_size_snoc, bdim_refl.
  destruct (infer_size vb mb) as [r|]; [|discriminate].
  rewrite drop_last_snoc. intros H. apply ok_inj in H. now subst.
Qed.

Lemma view_units (a : Tensor) :
  view [(-1)%Z; 1%Z; 1%Z] a = ok (mkT [numel (shape a); 1; 1] (data a)).
Proof.
  unfold view, infer_view. cbn [existsb filter map count_occ numel fold_right].
  simpl.
  change (fst (Nat.divmod (numel (shape a)) 0 0 0)) with (numel (shape a) / 1).
  rewrite Nat.div_1_r. reflexivity.
Qed.

(** Matrices larger than 1-by-1 do not expand to 1-by-1 ones. *)
Lemma expand_unit_square (a : Tensor) (mb bs : Size) (n : nat) :
  shape a = mb ++ [n; n] -> 1 < n ->
  expand (bs ++ [1; 1]) a = raise RuntimeError.
Proof.
  intros Ha Hn. unfold expand. rewrite Ha, !rev_app_distr. cbn [rev app expandable_rev].
  destruct (Nat.eqb_spec n 1) as [E|_]; [lia|]. reflexivity.
Qed.

(** Adding a vector of length n to every item of a batch of vectors. *)
Lemma add_vector (a v : Tensor) (s : Size) (n : nat) :
  shape a = s ++ [n] -> shape v = [n] ->
  exists a',
    add a v = ok a' /\ shape a' = s ++ [n] /\
    forall k i, k < numel s -> i < n ->
      vec n a' k i = (vec n a k i + get v i)%R.
Proof.
  intros Ha Hv.
  assert (Hs : infer_size (shape a) (shape v) = Some (s ++ [n])).
  { rewrite Ha, Hv. change [n] with ([] ++ [n]) at 2.
    now rewrite infer_size_snoc, bdim_refl, infer_size_nil_r. }
  eexists. split; [exact (@bop_ok Rplus _ _ _ Hs)|]. split; [reflexivity|].
  intros k i Hk Hi. unfold vec at 1.
  rewrite get_tab by (rewrite numel_snoc; now apply offset2_lt).
  rewrite Ha, Hv. rewrite bidx_refl by (rewrite numel_snoc; now apply offset2_lt).
  change [n] with ([] ++ [n]) at 1. rewrite bidx_snoc_same by exact Hi.
  reflexivity.
Qed.

(** ** List comprehensions that raise *)

Lemma mapM_raise_at (A B : Type) (f : A -> result B) (l1 l2 : list A) (a : A) (e : exn) :
  Forall (fun x => exists b, f x = ok b) l1 -> f a = raise e ->
  mapM f (l1 ++ a :: l2) = raise e.
Proof.
  intros H Ha. induction H as [|x l1 [b Hb] _ IH]; cbn [app mapM].
  - now rewrite Ha.
  - now rewrite Hb, bind_ok, IH.
Qed.

Lemma mapM_raise_some (A B : Type) (f : A -> result B) (l : list A) (a : A) :
  In a l -> (exists e, f a = raise e) -> exists e, mapM f l = raise e.
Proof.
  intros Hin [e He]. induction l as [|x l IH]; [destruct Hin|].
  cbn [mapM]. destruct (f x) as [e'|b] eqn:Hx; [now exists e'|].
  destruct Hin as [->|Hin].
  - unfold raise in He. congruence.
  - destruct (IH Hin) as [e' ->]. now exists e'.
Qed.

Lemma seq_split (k N : nat) : k < N -> seq 0 N = seq 0 k ++ k :: seq (S k) (N - S k).
Proof.
  intros Hk. replace N with (k + S (N - S k)) at 1 by lia.
  now rewrite seq_app.
Qed.

(** ** Inverses *)

(** A matrix is the transpose of its transpose. *)
Lemma t_involutive (n : nat) (a ta : Tensor) :
  is_matrix n a -> t a = ok ta -> t ta = ok a.
Proof.
  intros Ha Hta.
  destruct (t_matrix n a (proj1 Ha)) as (b & Hb & Hmb & Heb).
  rewrite Hb in Hta. apply ok_inj in Hta. subst ta.
  destruct (t_matrix n b (proj1 Hmb)) as (c & Hc & Hmc & Hec).
  rewrite Hc. f_equal. apply (matrix_ext n); [exact Hmc | exact Ha |].
  intros i j Hi Hj. now rewrite Hec, Heb.
Qed.

(** The sum of squares [|b x|^2] is the quadratic form of the inverse of
    [l l^T] when [b] is the inverse of [l]. *)
Lemma squares_as_quad (n k : nat) (L b s : Tensor) (x : nat -> R) :
  is_inverse (item n k L) b -> is_inverse (gram n L k) s ->
  sumn n (fun j => (sumn n (fun i => x i * entries n b j i) ^ 2)%R) =
  sumn n (fun i => sumn n (fun j => (x i * mat n s 0 i j * x j)%R)).
Proof.
  intros Hb Hs.
  pose proof (gram_is_inverse n k L b Hb) as Hg.
  rewrite (is_inverse_unique _ _ _ Hs Hg).
  transitivity
    (sumn n (fun i => sumn n (fun j =>
       (x i * mmul n (mT (entries n b)) (entries n b) i j * x j)%R))).
  - now rewrite quad_gram.
  - apply sumn_ext. intros i Hi. apply sumn_ext. intros j Hj.
    fold (entries n (of_entries n (mmul n (mT (entries n b)) (entries n b))) i j).
    now rewrite entries_of_entries.
Qed.

(** The inverse undoes the product: [b (a e) = e]. *)
Lemma inverse_undoes (n : nat) (a b : Tensor) (e : nat -> R) (j : nat) :
  shape a = [n; n] -> is_inverse a b -> j < n ->
  sumn n (fun i => (sumn n (fun l => mat n a 0 i l * e l) * entries n b j i)%R) = e j.
Proof.
  intros Hsa (n' & [Hsa' _] & _ & _ & Hba) Hj.
  assert (n' = n) as -> by congruence.
  transitivity (sumn n (fun l => (delta j l * e l)%R)); [|now apply sumn_delta_l].
  transitivity (sumn n (fun i => sumn n (fun l =>
     (entries n b j i * mat n a 0 i l * e l)%R))).
  - apply sumn_ext. intros i Hi.
    rewrite Rmult_comm, <- sumn_mult_l. apply sumn_ext. intros l Hl. ring.
  - rewrite sumn_swap. apply sumn_ext. intros l Hl.
    rewrite <- (Hba j l Hj Hl), <- sumn_mult_r. apply sumn_ext. intros p Hp.
    reflexivity.
Qed.

(** *** Triangular matrices *)

Lemma length_tri_rows (L : nat -> nat -> R) (i : nat) : length (tri_rows L i) = i.
Proof.
  induction i as [|i IH]; [reflexivity|].
  cbn [tri_rows]. rewrite length_app, IH. simpl. lia.
Qed.

Lemma nth_tri_rows (L : nat -> nat -> R) (i p : nat) :
  p < i -> nth p (tri_rows L i) (fun _ => 0%R) = tri_inverse L p.
Proof.
  unfold tri_inverse. induction i as [|i IH]; intros Hp; [lia|].
  destruct (Nat.eq_dec p i) as [->|Hne]; [reflexivity|].
  cbn [tri_rows]. rewrite app_nth1 by (rewrite length_tri_rows; lia).
  apply IH. lia.
Qed.

(** The forward substitution, as an equation on the entries. *)
Lemma tri_inverse_eq (L : nat -> nat -> R) (i j : nat) :
  tri_inverse L i j =
  ((delta i j - sumn i (fun p => L i p * tri_inverse L p j)) / L i i)%R.
Proof.
  unfold tri_inverse at 1. cbn [tri_rows].
  rewrite app_nth2 by (rewrite length_tri_rows; lia).
  rewrite length_tri_rows, Nat.sub_diag. cbn [nth].
  f_equal. f_equal. apply sumn_ext. intros p Hp.
  now rewrite nth_tri_rows.
Qed.

Lemma tri_inverse_upper (L : nat -> nat -> R) (i : nat) :
  forall j, i < j -> tri_inverse L i j = 0%R.
Proof.
  induction i as [i IH] using lt_wf_ind. intros j Hij.
  rewrite tri_inverse_eq, delta_ne by lia.
  replace (sumn i (fun p => (L i p * tri_inverse L p j)%R)) with 0%R.
  - unfold Rdiv. ring.
  - rewrite <- (sumn_zero i). apply sumn_ext. intros p Hp.
    rewrite (IH p Hp j) by lia. ring.
Qed.

Lemma tri_inverse_diag (L : nat -> nat -> R) (i : nat) :
  tri_inverse L i i = (/ L i i)%R.
Proof.
  rewrite tri_inverse_eq, delta_same.
  replace (sumn i (fun p => (L i p * tri_inverse L p i)%R)) with 0%R.
  - unfold Rdiv. ring.
  - rewrite <- (sumn_zero i). apply sumn_ext. intros p Hp.
    rewrite tri_inverse_upper by lia. ring.
Qed.

Lemma tri_inverse_right (n : nat) (L : nat -> nat -> R) (i j : nat) :
  (forall i j, i < j -> j < n -> L i j = 0%R) ->
  (forall i, i < n -> L i i <> 0%R) ->
  i < n -> mmul n L (tri_inverse L) i j = delta i j.
Proof.
  intros lowL diagL Hi. unfold mmul.
  rewrite (sumn_truncate (S i) n) by (try lia; intros p Hp Hpn; rewrite lowL by lia; ring).
  rewrite sumn_S, (tri_inverse_eq L i j).
  pose proof (diagL i Hi). field. assumption.
Qed.

(** A right inverse of a triangular matrix is triangular with a nonzero
    diagonal, so it has a right inverse of its own, and is a left inverse. *)
Lemma tri_inverse_pair (n : nat) (L : nat -> nat -> R) :
  (forall i j, i < j -> j < n -> L i j = 0%R) ->
  (forall i, i < n -> L i i <> 0%R) ->
  inverse_pair n L (tri_inverse L).
Proof.
  intros lowL diagL.
  set (B := tri_inverse L). set (B' := tri_inverse B).
  assert (HLB : forall i j, i < n -> j < n -> mmul n L B i j = delta i j).
  { intros i j Hi _. now apply tri_inverse_right. }
  assert (HBB' : forall i j, i < n -> j < n -> mmul n B B' i j = delta i j).
  { intros i j Hi _. apply tri_inverse_right; [| |exact Hi].
    - intros a b Hab _. now apply tri_inverse_upper.
    - intros a Ha. unfold B. rewrite tri_inverse_diag.
      apply Rinv_neq_0_compat. now apply diagL. }
  split; [exact HLB|].
  intros i j Hi Hj.
  rewrite <- (@mmul_delta_r n (mmul n B L) i j Hj).
  rewrite (@mmul_ext_r n (mmul n B L) delta (mmul n B B') i j)
    by (intros p Hp; symmetry; now apply HBB').
  rewrite mmul_assoc.
  rewrite (@mmul_ext_r n B _ B' i j); [now apply HBB'|].
  intros p Hp. rewrite <- mmul_assoc.
  rewrite (@mmul_ext_l n (mmul n L B) delta B' p j) by (intros q Hq; now apply HLB).
  now apply mmul_delta_l.
Qed.

(** A lower-triangular matrix with a positive diagonal has an inverse. *)
Lemma lower_pos_invertible (n : nat) (a : Tensor) :
  is_matrix n a -> lower_pos n a -> invertible a.
Proof.
  intros Ha [Hlow Hpos].
  destruct (tri_inverse_pair n (entries n a)) as [H1 H2].
  - exact Hlow.
  - intros i Hi. pose proof (Hpos i Hi). unfold entries. lra.
  - exists (of_entries n (tri_inverse (entries n a))). exists n.
    split; [exact Ha|]. split; [apply is_matrix_of_entries|].
    split; intros i j Hi Hj.
    + rewrite <- (H1 i j Hi Hj). unfold mmul. apply sumn_ext. intros p Hp.
      fold (entries n (of_entries n (tri_inverse (entries n a))) p j).
      now rewrite entries_of_entries.
    + rewrite <- (H2 i j Hi Hj). unfold mmul. apply sumn_ext. intros p Hp.
      fold (entries n (of_entries n (tri_inverse (entries n a))) i p).
      now rewrite entries_of_entries.
Qed.

(** ** The batched helpers *)

(** X1: [_batch_diag] returns the diagonals of a batch of n-by-n matrices:
    a tensor of shape [batch + (n,)] whose entry [i] of item [k] is entry
    [(i, i)] of item [k] of the argument. *)
Theorem batch_diag_entries (L : Tensor) (mb : Size) (n : nat) :
  shape L = mb ++ [n; n] -> 0 < numel mb ->
  exists d,
    _batch_diag L = ok d /\ shape d = mb ++ [n] /\ wf d /\
    forall k i, k < numel mb -> i < n -> vec n d k i = mat n L k i i.
Proof.
  intros HL Hb. eexists. split; [apply (batch_diag_ok L mb n HL Hb)|].
  split; [reflexivity|]. split.
  - unfold wf. cbn [shape data]. now rewrite length_tab, numel_snoc.
  - intros k i Hk Hi. unfold vec, mat.
    rewrite get_tab by (now apply offset2_lt).
    destruct (offset2 k Hi) as [-> ->]. f_equal. ring.
Qed.

(** X2: [_batch_mv] multiplies item by item, broadcasting the two batch
    shapes: entry [i] of item [k] of the result is row [i] of the matrix
    broadcast to [k] times the vector broadcast to [k].  A batch of identity
    matrices returns the vectors. *)
Theorem batch_mv_product (bmat bvec : Tensor) (mb vb rb : Size) (n : nat) :
  shape bmat = mb ++ [n; n] -> shape bvec = vb ++ [n] -> 0 < n ->
  infer_size vb mb = Some rb ->
  exists out,
    _batch_mv bmat bvec = ok out /\
    shape out = rb ++ [n] /\ wf out /\
    (forall k i, k < numel rb -> i < n ->
       vec n out k i =
       sumn n (fun l => (mat n bmat (bidx mb rb k) i l * vec n bvec (bidx vb rb k) l)%R)) /\
    ((forall k i l, k < numel mb -> i < n -> l < n -> mat n bmat k i l = delta i l) ->
     forall k i, k < numel rb -> i < n -> vec n out k i = vec n bvec (bidx vb rb k) i).
Proof.
  intros Hm Hv Hn Hrb.
  destruct (batch_mv_ok bmat bvec mb vb rb n Hm Hv Hn Hrb) as (out & Hrun & Hso & Hwf & Hval).
  exists out. split; [exact Hrun|]. split; [exact Hso|]. split; [exact Hwf|].
  split; [exact Hval|].
  intros Hid k i Hk Hi. unfold vec at 1. rewrite (Hval k i Hk Hi).
  rewrite <- (@sumn_delta_l n i (vec n bvec (bidx vb rb k)) Hi).
  apply sumn_ext. intros l Hl. rewrite Hid; try assumption.
  - reflexivity.
  - now apply (@bidx_bound_r vb mb rb k).
Qed.

(** A vector whose last dimension is 1 passes the resolver against n-by-n
    matrices, but [_batch_mv] then takes n = 1 from the vector and cannot
    expand the matrices. *)
Lemma batch_mv_unit (bmat bvec : Tensor) (mb vb bs : Size) (n : nat) :
  shape bmat = mb ++ [n; n] -> shape bvec = vb ++ [1] -> 1 < n ->
  infer_size vb mb = Some bs ->
  _get_batch_shape bmat bvec = ok bs /\ _batch_mv bmat bvec = raise RuntimeError.
Proof.
  intros Hm Hv Hn Hbs.
  assert (Hr : _get_batch_shape bmat bvec = ok bs).
  { unfold _get_batch_shape.
    now rewrite Hm, Hv, drop_last_snoc2, infer_size_snoc, bdim_1_l, Hbs, drop_last_snoc. }
  split; [exact Hr|].
  unfold _batch_mv. rewrite (@size_m1 bvec vb 1 Hv), bind_ok, Hr, bind_ok.
  now rewrite (expand_unit_square bmat mb bs n Hm Hn).
Qed.

(** ** Failures of the library routines *)

Section Failures.

Variable inverse : Tensor -> result Tensor.
Hypothesis inverse_spec : forall a b, inverse a = ok b <-> is_inverse a b.
Variable potrf : Tensor -> result Tensor.

Lemma inverse_t_singular (n : nat) (a : Tensor) :
  is_matrix n a -> ~ invertible a -> exists e, (Lt <- t a ;; inverse Lt) = raise e.
Proof.
  intros Ha Hsing.
  destruct (t_matrix n a (proj1 Ha)) as (ta & Hta & Hmta & _).
  rewrite Hta, bind_ok.
  destruct (inverse ta) as [e|c] eqn:Hc; [now exists e|].
  exfalso. apply Hsing.
  apply inverse_spec in Hc.
  assert (Hsc : shape c = [n; n]).
  { destruct Hc as (n' & [Hs1 _] & [Hs2 _] & _). destruct Hmta as [Hs3 _]. congruence. }
  destruct (t_matrix n c Hsc) as (tc & Htc & _ & _).
  exists tc. apply (is_inverse_t ta c a tc Hc); [|exact Htc].
  now apply (t_involutive n a).
Qed.

(** X5: when some matrix of the batch [L] has no inverse, the distance is
    not computed: the call raises what [torch.inverse] raises. *)
Theorem batch_mahalanobis_singular (L x : Tensor) (Lb : Size) (n k : nat) :
  shape L = Lb ++ [n; n] -> wf L -> 0 < n ->
  k < numel Lb -> ~ invertible (item n k L) ->
  exists e, _batch_mahalanobis inverse L x = raise e.
Proof.
  intros HL Hwf Hn Hk Hsing.
  unfold _batch_mahalanobis.
  rewrite HL, take_last2_snoc2.
  change ((-1)%Z :: zs [n; n]) with [(-1)%Z; Z.of_nat n; Z.of_nat n].
  rewrite (flat_items _ L Lb n) by assumption.
  destruct (mapM_raise_some _ _ (fun Li => Lt <- t Li ;; inverse Lt)
              (map (fun k => item n k L) (seq 0 (numel Lb))) (item n k L)) as [e He].
  - apply in_map_iff. exists k. split; [reflexivity | apply in_seq; lia].
  - apply (inverse_t_singular n); [|exact Hsing].
    now apply (is_matrix_item n k L Lb).
  - exists e. now rewrite He.
Qed.

(** X6: the decomposition runs over the matrices of the batch in order; the
    first one on which [potrf] raises ends the call with that error, and so
    ends the lazy [scale_tril] of an instance given by its covariance, and
    its [entropy]. *)
Theorem batch_potrf_first_error (C : Tensor) (mb : Size) (n k : nat) (e : exn) :
  shape C = mb ++ [n; n] -> 0 < n -> k < numel mb ->
  (forall j, j < k -> exists l, potrf (item n j C) = ok l) ->
  potrf (item n k C) = raise e ->
  _batch_potrf_lower potrf C = raise e /\
  forall self,
    covariance_matrix_ self = Some C -> scale_tril_ self = None ->
    scale_tril potrf self = raise e /\ entropy potrf self = raise e.
Proof.
  intros HC Hn Hk Hbefore Hat.
  assert (Hrun : _batch_potrf_lower potrf C = raise e).
  { unfold _batch_potrf_lower.
    rewrite (@size_m1 C (mb ++ [n]) n) by (now rewrite HC, <- app_assoc).
    rewrite bind_ok.
    rewrite (flat_items _ C mb n) by assumption.
    rewrite (seq_split k (numel mb) Hk), map_app. cbn [map].
    rewrite (mapM_raise_at _ _ potrf _ _ (item n k C) e); [reflexivity | | exact Hat].
    apply Forall_forall. intros a Ha. apply in_map_iff in Ha as (j & <- & Hj).
    apply in_seq in Hj. apply Hbefore. lia. }
  split; [exact Hrun|].
  intros self Hcov Hst.
  assert (H1 : scale_tril potrf self = raise e).
  { unfold scale_tril. now rewrite Hst, Hcov, Hrun. }
  split; [exact H1|].
  unfold entropy. now rewrite H1.
Qed.

End Failures.

(** ** The log-density, written out *)

Section Density.

Variable inverse : Tensor -> result Tensor.
Hypothesis inverse_spec : forall a b, inverse a = ok b <-> is_inverse a b.
Variable potrf : Tensor -> result Tensor.
Variable _validate_sample : MultivariateNormal -> Tensor -> result unit.

(** What a successful construction from a factor leaves on the instance. *)
Lemma init_scale_tril_frame (loc0 L : Tensor) (va : option bool)
    (self : MultivariateNormal) (lb mb : Size) (n : nat) :
  __init__ loc0 None (Some L) va = ok self ->
  shape loc0 = lb ++ [n] -> shape L = mb ++ [n; n] ->
  exists bs,
    infer_size lb mb = Some bs /\
    loc self = loc0 /\ _batch_shape self = bs /\ _event_shape self = [n] /\
    scale_tril potrf self = ok (L, self).
Proof.
  intros Hi Hl HL.
  destruct (init_scale_tril loc0 L va self Hi) as (bs & Hr & _ & ->).
  exists bs. split; [exact (get_batch_shape_inv L loc0 mb lb bs n HL Hl Hr)|].
  cbn [loc _batch_shape _event_shape]. rewrite Hl, take_last_snoc.
  repeat split; reflexivity.
Qed.

(** The log-density of a value whose last dimension is the event size,
    with the distance written out through the inverses of the items. *)
Lemma log_prob_values (self self1 : MultivariateNormal) (value L : Tensor)
    (lb mb vb db rb bs : Size) (n : nat) :
  scale_tril potrf self = ok (L, self1) ->
  shape (loc self) = lb ++ [n] -> shape L = mb ++ [n; n] ->
  0 < n -> 0 < numel mb ->
  _batch_shape self = bs -> _event_shape self = [n] ->
  infer_size lb mb = Some bs ->
  (forall k, k < numel mb -> invertible (item n k L)) ->
  (_validate_args self = true -> _validate_sample self value = ok tt) ->
  shape value = vb ++ [n] ->
  infer_size vb lb = Some db -> infer_size db mb = Some rb ->
  exists out,
    log_prob inverse potrf _validate_sample self value = ok (out, self1) /\
    shape out = rb /\
    forall k, k < numel rb ->
      exists b,
        is_inverse (item n (bidx mb rb k) L) b /\
        get out k =
        (-0.5 * (sumn n (fun j =>
                   (sumn n (fun i =>
                      (vec n value (bidx vb rb k) i
                       - vec n (loc self) (bidx lb rb k) i)
                      * entries n b j i) ^ 2)%R)
                 + INR n * ln (2 * PI))
         - sumn n (fun i => ln (Rabs (mat n L (bidx mb rb k) i i))))%R.
Proof.
  intros Hst Hloc HL Hn Hb Hbs Hev Hinf Hinv Hval Hv Hdb Hrb.
  assert (Hvbs : infer_size vb bs = Some rb) by exact (infer_size_regroup _ _ _ _ _ _ Hdb Hrb Hinf).
  assert (Hs : infer_size (shape value) (_batch_shape self ++ _event_shape self)
               = Some (rb ++ [n])).
  { now rewrite Hv, Hbs, Hev, infer_size_snoc, bdim_refl, Hvbs. }
  destruct (log_prob_general inverse inverse_spec potrf _validate_sample
              self self1 value L lb mb bs (rb ++ [n]) n
              Hst Hloc HL Hn Hb Hbs Hev Hinf Hinv Hval Hs)
    as (diff & M & ld & out & Hsub & HM & _ & Hld & Hrun & _ & Hso & Hget).
  rewrite drop_last_snoc in Hso, Hget.
  assert (Hdiff : diff = mkT (db ++ [n]) (tab (numel (db ++ [n])) (fun q =>
                    (get value (bidx (shape value) (db ++ [n]) q) -
                     get (loc self) (bidx (shape (loc self)) (db ++ [n]) q))%R))).
  { apply ok_inj. rewrite <- Hsub. unfold sub. apply bop_ok.
    now rewrite Hv, Hloc, infer_size_snoc, bdim_refl, Hdb. }
  destruct (mahalanobis_values inverse inverse_spec L diff mb db rb n HL) as
    (M' & HM' & _ & _ & HvalM); try assumption.
  { now rewrite Hdiff. }
  rewrite HM in HM'. apply ok_inj in HM'. subst M'.
  exists out. split; [exact Hrun|]. split; [exact Hso|].
  intros k Hk. destruct (HvalM k Hk) as (b & Hb' & HMk).
  exists b. split; [exact Hb'|].
  rewrite (Hget k Hk), HMk.
  rewrite (Hld (bidx mb rb k)) by (now apply (@bidx_bound_r db mb rb k)).
  f_equal. f_equal. f_equal. apply sumn_ext. intros j Hj. f_equal.
  apply sumn_ext. intros i Hi. f_equal.
  assert (Hk' : bidx db rb k < numel db) by (now apply (@bidx_bound_l db mb rb k)).
  unfold vec at 1. rewrite Hdiff.
  rewrite get_tab by (rewrite numel_snoc; now apply offset2_lt).
  rewrite Hv, Hloc, !bidx_snoc_same by exact Hi.
  rewrite !bidx_comp; try exact Hk.
  - reflexivity.
  - exact (@infer_size_expandable_r vb lb db Hdb).
  - exact (@infer_size_expandable_l db mb rb Hrb).
  - exact (@infer_size_expandable_l vb lb db Hdb).
  - exact (@infer_size_expandable_l db mb rb Hrb).
Qed.

(** The same for a factor that meets its constraint: lower-triangular
    items with a positive diagonal.  The distance is the quadratic form of
    the inverse of [l l^T]. *)
Lemma log_prob_lower_pos (self self1 : MultivariateNormal) (value L : Tensor)
    (lb mb vb db rb bs : Size) (n : nat) :
  scale_tril potrf self = ok (L, self1) ->
  shape (loc self) = lb ++ [n] -> shape L = mb ++ [n; n] -> wf L ->
  0 < n -> 0 < numel mb ->
  _batch_shape self = bs -> _event_shape self = [n] ->
  infer_size lb mb = Some bs ->
  (forall k, k < numel mb -> lower_pos n (item n k L)) ->
  (_validate_args self = true -> _validate_sample self value = ok tt) ->
  shape value = vb ++ [n] ->
  infer_size vb lb = Some db -> infer_size db mb = Some rb ->
  exists out,
    log_prob inverse potrf _validate_sample self value = ok (out, self1) /\
    shape out = rb /\
    forall k, k < numel rb ->
      exists s,
        is_inverse (gram n L (bidx mb rb k)) s /\
        get out k =
        (-0.5 * (sumn n (fun i => sumn n (fun j =>
                   (vec n value (bidx vb rb k) i - vec n (loc self) (bidx lb rb k) i)
                   * mat n s 0 i j
                   * (vec n value (bidx vb rb k) j - vec n (loc self) (bidx lb rb k) j)))
                 + INR n * ln (2 * PI))
         - sumn n (fun i => ln (mat n L (bidx mb rb k) i i)))%R.
Proof.
  intros Hst Hloc HL Hwf Hn Hb Hbs Hev Hinf Hlow Hval Hv Hdb Hrb.
  assert (Hinv : forall k, k < numel mb -> invertible (item n k L)).
  { intros k Hk. apply (lower_pos_invertible n); [|now apply Hlow].
    now apply (is_matrix_item n k L mb). }
  destruct (log_prob_values self self1 value L lb mb vb db rb bs n
              Hst Hloc HL Hn Hb Hbs Hev Hinf Hinv Hval Hv Hdb Hrb)
    as (out & Hrun & Hso & Hget).
  exists out. split; [exact Hrun|]. split; [exact Hso|].
  intros k Hk. destruct (Hget k Hk) as (b & Hb' & ->).
  pose proof (gram_is_inverse n _ L b Hb') as Hg.
  eexists. split; [exact Hg|].
  assert (Hk' : bidx mb rb k < numel mb) by (now apply (@bidx_bound_r db mb rb k)).
  rewrite (squares_as_quad n _ L b _ _ Hb' Hg).
  f_equal. apply sumn_ext. intros i Hi. f_equal.
  apply Rabs_pos_eq. left.
  rewrite <- (@mat_item n (bidx mb rb k) L i i Hi Hi).
  now apply (proj2 (Hlow _ Hk')).
Qed.

End Density.

(** ** Distances, densities and draws *)

Section DensityProperties.

Variable inverse : Tensor -> result Tensor.
Hypothesis inverse_spec : forall a b, inverse a = ok b <-> is_inverse a b.
Variable potrf : Tensor -> result Tensor.
Hypothesis potrf_spec : forall a l, is_cholesky a l -> potrf a = ok l.
Variable _validate_sample : MultivariateNormal -> Tensor -> result unit.
Variable generator : Type.
Variable normal_ : Size -> generator -> Tensor * generator.
Hypothesis normal_shape : forall s g, shape (fst (normal_ s g)) = s.

(** X3: the distance undoes the product: for a batch [L] of invertible
    matrices, the squared Mahalanobis distance of [_batch_mv L eps] is the
    squared length of [eps]. *)
Theorem mahalanobis_of_batch_mv (L eps : Tensor) (mb vb rb : Size) (n : nat) :
  shape L = mb ++ [n; n] -> shape eps = vb ++ [n] ->
  0 < n -> 0 < numel mb ->
  infer_size vb mb = Some rb ->
  (forall k, k < numel mb -> invertible (item n k L)) ->
  exists mv out,
    _batch_mv L eps = ok mv /\
    _batch_mahalanobis inverse L mv = ok out /\
    shape out = rb /\
    forall k, k < numel rb ->
      get out k = sumn n (fun j => (vec n eps (bidx vb rb k) j ^ 2)%R).
Proof.
  intros HL He Hn Hb Hrb Hinv.
  destruct (batch_mv_ok L eps mb vb rb n HL He Hn Hrb) as (mv & Hmv & Hsmv & _ & Hval).
  pose proof (@infer_size_absorb_r vb mb rb Hrb) as Habs.
  destruct (mahalanobis_values inverse inverse_spec L mv mb rb rb n HL Hsmv Hn Hb Habs Hinv)
    as (out & Hrun & Hso & _ & Hout).
  exists mv, out. split; [exact Hmv|]. split; [exact Hrun|]. split; [exact Hso|].
  intros k Hk. destruct (Hout k Hk) as (b & Hb' & ->).
  rewrite (@bidx_refl rb k Hk).
  apply sumn_ext. intros j Hj. f_equal.
  rewrite <- (inverse_undoes n (item n (bidx mb rb k) L) b
                (vec n eps (bidx vb rb k)) j eq_refl Hb' Hj).
  apply sumn_ext. intros i Hi. f_equal.
  unfold vec at 1. rewrite (Hval k i Hk Hi).
  apply sumn_ext. intros l Hl. now rewrite mat_item.
Qed.


(** X7: for a factor that meets its constraint, and a value of event size n
    whose batch broadcasts, the log-density never fails and is the Gaussian
    one: minus half the quadratic form of the inverse of [l l^T] at
    [value - loc], minus [n/2 log(2 pi)], minus the sum of the logarithms
    of the diagonal of [l]. *)
Theorem log_prob_density (loc0 L value : Tensor) (va : option bool)
    (self : MultivariateNormal) (lb mb vb db rb : Size) (n : nat) :
  __init__ loc0 None (Some L) va = ok self ->
  shape loc0 = lb ++ [n] -> shape L = mb ++ [n; n] -> wf L ->
  0 < n -> 0 < numel mb ->
  (forall k, k < numel mb -> lower_pos n (item n k L)) ->
  (_validate_args self = true -> _validate_sample self value = ok tt) ->
  shape value = vb ++ [n] ->
  infer_size vb lb = Some db -> infer_size db mb = Some rb ->
  exists out,
    log_prob inverse potrf _validate_sample self value = ok (out, self) /\
    shape out = rb /\
    forall k, k < numel rb ->
      exists s,
        is_inverse (gram n L (bidx mb rb k)) s /\
        get out k =
        (-0.5 * (sumn n (fun i => sumn n (fun j =>
                   (vec n value (bidx vb rb k) i - vec n loc0 (bidx lb rb k) i)
                   * mat n s 0 i j
                   * (vec n value (bidx vb rb k) j - vec n loc0 (bidx lb rb k) j)))
                 + INR n * ln (2 * PI))
         - sumn n (fun i => ln (mat n L (bidx mb rb k) i i)))%R.
Proof.
  intros Hi Hl HL Hwf Hn Hb Hlow Hval Hv Hdb Hrb.
  destruct (init_scale_tril_frame potrf loc0 L va self lb mb n Hi Hl HL)
    as (bs & Hinf & Hloc & Hbs & Hev & Hst).
  rewrite <- Hloc in Hl.
  destruct (log_prob_lower_pos inverse inverse_spec potrf _validate_sample
              self self value L lb mb vb db rb bs n
              Hst Hl HL Hwf Hn Hb Hbs Hev Hinf Hlow Hval Hv Hdb Hrb)
    as (out & Hrun & Hso & Hget).
  rewrite Hloc in Hget. now exists out.
Qed.

(** X8: for an instance given by its covariance, with positive-definite
    items, the log-density derives the Cholesky factor, stores it on the
    instance, and is the Gaussian log-density of the covariance itself: the
    quadratic form is that of the inverse covariance. *)
Theorem log_prob_covariance (loc0 C value : Tensor) (va : option bool)
    (self : MultivariateNormal) (lb mb vb db rb : Size) (n : nat) :
  __init__ loc0 (Some C) None va = ok self ->
  shape loc0 = lb ++ [n] -> shape C = mb ++ [n; n] ->
  0 < n -> 0 < numel mb ->
  (forall k, k < numel mb -> positive_definite (item n k C)) ->
  (_validate_args self = true -> _validate_sample self value = ok tt) ->
  shape value = vb ++ [n] ->
  infer_size vb lb = Some db -> infer_size db mb = Some rb ->
  exists L out,
    scale_tril potrf self = ok (L, set_scale_tril self L) /\
    log_prob inverse potrf _validate_sample self value = ok (out, set_scale_tril self L) /\
    shape out = rb /\
    forall k, k < numel rb ->
      is_cholesky (item n (bidx mb rb k) C) (item n (bidx mb rb k) L) /\
      exists s,
        is_inverse (item n (bidx mb rb k) C) s /\
        get out k =
        (-0.5 * (sumn n (fun i => sumn n (fun j =>
                   (vec n value (bidx vb rb k) i - vec n loc0 (bidx lb rb k) i)
                   * mat n s 0 i j
                   * (vec n value (bidx vb rb k) j - vec n loc0 (bidx lb rb k) j)))
                 + INR n * ln (2 * PI))
         - sumn n (fun i => ln (mat n L (bidx mb rb k) i i)))%R.
Proof.
  intros Hi Hl HC Hn Hb Hpd Hval Hv Hdb Hrb.
  destruct (init_covariance loc0 C va self Hi) as (bs & Hr & _ & Hself).
  pose proof (get_batch_shape_inv C loc0 mb lb bs n HC Hl Hr) as Hinf.
  destruct (batch_potrf_ok potrf potrf_spec C mb n HC Hn Hb Hpd) as (L & HrunL & HsL & HwL & Hch).
  assert (Hst : scale_tril potrf self = ok (L, set_scale_tril self L)).
  { rewrite Hself. unfold scale_tril. cbn [scale_tril_ covariance_matrix_].
    now rewrite HrunL, bind_ok. }
  assert (HL : shape L = mb ++ [n; n]) by congruence.
  assert (Hlow : forall k, k < numel mb -> lower_pos n (item n k L)).
  { intros k Hk. destruct (Hch k Hk) as (n' & _ & [Hs' _] & Hlp & _).
    assert (n' = n) as -> by (cbn [item shape] in Hs'; congruence). exact Hlp. }
  destruct (log_prob_lower_pos inverse inverse_spec potrf _validate_sample
              self (set_scale_tril self L) value L lb mb vb db rb bs n)
    as (out & Hrun & Hso & Hget); try assumption.
  { now rewrite Hself. }
  { now rewrite Hself. }
  { rewrite Hself. cbn [_event_shape]. now rewrite Hl, take_last_snoc. }
  exists L, out. split; [exact Hst|]. split; [exact Hrun|]. split; [exact Hso|].
  intros k Hk.
  assert (Hk' : bidx mb rb k < numel mb) by (now apply (@bidx_bound_r db mb rb k)).
  split; [now apply Hch|].
  destruct (Hget k Hk) as (s & Hs & ->).
  exists s. split.
  - now rewrite (is_cholesky_gram n _ C L (Hch _ Hk')).
  - rewrite Hself. reflexivity.
Qed.

(** X9: the density is highest at the mean.  For a factor that meets its
    constraint and a value of the shape of [loc], every entry of
    [log_prob(value)] is at most the entry of [log_prob(loc)], which is
    [-n/2 log(2 pi)] minus the sum of the logarithms of the diagonal. *)
Theorem log_prob_max_at_loc (loc0 L value : Tensor) (va : option bool)
    (self : MultivariateNormal) (lb mb bs : Size) (n : nat) :
  __init__ loc0 None (Some L) va = ok self ->
  shape loc0 = lb ++ [n] -> shape L = mb ++ [n; n] -> wf L ->
  0 < n -> 0 < numel mb ->
  (forall k, k < numel mb -> lower_pos n (item n k L)) ->
  (forall v, _validate_args self = true -> _validate_sample self v = ok tt) ->
  shape value = shape loc0 ->
  _batch_shape self = bs ->
  exists out top,
    log_prob inverse potrf _validate_sample self value = ok (out, self) /\
    log_prob inverse potrf _validate_sample self loc0 = ok (top, self) /\
    shape out = bs /\ shape top = bs /\
    forall k, k < numel bs ->
      (get out k <= get top k)%R /\
      get top k =
      (-0.5 * (INR n * ln (2 * PI))
       - sumn n (fun i => ln (mat n L (bidx mb bs k) i i)))%R.
Proof.
  intros Hi Hl HL Hwf Hn Hb Hlow Hval Hv Hbs0.
  destruct (init_scale_tril_frame potrf loc0 L va self lb mb n Hi Hl HL)
    as (bs' & Hinf & Hloc & Hbs & Hev & Hst).
  assert (bs' = bs) as -> by congruence.
  assert (Hinv : forall k, k < numel mb -> invertible (item n k L)).
  { intros k Hk. apply (lower_pos_invertible n); [|now apply Hlow].
    now apply (is_matrix_item n k L mb). }
  rewrite Hl in Hv.
  assert (Hl' : shape (loc self) = lb ++ [n]) by (now rewrite Hloc).
  destruct (log_prob_values inverse inverse_spec potrf _validate_sample
              self self value L lb mb lb lb bs bs n
              Hst Hl' HL Hn Hb Hbs Hev Hinf Hinv (Hval value) Hv (infer_size_refl lb) Hinf)
    as (out & Hrun & Hso & Hget).
  destruct (log_prob_values inverse inverse_spec potrf _validate_sample
              self self loc0 L lb mb lb lb bs bs n
              Hst Hl' HL Hn Hb Hbs Hev Hinf Hinv (Hval loc0) Hl (infer_size_refl lb) Hinf)
    as (top & Hrun' & Hso' & Hget').
  exists out, top. split; [exact Hrun|]. split; [exact Hrun'|].
  split; [exact Hso|]. split; [exact Hso'|].
  intros k Hk.
  assert (Hk' : bidx mb bs k < numel mb) by (now apply (@bidx_bound_r lb mb bs k)).
  assert (Habs : sumn n (fun i => ln (Rabs (mat n L (bidx mb bs k) i i))) =
                 sumn n (fun i => ln (mat n L (bidx mb bs k) i i))).
  { apply sumn_ext. intros i Hi'. f_equal. apply Rabs_pos_eq. left.
    rewrite <- (@mat_item n (bidx mb bs k) L i i Hi' Hi').
    now apply (proj2 (Hlow _ Hk')). }
  destruct (Hget k Hk) as (b & _ & ->). destruct (Hget' k Hk) as (b' & _ & ->).
  rewrite Hloc, Habs.
  assert (H0 : sumn n (fun j =>
                 (sumn n (fun i =>
                    (vec n loc0 (bidx lb bs k) i - vec n loc0 (bidx lb bs k) i)
                    * entries n b' j i) ^ 2)%R) = 0%R).
  { rewrite <- (sumn_zero n). apply sumn_ext. intros j Hj.
    replace (sumn n (fun i =>
               ((vec n loc0 (bidx lb bs k) i - vec n loc0 (bidx lb bs k) i)
                * entries n b' j i)%R)) with 0%R; [ring|].
    rewrite <- (sumn_zero n). apply sumn_ext. intros i Hi'. ring. }
  rewrite H0.
  assert (Hge : (0 <= sumn n (fun j =>
                 (sumn n (fun i =>
                    (vec n value (bidx lb bs k) i - vec n loc0 (bidx lb bs k) i)
                    * entries n b j i) ^ 2)%R))%R).
  { apply sumn_nonneg. intros j Hj. apply pow2_ge_0. }
  split; lra.
Qed.

(** X10: the log-density is invariant under translation: moving the mean
    and the value by the same vector leaves it unchanged. *)
Theorem log_prob_translation (loc0 loc0' L value value' v : Tensor) (va : option bool)
    (self self' : MultivariateNormal) (lb mb vb db rb : Size) (n : nat) :
  __init__ loc0 None (Some L) va = ok self ->
  __init__ loc0' None (Some L) va = ok self' ->
  shape loc0 = lb ++ [n] -> shape L = mb ++ [n; n] ->
  0 < n -> 0 < numel mb ->
  (forall k, k < numel mb -> invertible (item n k L)) ->
  shape v = [n] ->
  add loc0 v = ok loc0' -> add value v = ok value' ->
  (_validate_args self = true -> _validate_sample self value = ok tt) ->
  (_validate_args self' = true -> _validate_sample self' value' = ok tt) ->
  shape value = vb ++ [n] ->
  infer_size vb lb = Some db -> infer_size db mb = Some rb ->
  exists out out',
    log_prob inverse potrf _validate_sample self value = ok (out, self) /\
    log_prob inverse potrf _validate_sample self' value' = ok (out', self') /\
    shape out = rb /\ shape out' = rb /\
    forall k, k < numel rb -> get out' k = get out k.
Proof.
  intros Hi Hi' Hl HL Hn Hb Hinv Ht Hlt Hvt Hval Hval' Hv Hdb Hrb.
  destruct (add_vector loc0 v lb n Hl Ht) as (l' & Hl1 & Hl2 & Hl3).
  rewrite Hlt in Hl1. apply ok_inj in Hl1. subst l'.
  destruct (add_vector value v vb n Hv Ht) as (v' & Hv1 & Hv2 & Hv3).
  rewrite Hvt in Hv1. apply ok_inj in Hv1. subst v'.
  destruct (init_scale_tril_frame potrf loc0 L va self lb mb n Hi Hl HL)
    as (bs & Hinf & Hloc & Hbs & Hev & Hst).
  destruct (init_scale_tril_frame potrf loc0' L va self' lb mb n Hi' Hl2 HL)
    as (bs' & Hinf' & Hloc' & Hbs' & Hev' & Hst').
  assert (bs' = bs) as -> by congruence.
  assert (Hls : shape (loc self) = lb ++ [n]) by (now rewrite Hloc).
  assert (Hls' : shape (loc self') = lb ++ [n]) by (now rewrite Hloc').
  destruct (log_prob_values inverse inverse_spec potrf _validate_sample
              self self value L lb mb vb db rb bs n
              Hst Hls HL Hn Hb Hbs Hev Hinf Hinv Hval Hv Hdb Hrb)
    as (out & Hrun & Hso & Hget).
  destruct (log_prob_values inverse inverse_spec potrf _validate_sample
              self' self' value' L lb mb vb db rb bs n
              Hst' Hls' HL Hn Hb Hbs' Hev' Hinf Hinv Hval' Hv2 Hdb Hrb)
    as (out' & Hrun' & Hso' & Hget').
  exists out, out'. split; [exact Hrun|]. split; [exact Hrun'|].
  split; [exact Hso|]. split; [exact Hso'|].
  intros k Hk.
  destruct (Hget k Hk) as (b & Hb1 & ->). destruct (Hget' k Hk) as (b' & Hb1' & ->).
  rewrite (is_inverse_unique _ _ _ Hb1' Hb1), Hloc, Hloc'.
  destruct (bidx_bound_twice vb lb mb db rb k Hdb Hrb Hk) as [Hkv Hkl].
  f_equal. f_equal. f_equal. apply sumn_ext. intros j Hj. f_equal.
  apply sumn_ext. intros i Hi0. f_equal.
  rewrite (Hv3 _ i Hkv Hi0), (Hl3 _ i Hkl Hi0). ring.
Qed.

(** X11: sampling and then scoring.  For a factor that meets its
    constraint, the log-density of the draw [rsample] returns depends on
    the noise only through its squared length:
    [-0.5 * (|eps|^2 + n log(2 pi))] minus the sum of the logarithms of the
    diagonal. *)
Theorem log_prob_of_rsample (loc0 L : Tensor) (va : option bool)
    (self : MultivariateNormal) (lb mb bs sample_shape : Size) (n : nat)
    (g : generator) :
  __init__ loc0 None (Some L) va = ok self ->
  shape loc0 = lb ++ [n] -> shape L = mb ++ [n; n] -> wf L ->
  0 < n -> 0 < numel mb ->
  (forall k, k < numel mb -> lower_pos n (item n k L)) ->
  (forall v, _validate_args self = true -> _validate_sample self v = ok tt) ->
  _batch_shape self = bs ->
  exists sample out,
    rsample potrf normal_ self sample_shape g =
      ok (sample, self, snd (normal_ (sample_shape ++ bs ++ [n]) g)) /\
    log_prob inverse potrf _validate_sample self sample = ok (out, self) /\
    shape out = sample_shape ++ bs /\
    forall k, k < numel (sample_shape ++ bs) ->
      get out k =
      (-0.5 * (sumn n (fun j =>
                 (vec n (fst (normal_ (sample_shape ++ bs ++ [n]) g)) k j ^ 2)%R)
               + INR n * ln (2 * PI))
       - sumn n (fun i => ln (mat n L (bidx mb (sample_shape ++ bs) k) i i)))%R.
Proof.
  intros Hi Hl HL Hwf Hn Hb Hlow Hval Hbs0.
  destruct (init_scale_tril_frame potrf loc0 L va self lb mb n Hi Hl HL)
    as (bs' & Hinf & Hloc & Hbs & Hev & Hst).
  assert (bs' = bs) as -> by congruence.
  assert (Hinv : forall k, k < numel mb -> invertible (item n k L)).
  { intros k Hk. apply (lower_pos_invertible n); [|now apply Hlow].
    now apply (is_matrix_item n k L mb). }
  set (vb := sample_shape ++ bs).
  pose proof (normal_shape (sample_shape ++ bs ++ [n]) g) as Heps.
  destruct (normal_ (sample_shape ++ bs ++ [n]) g) as [eps g'] eqn:Hnorm.
  cbn [fst snd] in *. rewrite app_assoc in Heps. fold vb in Heps.
  assert (Hvm : infer_size vb mb = Some vb).
  { apply infer_size_prefix. exact (@infer_size_absorb_r lb mb bs Hinf). }
  assert (Hvl : infer_size vb lb = Some vb).
  { apply infer_size_prefix. exact (@infer_size_absorb_l lb mb bs Hinf). }
  destruct (batch_mv_ok L eps mb vb vb n HL Heps Hn Hvm) as (mv & Hmv & Hsmv & Hwmv & Hgmv).
  assert (Hadd : infer_size (shape loc0) (shape mv) = Some (vb ++ [n])).
  { rewrite Hl, Hsmv, infer_size_snoc, bdim_refl. now rewrite infer_size_comm, Hvl. }
  pose proof (@bop_ok Rplus _ _ _ Hadd) as Hsum. fold add in Hsum.
  set (sample := mkT (vb ++ [n]) _) in Hsum.
  assert (Hl' : shape (loc self) = lb ++ [n]) by (now rewrite Hloc).
  destruct (log_prob_values inverse inverse_spec potrf _validate_sample
              self self sample L lb mb vb vb vb bs n
              Hst Hl' HL Hn Hb Hbs Hev Hinf Hinv (Hval sample) eq_refl Hvl Hvm)
    as (out & Hrun & Hso & Hget).
  exists sample, out. split.
  { unfold rsample, _extended_shape. rewrite Hbs, Hev, Hnorm, Hst, bind_ok, Hmv, bind_ok.
    now rewrite Hloc, Hsum, bind_ok. }
  split; [exact Hrun|]. split; [exact Hso|].
  intros k Hk. destruct (Hget k Hk) as (b & Hb' & ->).
  assert (Hk' : bidx mb vb k < numel mb) by (now apply (@bidx_bound_r vb mb vb k)).
  f_equal.
  - f_equal. f_equal. apply sumn_ext. intros j Hj. f_equal.
    rewrite <- (inverse_undoes n (item n (bidx mb vb k) L) b (vec n eps k) j eq_refl Hb' Hj).
    apply sumn_ext. intros i Hi'. f_equal.
    rewrite (@bidx_refl vb k Hk).
    unfold vec at 1. unfold sample.
    rewrite get_tab by (rewrite numel_snoc; now apply offset2_lt).
    rewrite Hl, Hsmv, bidx_snoc_same by exact Hi'.
    rewrite bidx_refl by (rewrite numel_snoc; now apply offset2_lt).
    rewrite (Hgmv k i Hk Hi'), (@bidx_refl vb k Hk), Hloc.
    unfold vec at 2.
    match goal with |- (?a + ?s - ?a')%R = _ => replace a' with a by reflexivity;
      transitivity s; [ring|] end.
    apply sumn_ext. intros l Hl0. now rewrite mat_item.
  - apply sumn_ext. intros i Hi'. f_equal. apply Rabs_pos_eq. left.
    rewrite <- (@mat_item n (bidx mb vb k) L i i Hi' Hi').
    now apply (proj2 (Hlow _ Hk')).
Qed.

(** X12: a value whose shape does not broadcast against [loc] is met by the
    subtraction [value - loc], before the factor is looked at: with the
    validation passing or off, [log_prob] raises the broadcasting error;
    with the validation on and failing, the validator's error comes
    first. *)
Theorem log_prob_value_clash (self : MultivariateNormal) (value : Tensor) :
  clash (shape value) (shape (loc self)) ->
  ((_validate_args self = true -> _validate_sample self value = ok tt) ->
   log_prob inverse potrf _validate_sample self value = raise RuntimeError) /\
  (forall e, _validate_args self = true -> _validate_sample self value = raise e ->
     log_prob inverse potrf _validate_sample self value = raise e).
Proof.
  intros Hclash. apply infer_size_none in Hclash.
  unfold log_prob. split.
  - intros Hval.
    replace (if _validate_args self then _validate_sample self value else ok tt)
      with (ok tt : result unit)
      by (destruct (_validate_args self); [symmetry; now apply Hval | reflexivity]).
    rewrite bind_ok. unfold sub, bop. now rewrite Hclash.
  - intros e Hon He. now rewrite Hon, He.
Qed.

(** X13: the Cholesky factor is derived once.  When [log_prob] succeeds on
    an instance given by its covariance, the instance it leaves holds the
    factor [_batch_potrf_lower] returned, next to the covariance; with that
    instance [log_prob] and [entropy] no longer call the decomposition:
    they return the same whatever it would do. *)
Theorem scale_tril_derived_once (self self1 : MultivariateNormal) (C value out : Tensor) :
  covariance_matrix_ self = Some C -> scale_tril_ self = None ->
  _validate_args self = false ->
  log_prob inverse potrf _validate_sample self value = ok (out, self1) ->
  (exists L, _batch_potrf_lower potrf C = ok L /\ self1 = set_scale_tril self L) /\
  forall potrf',
    log_prob inverse potrf' _validate_sample self1 value = ok (out, self1) /\
    entropy potrf' self1 = entropy potrf self1 /\
    covariance_matrix potrf' self1 = ok (C, self1).
Proof.
  intros Hcov Hst Hva Hrun.
  unfold log_prob in Hrun. rewrite Hva, bind_ok in Hrun.
  destruct (sub value (loc self)) as [e|diff] eqn:Hsub; [discriminate|].
  rewrite bind_ok in Hrun.
  unfold scale_tril at 1 in Hrun. rewrite Hst, Hcov in Hrun.
  destruct (_batch_potrf_lower potrf C) as [e|L] eqn:HL; [discriminate|].
  rewrite !bind_ok in Hrun.
  destruct (_batch_mahalanobis inverse L diff) as [e|M] eqn:HM; [discriminate|].
  rewrite bind_ok in Hrun.
  unfold scale_tril in Hrun. cbn [set_scale_tril scale_tril_] in Hrun.
  rewrite !bind_ok in Hrun.
  destruct (log_det_of L) as [e|ld] eqn:Hld; [discriminate|].
  rewrite bind_ok in Hrun. cbn [loc set_scale_tril] in Hrun.
  destruct (size (loc self) (-1)) as [e|n] eqn:Hn; [discriminate|].
  rewrite bind_ok in Hrun.
  destruct (sub _ ld) as [e|o] eqn:Ho; [discriminate|].
  rewrite bind_ok in Hrun. apply ok_inj in Hrun. injection Hrun as <- <-.
  split; [exists L; split; reflexivity|].
  intros potrf'. split; [|split].
  - assert (Hq : scale_tril potrf' (set_scale_tril self L) = ok (L, set_scale_tril self L))
      by reflexivity.
    unfold log_prob. rewrite Hq.
    replace (_validate_args (set_scale_tril self L)) with false by (symmetry; exact Hva).
    replace (loc (set_scale_tril self L)) with (loc self) by reflexivity.
    rewrite bind_ok, Hsub, !bind_ok. cbv beta iota.
    rewrite HM, bind_ok, Hq, bind_ok. cbv beta iota.
    replace (loc (set_scale_tril self L)) with (loc self) by reflexivity.
    now rewrite Hld, bind_ok, Hn, bind_ok, Ho, bind_ok.
  - reflexivity.
  - unfold covariance_matrix. cbn [set_scale_tril covariance_matrix_]. now rewrite Hcov.
Qed.

End DensityProperties.

(** ** A mean whose last dimension is 1; covariance and entropy *)

Section Moments.

Variable potrf : Tensor -> result Tensor.
Variable generator : Type.
Variable normal_ : Size -> generator -> Tensor * generator.
Hypothesis normal_shape : forall s g, shape (fst (normal_ s g)) = s.

(** X14: an instance whose [loc] ends in a dimension of size 1 while its
    factor holds n-by-n matrices with n > 1 is accepted by the constructor,
    but cannot be sampled: [_batch_mv] takes n from the noise, whose last
    dimension is 1, and the expansion of the factor to 1-by-1 matrices
    fails. *)
Theorem rsample_unit_event (loc0 L : Tensor) (va : option bool)
    (mb vb bs : Size) (n : nat) :
  shape loc0 = vb ++ [1] -> shape L = mb ++ [n; n] -> 1 < n ->
  infer_size vb mb = Some bs ->
  exists self,
    __init__ loc0 None (Some L) va = ok self /\
    _batch_shape self = bs /\ _event_shape self = [1] /\
    (forall bvec sb, shape bvec = sb ++ bs ++ [1] ->
       _batch_mv L bvec = raise RuntimeError) /\
    forall sample_shape g,
      rsample potrf normal_ self sample_shape g = raise RuntimeError.
Proof.
  intros Hl HL Hn Hbs.
  assert (Hmv : forall bvec sb, shape bvec = sb ++ bs ++ [1] ->
                  _batch_mv L bvec = raise RuntimeError).
  { intros bvec sb Hv. rewrite app_assoc in Hv.
    apply (batch_mv_unit L bvec mb (sb ++ bs) (sb ++ bs) n HL Hv Hn).
    apply infer_size_prefix. exact (@infer_size_absorb_r vb mb bs Hbs). }
  destruct (batch_mv_unit L loc0 mb vb bs n HL Hl Hn Hbs) as [Hr _].
  assert (Hd : (dim L <? 2) = false).
  { apply Nat.ltb_ge. unfold dim. rewrite HL, length_app. simpl. lia. }
  eexists. split.
  { unfold __init__. rewrite Hd, Hr, bind_ok. reflexivity. }
  unfold Distribution__init__. cbn [_batch_shape _event_shape loc scale_tril_].
  split; [reflexivity|]. split; [now rewrite Hl, take_last_snoc|].
  split; [exact Hmv|].
  intros sample_shape g. unfold rsample, _extended_shape.
  cbn [_batch_shape _event_shape].
  pose proof (normal_shape (sample_shape ++ bs ++ take_last (shape loc0)) g) as Hs.
  destruct (normal_ (sample_shape ++ bs ++ take_last (shape loc0)) g) as [eps g'].
  cbn [fst] in Hs. rewrite Hl, take_last_snoc in Hs.
  unfold scale_tril. cbn [scale_tril_]. rewrite bind_ok.
  now rewrite (Hmv eps sample_shape Hs).
Qed.

(** With the event shape (1,), the lazy covariance flattens the factor into
    1-by-1 blocks. *)
Lemma covariance_matrix_squares (self : MultivariateNormal) (L : Tensor) :
  scale_tril_ self = Some L -> covariance_matrix_ self = None ->
  _event_shape self = [1] ->
  exists C,
    covariance_matrix potrf self = ok (C, set_covariance_matrix self C) /\
    shape C = shape L /\
    forall q, q < numel (shape L) -> get C q = (get L q * get L q)%R.
Proof.
  intros Hst Hcov Hev.
  unfold covariance_matrix, scale_tril. rewrite Hcov, Hst, !bind_ok.
  rewrite Hst, Hev. rewrite unsqueeze_0, bind_ok. unfold contiguous.
  change ((-1)%Z :: zs ([1] ++ [1])) with [(-1)%Z; 1%Z; 1%Z].
  rewrite view_units, bind_ok. cbn [shape data].
  erewrite (transpose_last2_ok _ [numel (1 :: shape L)] 1 1) by reflexivity.
  rewrite bind_ok.
  erewrite bmm_ok by reflexivity. rewrite !bind_ok.
  rewrite view_same by (cbn [shape]; simpl; lia).
  rewrite bind_ok.
  eexists. split; [reflexivity|]. split; [reflexivity|].
  intros q Hq.
  unfold get at 1. cbn [data].
  rewrite nth_tab by (simpl; lia).
  rewrite sumn_S, sumn_0.
  unfold get at 2. cbn [data].
  change (1 * 1) with 1. rewrite !Nat.div_1_r, !Nat.mod_1_r.
  replace ((q * 1 + 0) * 1 + 0) with q by lia.
  rewrite nth_tab by (simpl; lia).
  rewrite !Nat.div_1_r, !Nat.mod_1_r.
  replace ((q * 1 + 0) * 1 + 0) with q by lia.
  unfold get. cbn [data]. lra.
Qed.

(** X15: for an instance whose [loc] ends in a dimension of size 1, the
    lazy covariance is the entrywise square of the factor, whatever the
    size of its matrices: the property flattens the factor with the event
    shape, (1, 1), so [bmm] multiplies 1-by-1 blocks. *)
Theorem covariance_matrix_unit_event (loc0 L : Tensor) (va : option bool)
    (self : MultivariateNormal) (vb : Size) :
  __init__ loc0 None (Some L) va = ok self ->
  shape loc0 = vb ++ [1] ->
  exists C,
    covariance_matrix potrf self = ok (C, set_covariance_matrix self C) /\
    shape C = shape L /\
    forall q, q < numel (shape L) -> get C q = (get L q * get L q)%R.
Proof.
  intros Hi Hl.
  destruct (init_scale_tril loc0 L va self Hi) as (bs & _ & _ & ->).
  apply covariance_matrix_squares; try reflexivity.
  cbn [_event_shape]. now rewrite Hl, take_last_snoc.
Qed.

(** X16: the covariance derived from a factor is symmetric, with a
    non-negative diagonal. *)
Theorem covariance_matrix_symmetric (loc0 L : Tensor) (va : option bool)
    (self : MultivariateNormal) (lb mb : Size) (n : nat) :
  __init__ loc0 None (Some L) va = ok self ->
  shape loc0 = lb ++ [n] -> shape L = mb ++ [n; n] -> 0 < n ->
  exists C,
    covariance_matrix potrf self = ok (C, set_covariance_matrix self C) /\
    shape C = shape L /\
    forall k i j, k < numel mb -> i < n -> j < n ->
      mat n C k i j = mat n C k j i /\ (0 <= mat n C k i i)%R.
Proof.
  intros Hi Hl HL Hn.
  destruct (init_scale_tril loc0 L va self Hi) as (bs & _ & _ & Hself).
  pose proof (covariance_matrix_ok potrf self L mb n) as Hrun.
  rewrite Hself in Hrun at 1 2 3. cbn [scale_tril_ covariance_matrix_ _event_shape] in Hrun.
  rewrite Hl, take_last_snoc in Hrun.
  specialize (Hrun eq_refl eq_refl eq_refl HL Hn).
  exists (batch_gram mb n L). split; [exact Hrun|]. split; [now rewrite HL|].
  intros k i j Hk Hi0 Hj. rewrite !mat_batch_gram by assumption. split.
  - apply sumn_ext. intros p Hp. ring.
  - apply sumn_nonneg. intros p Hp. nra.
Qed.

(** The entropy reads the instance through its two matrix attributes and
    its two shapes only. *)
Lemma entropy_value_ext (self self' : MultivariateNormal) :
  scale_tril_ self = scale_tril_ self' ->
  covariance_matrix_ self = covariance_matrix_ self' ->
  _batch_shape self = _batch_shape self' ->
  _event_shape self = _event_shape self' ->
  value_of (entropy potrf self) = value_of (entropy potrf self').
Proof.
  intros Hst Hcov Hbs Hev. unfold entropy, scale_tril. rewrite Hst, Hcov.
  destruct (scale_tril_ self') as [v|].
  - rewrite !bind_ok, Hbs, Hev.
    destruct (log_det_of v) as [e|ld]; [reflexivity|]. rewrite !bind_ok.
    destruct (_event_shape self') as [|m ?]; [reflexivity|]. rewrite !bind_ok.
    destruct (length (_batch_shape self') =? 0); [reflexivity|].
    destruct (expand _ _) as [e|x]; reflexivity.
  - destruct (covariance_matrix_ self') as [cov|]; [|reflexivity].
    destruct (_batch_potrf_lower potrf cov) as [e|v]; [reflexivity|].
    rewrite !bind_ok. cbn [set_scale_tril _event_shape _batch_shape]. rewrite Hbs, Hev.
    destruct (log_det_of v) as [e|ld]; [reflexivity|]. rewrite !bind_ok.
    destruct (_event_shape self') as [|m ?]; [reflexivity|]. rewrite !bind_ok.
    destruct (length (_batch_shape self') =? 0); [reflexivity|].
    destruct (expand _ _) as [e|x]; reflexivity.
Qed.

(** X17: the entropy does not depend on the mean: two instances built from
    the same matrix and from means of the same shape have the same entropy,
    or fail alike. *)
Theorem entropy_ignores_loc (loc0 loc0' : Tensor) (cov st : option Tensor)
    (va va' : option bool) (self self' : MultivariateNormal) :
  __init__ loc0 cov st va = ok self ->
  __init__ loc0' cov st va' = ok self' ->
  shape loc0' = shape loc0 ->
  value_of (entropy potrf self) = value_of (entropy potrf self').
Proof.
  intros Hi Hi' Hs.
  destruct cov as [C|], st as [L|]; try discriminate.
  - destruct (init_covariance loc0 C va self Hi) as (bs & Hr & _ & ->).
    destruct (init_covariance loc0' C va' self' Hi') as (bs' & Hr' & _ & ->).
    unfold _get_batch_shape in Hr, Hr'. rewrite Hs in Hr'. rewrite Hr in Hr'.
    apply ok_inj in Hr'. subst bs'.
    apply entropy_value_ext; cbn; congruence.
  - destruct (init_scale_tril loc0 L va self Hi) as (bs & Hr & _ & ->).
    destruct (init_scale_tril loc0' L va' self' Hi') as (bs' & Hr' & _ & ->).
    unfold _get_batch_shape in Hr, Hr'. rewrite Hs in Hr'. rewrite Hr in Hr'.
    apply ok_inj in Hr'. subst bs'.
    apply entropy_value_ext; cbn; congruence.
Qed.

(** X18: scaling the factor by a number [c] shifts the entropy by
    [n log|c|]. *)
Theorem entropy_scale (loc0 L : Tensor) (c : R) (va : option bool)
    (self self' : MultivariateNormal) (lb mb : Size) (n : nat) :
  __init__ loc0 None (Some L) va = ok self ->
  __init__ loc0 None (Some (rmul_scalar c L)) va = ok self' ->
  shape loc0 = lb ++ [n] -> shape L = mb ++ [n; n] -> wf L -> 0 < numel mb ->
  c <> 0%R ->
  (forall k i, k < numel mb -> i < n -> mat n L k i i <> 0%R) ->
  exists out out',
    entropy potrf self = ok (out, self) /\
    entropy potrf self' = ok (out', self') /\
    shape out' = shape out /\
    forall k, k < numel (shape out) ->
      get out' k = (get out k + INR n * ln (Rabs c))%R.
Proof.
  intros Hi Hi' Hl HL Hwf Hb Hc Hd.
  destruct (init_scale_tril_frame potrf loc0 L va self lb mb n Hi Hl HL)
    as (bs & Hinf & _ & Hbs & Hev & Hst).
  assert (HL' : shape (rmul_scalar c L) = mb ++ [n; n]) by exact HL.
  destruct (init_scale_tril_frame potrf loc0 _ va self' lb mb n Hi' Hl HL')
    as (bs' & Hinf' & _ & Hbs' & Hev' & Hst').
  assert (bs' = bs) as -> by congruence.
  destruct (entropy_general potrf self self L lb mb bs n Hst HL Hb Hev Hbs Hinf)
    as (ld & out & _ & _ & Hld & Hrun & Hso & Hget & _).
  destruct (entropy_general potrf self' self' _ lb mb bs n Hst' HL' Hb Hev' Hbs' Hinf)
    as (ld' & out' & _ & _ & Hld' & Hrun' & Hso' & Hget' & _).
  exists out, out'. split; [exact Hrun|]. split; [exact Hrun'|].
  split; [congruence|].
  rewrite Hso. intros k Hk.
  assert (Hk' : bidx mb bs k < numel mb) by (now apply (@bidx_bound_r lb mb bs k)).
  rewrite (Hget k Hk), (Hget' k Hk), (Hld _ Hk'), (Hld' _ Hk').
  rewrite <- sumn_const, Rplus_assoc, <- sumn_plus. f_equal.
  apply sumn_ext. intros i Hi0.
  assert (Hq : (bidx mb bs k * n + i) * n + i < length (data L)).
  { unfold wf in Hwf. rewrite Hwf, HL, numel_snoc2. now apply offset3_lt. }
  unfold mat, rmul_scalar. rewrite get_tmap by exact Hq.
  rewrite Rabs_mult, ln_mult.
  - ring.
  - now apply Rabs_pos_lt.
  - apply Rabs_pos_lt. now apply Hd.
Qed.

End Moments.

(** ** The further properties at concrete inputs *)

Lemma Z2_singular : ~ invertible (item 2 0 Z2).
Proof.
  intros (b & n & [Hs _] & _ & H & _).
  assert (n = 2) as -> by (cbn [item shape] in Hs; congruence).
  specialize (H 0 0 (Nat.lt_0_succ 1) (Nat.lt_0_succ 1)).
  cbv [sumn tab seq map sumR fold_right mat get item Z2 numel data delta Nat.eqb
       firstn skipn Nat.mul Nat.add nth] in H.
  lra.
Qed.

Lemma Z2_not_positive_definite : ~ positive_definite (item 2 0 Z2).
Proof.
  intros (l & n & [Hs _] & _ & [_ Hpos] & H).
  assert (n = 2) as -> by (cbn [item shape] in Hs; congruence).
  specialize (H 0 0 (Nat.lt_0_succ 1) (Nat.lt_0_succ 1)).
  pose proof (Hpos 0 (Nat.lt_0_succ 1)) as H0.
  cbv [sumn tab seq map sumR fold_right] in H.
  replace (mat 2 (item 2 0 Z2) 0 0 0) with 0%R in H by reflexivity.
  nra.
Qed.

Lemma the_potrf_fails (a : Tensor) : ~ positive_definite a -> the_potrf a = raise RuntimeError.
Proof.
  intros H. unfold the_potrf.
  destruct (excluded_middle_informative (positive_definite a)); [contradiction|reflexivity].
Qed.

Lemma C1_cholesky (k : nat) : k < numel [] -> is_cholesky (item 2 k C1) (item 2 k L1).
Proof.
  intros Hk. simpl in Hk. assert (k = 0) as -> by lia.
  exists 2. split; [split; reflexivity|]. split; [split; reflexivity|].
  split; [apply (L1_lower_pos 0); simpl; lia|].
  intros i j Hi Hj; two_by_two.
Qed.

Lemma gram_L1 : gram 2 L1 0 = item 2 0 C1.
Proof.
  symmetry. apply (is_cholesky_gram 2 0 C1 L1). apply C1_cholesky. simpl. lia.
Qed.

Lemma C1_inverse : is_inverse (item 2 0 C1) S1.
Proof.
  exists 2. split; [split; reflexivity|]. split; [split; reflexivity|].
  split; intros i j Hi Hj;
    destruct (lt_2_cases i Hi) as [-> | ->], (lt_2_cases j Hj) as [-> | ->];
    cbv [sumn tab seq map sumR fold_right mat get item C1 S1 numel data delta Nat.eqb
         firstn skipn Nat.mul Nat.add nth];
    lra.
Qed.

Lemma L1_diagonal (k i : nat) : k < numel [] -> i < 2 -> mat 2 L1 k i i <> 0%R.
Proof.
  intros Hk Hi. simpl in Hk. assert (k = 0) as -> by lia.
  destruct (lt_2_cases i Hi) as [-> | ->];
    cbv [mat get L1 data Nat.mul Nat.add nth]; lra.
Qed.

(** The density of [value1] under the mean [loc1] and the covariance [C1]. *)
Lemma density_value1 (s : Tensor) :
  is_inverse (item 2 0 C1) s ->
  (-0.5 * (sumn 2 (fun i => sumn 2 (fun j =>
             (vec 2 value1 (bidx [] [] 0) i - vec 2 loc1 (bidx [] [] 0) i)
             * mat 2 s 0 i j
             * (vec 2 value1 (bidx [] [] 0) j - vec 2 loc1 (bidx [] [] 0) j)))
           + INR 2 * ln (2 * PI))
   - sumn 2 (fun i => ln (mat 2 L1 (bidx [] [] 0) i i)))%R
  = (-0.5 * (5 + 2 * ln (2 * PI)) - ln 2)%R.
Proof.
  intros Hs. rewrite (is_inverse_unique _ _ _ Hs C1_inverse).
  cbv [sumn tab seq map sumR fold_right mat vec get S1 L1 value1 loc1 data
       bidx bidx_rev rev app Nat.mul Nat.add nth].
  rewrite ln_1. simpl INR. lra.
Qed.

(** The diagonal of [L1]. *)
Lemma batch_diag_entries_witness :
  exists d, _batch_diag L1 = ok d /\ shape d = [2] /\ vec 2 d 0 0 = 2%R /\ vec 2 d 0 1 = 1%R.
Proof.
  destruct (batch_diag_entries L1 [] 2) as (d & Hrun & Hs & _ & Hv);
    [reflexivity | simpl; lia |].
  exists d. split; [exact Hrun|]. split; [exact Hs|].
  split; rewrite Hv by (simpl; lia); reflexivity.
Defined.

(** [L1] times [value1]. *)
Lemma batch_mv_product_witness :
  exists out,
    _batch_mv L1 value1 = ok out /\ shape out = [2] /\
    vec 2 out 0 0 = 6%R /\ vec 2 out 0 1 = 8%R.
Proof.
  destruct (batch_mv_product L1 value1 [] [] [] 2) as (out & Hrun & Hs & _ & Hv & _);
    [reflexivity | reflexivity | lia | reflexivity |].
  exists out. split; [exact Hrun|]. split; [exact Hs|].
  split; rewrite Hv by (simpl; lia);
    cbv [sumn tab seq map sumR fold_right mat vec get L1 value1 data bidx bidx_rev rev app
         Nat.mul Nat.add nth]; lra.
Defined.

(** The distance of [L1] times [value1] is the squared length of
    [value1]. *)
Lemma mahalanobis_of_batch_mv_witness :
  exists mv out,
    _batch_mv L1 value1 = ok mv /\
    _batch_mahalanobis the_inverse L1 mv = ok out /\
    shape out = [] /\ get out 0 = 34%R.
Proof.
  destruct (mahalanobis_of_batch_mv the_inverse the_inverse_spec L1 value1 [] [] [] 2)
    as (mv & out & Hmv & Hrun & Hs & Hv);
    [reflexivity | reflexivity | lia | simpl; lia | reflexivity | exact L1_invertible |].
  exists mv, out. split; [exact Hmv|]. split; [exact Hrun|]. split; [exact Hs|].
  rewrite Hv by (simpl; lia).
  cbv [sumn tab seq map sumR fold_right vec get value1 data bidx bidx_rev rev app
       Nat.mul Nat.add nth pow]. lra.
Defined.


(** The zero matrix as a factor. *)
Lemma batch_mahalanobis_singular_witness :
  exists e, _batch_mahalanobis the_inverse Z2 value1 = raise e.
Proof.
  apply (batch_mahalanobis_singular the_inverse the_inverse_spec Z2 value1 [] 2 0);
    [reflexivity | reflexivity | lia | simpl; lia | exact Z2_singular].
Defined.

(** The zero matrix as a covariance. *)
Lemma batch_potrf_first_error_witness :
  _batch_potrf_lower the_potrf Z2 = raise RuntimeError /\
  scale_tril the_potrf selfZ = raise RuntimeError /\
  entropy the_potrf selfZ = raise RuntimeError.
Proof.
  destruct (batch_potrf_first_error the_potrf Z2 [] 2 0 RuntimeError) as [H1 H2];
    [reflexivity | lia | simpl; lia | intros j Hj; lia
    | exact (the_potrf_fails _ Z2_not_positive_definite) |].
  split; [exact H1|]. apply (H2 selfZ); reflexivity.
Defined.

(** The log-density of [value1] under [loc1] and the factor [L1]. *)
Lemma log_prob_density_witness :
  exists out,
    log_prob the_inverse the_potrf accept_sample self1 value1 = ok (out, self1) /\
    shape out = [] /\
    get out 0 = (-0.5 * (5 + 2 * ln (2 * PI)) - ln 2)%R.
Proof.
  destruct (log_prob_density the_inverse the_inverse_spec the_potrf accept_sample
              loc1 L1 value1 None self1 [] [] [] [] [] 2)
    as (out & Hrun & Hs & Hv);
    [reflexivity | reflexivity | reflexivity | reflexivity | lia | simpl; lia
    | exact L1_lower_pos | reflexivity | reflexivity | reflexivity | reflexivity |].
  exists out. split; [exact Hrun|]. split; [exact Hs|].
  destruct (Hv 0) as (s & Hinv & ->); [simpl; lia|].
  apply density_value1. change (bidx [] [] 0) with 0 in Hinv. now rewrite <- gram_L1.
Defined.

(** The log-density of [value1] under [loc1] and the covariance [C1]: the
    factor derived is [L1], and the value is that of the instance built
    from [L1]. *)
Lemma log_prob_covariance_witness :
  exists out,
    scale_tril the_potrf selfC = ok (L1, set_scale_tril selfC L1) /\
    log_prob the_inverse the_potrf accept_sample selfC value1
      = ok (out, set_scale_tril selfC L1) /\
    shape out = [] /\
    get out 0 = (-0.5 * (5 + 2 * ln (2 * PI)) - ln 2)%R.
Proof.
  destruct (log_prob_covariance the_inverse the_inverse_spec the_potrf the_potrf_spec
              accept_sample loc1 C1 value1 None selfC [] [] [] [] [] 2)
    as (L & out & Hst & Hrun & Hs & Hv);
    [reflexivity | reflexivity | reflexivity | lia | simpl; lia
    | exact C1_positive_definite | reflexivity | reflexivity | reflexivity | reflexivity |].
  assert (HL : L = L1).
  { unfold scale_tril in Hst. cbn [scale_tril_ covariance_matrix_ selfC] in Hst.
    rewrite (batch_potrf_exact the_potrf the_potrf_spec C1 L1 [] 2) in Hst;
      [| reflexivity | reflexivity | reflexivity | lia | simpl; lia | exact C1_cholesky].
    rewrite bind_ok in Hst. apply ok_inj in Hst. now injection Hst as <-. }
  subst L.
  exists out. split; [exact Hst|]. split; [exact Hrun|]. split; [exact Hs|].
  destruct (Hv 0) as (_ & s & Hinv & ->); [simpl; lia|].
  now apply density_value1.
Defined.

(** [value1] against the mean [loc1]. *)
Lemma log_prob_max_at_loc_witness :
  exists out top,
    log_prob the_inverse the_potrf accept_sample self1 value1 = ok (out, self1) /\
    log_prob the_inverse the_potrf accept_sample self1 loc1 = ok (top, self1) /\
    (get out 0 <= get top 0)%R /\
    get top 0 = (-0.5 * (INR 2 * ln (2 * PI)) - ln 2)%R.
Proof.
  destruct (log_prob_max_at_loc the_inverse the_inverse_spec the_potrf accept_sample
              loc1 L1 value1 None self1 [] [] [] 2)
    as (out & top & Hrun & Hrun' & _ & _ & Hv);
    [reflexivity | reflexivity | reflexivity | reflexivity | lia | simpl; lia
    | exact L1_lower_pos | reflexivity | reflexivity | reflexivity |].
  exists out, top. split; [exact Hrun|]. split; [exact Hrun'|].
  destruct (Hv 0) as [Hle Htop]; [simpl; lia|].
  split; [exact Hle|]. rewrite Htop.
  cbv [sumn tab seq map sumR fold_right mat get L1 data bidx bidx_rev rev app
       Nat.mul Nat.add nth].
  rewrite ln_1. lra.
Defined.

(** [loc1] and [value1], both moved by [shift1]. *)
Lemma log_prob_translation_witness :
  exists out out',
    log_prob the_inverse the_potrf accept_sample self1 value1 = ok (out, self1) /\
    log_prob the_inverse the_potrf accept_sample self1s value1s = ok (out', self1s) /\
    get out' 0 = get out 0.
Proof.
  destruct (log_prob_translation the_inverse the_inverse_spec the_potrf accept_sample
              loc1 loc1s L1 value1 value1s shift1 None self1 self1s [] [] [] [] [] 2)
    as (out & out' & H1 & H2 & _ & _ & Hv);
    [reflexivity | reflexivity | reflexivity | reflexivity | lia | simpl; lia
    | exact L1_invertible | reflexivity | reflexivity | reflexivity | reflexivity
    | reflexivity | reflexivity | reflexivity | reflexivity |].
  exists out, out'. split; [exact H1|]. split; [exact H2|]. apply Hv. simpl. lia.
Defined.

(** Three draws from the instance built from [loc1] and [L1], with zero
    noise, and their log-density. *)
Lemma log_prob_of_rsample_witness :
  exists sample out,
    rsample the_potrf zero_normal self1 [3] 0 = ok (sample, self1, 1) /\
    log_prob the_inverse the_potrf accept_sample self1 sample = ok (out, self1) /\
    shape out = [3] /\
    get out 0 = (-0.5 * (0 + INR 2 * ln (2 * PI)) - ln 2)%R.
Proof.
  destruct (log_prob_of_rsample the_inverse the_inverse_spec the_potrf accept_sample
              nat zero_normal zero_normal_shape loc1 L1 None self1 [] [] [] [3] 2 0)
    as (sample & out & Hr & Hrun & Hs & Hv);
    [reflexivity | reflexivity | reflexivity | reflexivity | lia | simpl; lia
    | exact L1_lower_pos | reflexivity | reflexivity |].
  exists sample, out. split; [exact Hr|]. split; [exact Hrun|]. split; [exact Hs|].
  rewrite Hv by (simpl; lia).
  cbv [sumn tab seq map sumR fold_right mat vec get L1 data bidx bidx_rev rev app
       zero_normal fst numel repeat Nat.mul Nat.add nth pow Nat.modulo Nat.div].
  simpl. rewrite ln_1. lra.
Defined.

(** A value of length 3 against the mean [loc1] of length 2. *)
Lemma log_prob_value_clash_witness :
  clash (shape value3) (shape (loc self1)) /\
  log_prob the_inverse the_potrf accept_sample self1 value3 = raise RuntimeError.
Proof.
  assert (Hc : clash (shape value3) (shape (loc self1))).
  { exists 0, 3, 2. simpl. repeat split; try reflexivity; lia. }
  split; [exact Hc|].
  apply (proj1 (log_prob_value_clash the_inverse the_potrf accept_sample self1 value3 Hc)).
  reflexivity.
Defined.

(** The instance built from [loc1] and the covariance [C1], scored twice. *)
Lemma scale_tril_derived_once_witness :
  exists out,
    log_prob the_inverse the_potrf accept_sample selfC value1
      = ok (out, set_scale_tril selfC L1) /\
    forall potrf',
      log_prob the_inverse potrf' accept_sample (set_scale_tril selfC L1) value1
        = ok (out, set_scale_tril selfC L1).
Proof.
  assert (Hst : scale_tril the_potrf selfC = ok (L1, set_scale_tril selfC L1)).
  { unfold scale_tril. cbn [scale_tril_ covariance_matrix_ selfC].
    rewrite (batch_potrf_exact the_potrf the_potrf_spec C1 L1 [] 2);
      [reflexivity | reflexivity | reflexivity | reflexivity | lia | simpl; lia
      | exact C1_cholesky]. }
  destruct (log_prob_lower_pos the_inverse the_inverse_spec the_potrf accept_sample
              selfC (set_scale_tril selfC L1) value1 L1 [] [] [] [] [] [] 2 Hst)
    as (out & Hrun & _);
    [reflexivity | reflexivity | reflexivity | lia | simpl; lia | reflexivity | reflexivity
    | reflexivity | exact L1_lower_pos | reflexivity | reflexivity | reflexivity
    | reflexivity |].
  exists out. split; [exact Hrun|].
  intros potrf'.
  apply (scale_tril_derived_once the_inverse the_potrf accept_sample
           selfC (set_scale_tril selfC L1) C1 value1 out);
    [reflexivity | reflexivity | reflexivity | exact Hrun].
Defined.

(** The mean [locU] of shape (1,) with the 2-by-2 factor [L1]. *)
Lemma rsample_unit_event_witness :
  exists self,
    __init__ locU None (Some L1) None = ok self /\
    rsample the_potrf zero_normal self [3] 0 = raise RuntimeError.
Proof.
  destruct (rsample_unit_event the_potrf nat zero_normal zero_normal_shape
              locU L1 None [] [] [] 2)
    as (self & Hi & _ & _ & _ & Hr);
    [reflexivity | reflexivity | lia | reflexivity |].
  exists self. split; [exact Hi | apply Hr].
Defined.

(** The same instance: its covariance is [[4, 0], [1, 1]], the squares of
    the entries of [L1], where [L1 L1^T] is [[4, 2], [2, 2]]. *)
Lemma covariance_matrix_unit_event_witness :
  exists C,
    covariance_matrix the_potrf selfU = ok (C, set_covariance_matrix selfU C) /\
    shape C = [2; 2] /\
    get C 0 = 4%R /\ get C 1 = 0%R /\ get C 2 = 1%R /\ get C 3 = 1%R.
Proof.
  destruct (covariance_matrix_unit_event the_potrf locU L1 None selfU [])
    as (C & Hrun & Hs & Hv); [reflexivity | reflexivity |].
  exists C. split; [exact Hrun|]. split; [exact Hs|].
  repeat split; rewrite Hv by (simpl; lia); unfold get, L1; simpl; lra.
Defined.

(** The covariance derived from [L1]. *)
Lemma covariance_matrix_symmetric_witness :
  exists C,
    covariance_matrix the_potrf self1 = ok (C, set_covariance_matrix self1 C) /\
    mat 2 C 0 0 1 = mat 2 C 0 1 0 /\ (0 <= mat 2 C 0 1 1)%R.
Proof.
  destruct (covariance_matrix_symmetric the_potrf loc1 L1 None self1 [] [] 2)
    as (C & Hrun & _ & Hv);
    [reflexivity | reflexivity | reflexivity | lia |].
  exists C. split; [exact Hrun|]. split.
  - apply (Hv 0 0 1); simpl; lia.
  - apply (Hv 0 1 1); simpl; lia.
Defined.

(** The means [loc1] and [zeros2] with the factor [L1]. *)
Lemma entropy_ignores_loc_witness :
  value_of (entropy the_potrf self1) = value_of (entropy the_potrf self0).
Proof.
  apply (entropy_ignores_loc the_potrf loc1 zeros2 None (Some L1) None None self1 self0);
    reflexivity.
Defined.

(** The factor [L1] and three times [L1]. *)
Lemma entropy_scale_witness :
  exists out out',
    entropy the_potrf self1 = ok (out, self1) /\
    entropy the_potrf self3 = ok (out', self3) /\
    get out' 0 = (get out 0 + INR 2 * ln (Rabs 3))%R.
Proof.
  assert (H3 : (3 <> 0)%R) by lra.
  destruct (entropy_scale the_potrf loc1 L1 3 None self1 self3 [] [] 2)
    as (out & out' & Hrun & Hrun' & _ & Hv);
    [reflexivity | reflexivity | reflexivity | reflexivity | reflexivity | simpl; lia
    | exact H3 | exact L1_diagonal |].
  exists out, out'. split; [exact Hrun|]. split; [exact Hrun'|].
  apply Hv.
  destruct (entropy_general the_potrf self1 self1 L1 [] [] [] 2)
    as (ld & o & _ & _ & _ & Hr & Hso & _);
    [reflexivity | reflexivity | simpl; lia | reflexivity | reflexivity | reflexivity |].
  rewrite Hrun in Hr. apply ok_inj in Hr. injection Hr as <-. rewrite Hso. simpl. lia.
Defined.
